(** * YOLACT training loss (loss/loss_yolact.py): model and properties

    The development embeds the class [YOLACTLoss] of loss/loss_yolact.py.
    Tensors are nested lists, one list level per axis.  Tensor entries are
    real numbers: rounding and overflow of float32 are not modelled.  The two
    operations of the file that leave the finite numbers in exact arithmetic,
    division and logarithm, produce values of [tfloat], which adds the two
    infinities and the not-a-number value of IEEE 754 to the reals.
    TensorFlow operations that raise (index out of range, shapes that do not
    agree) return [None]. *)

From Stdlib Require Import Reals Lra Lia ZArith List Bool Permutation Sorted.
Import ListNotations.

Set Implicit Arguments.

Local Open Scope R_scope.

(** * The model of the source *)

(** ** Numbers *)

(** A float32 value: a finite number, one of the infinities, or not-a-number. *)
Inductive tfloat : Type :=
| Fin (r : R)
| PInf
| NInf
| NaN.

(** [x == y] on finite entries. *)
Definition Reqb (x y : R) : bool := if Req_dec_T x y then true else false.
Definition Rltb (x y : R) : bool := if Rlt_dec x y then true else false.
Definition Rleb (x y : R) : bool := if Rle_dec x y then true else false.

(** Sign of a finite number as an infinity: the result of [x / 0] for
    [x <> 0] and of [inf * x]. *)
Definition inf_of_sign (x : R) : tfloat :=
  if Rltb 0 x then PInf else if Rltb x 0 then NInf else NaN.

Definition fneg (x : tfloat) : tfloat :=
  match x with
  | Fin r => Fin (- r)
  | PInf => NInf
  | NInf => PInf
  | NaN => NaN
  end.

Definition fadd (x y : tfloat) : tfloat :=
  match x, y with
  | NaN, _ | _, NaN => NaN
  | Fin a, Fin b => Fin (a + b)
  | PInf, NInf | NInf, PInf => NaN
  | PInf, _ | _, PInf => PInf
  | NInf, _ | _, NInf => NInf
  end.

Definition fmul (x y : tfloat) : tfloat :=
  match x, y with
  | NaN, _ | _, NaN => NaN
  | Fin a, Fin b => Fin (a * b)
  | PInf, Fin b | Fin b, PInf => inf_of_sign b
  | NInf, Fin b | Fin b, NInf => fneg (inf_of_sign b)
  | PInf, PInf | NInf, NInf => PInf
  | PInf, NInf | NInf, PInf => NInf
  end.

(** IEEE division: [0 / 0] and [inf / inf] are not-a-number, [x / 0] is an
    infinity of the sign of [x]. *)
Definition fdiv (x y : tfloat) : tfloat :=
  match x, y with
  | NaN, _ | _, NaN => NaN
  | Fin a, Fin b => if Reqb b 0 then inf_of_sign a else Fin (a / b)
  | Fin _, (PInf | NInf) => Fin 0
  | PInf, Fin b => if Rltb b 0 then NInf else PInf
  | NInf, Fin b => if Rltb b 0 then PInf else NInf
  | (PInf | NInf), (PInf | NInf) => NaN
  end.

(** [tf.math.log] of a finite entry. *)
Definition flog (x : R) : tfloat :=
  if Rltb 0 x then Fin (ln x) else if Reqb x 0 then NInf else NaN.

(** [x < y] on float32 values; every comparison with not-a-number is false. *)
Definition fltb (x y : tfloat) : bool :=
  match x, y with
  | NaN, _ | _, NaN => false
  | Fin a, Fin b => Rltb a b
  | NInf, (Fin _ | PInf) => true
  | Fin _, PInf => true
  | _, _ => false
  end.

(** [tf.cast(n, tf.float32)] of a count. *)
Definition cast_float (n : nat) : R := IZR (Z.of_nat n).

(** [tf.reduce_sum] over finite entries and over float32 values. *)
Definition reduce_sum (l : list R) : R := fold_right Rplus 0 l.
Definition freduce_sum (l : list tfloat) : tfloat := fold_right fadd (Fin 0) l.

(** ** The error monad *)

Definition bind {A B : Type} (m : option A) (k : A -> option B) : option B :=
  match m with
  | Some a => k a
  | None => None
  end.

Notation "x <- m ;; k" := (bind m (fun x => k))
  (at level 61, m at next level, right associativity).
Notation "' p <- m ;; k" := (bind m (fun p => k))
  (at level 61, p pattern, m at next level, right associativity).

(** [mapM f l]: apply a fallible function to every element. *)
Fixpoint mapM {A B : Type} (f : A -> option B) (l : list A) : option (list B) :=
  match l with
  | [] => Some []
  | a :: l' => b <- f a ;; bs <- mapM f l' ;; Some (b :: bs)
  end.

(** ** Tensor operations *)

(** [tf.expand_dims(t, axis=-1)] on the innermost axis of a rank-1 and of a
    rank-2 tensor. *)
Definition expand_dims1 {X : Type} (t : list X) : list (list X) :=
  map (fun x => [x]) t.
Definition expand_dims2 {X : Type} (t : list (list X)) : list (list (list X)) :=
  map expand_dims1 t.

(** [tf.where(cond)]: the index rows of the true entries, in row-major order.
    [where_from inner i l] numbers the slices of [l] from [i] on. *)
Fixpoint where_from {X : Type} (inner : X -> list (list nat)) (i : nat)
    (l : list X) : list (list nat) :=
  match l with
  | [] => []
  | x :: l' => map (cons i) (inner x) ++ where_from inner (S i) l'
  end.

Definition where0 (b : bool) : list (list nat) := if b then [[]] else [].
Definition tf_where1 : list bool -> list (list nat) := where_from where0 0.
Definition tf_where2 : list (list bool) -> list (list nat) :=
  where_from tf_where1 0.
Definition tf_where3 : list (list (list bool)) -> list (list nat) :=
  where_from tf_where2 0.

(** [t == v] on integer-valued tensors of rank 1, 2 and 3. *)
Definition equal1 (t : list Z) (v : Z) : list bool := map (fun x => Z.eqb x v) t.
Definition equal2 (t : list (list Z)) (v : Z) : list (list bool) :=
  map (fun r => equal1 r v) t.
Definition equal3 (t : list (list (list Z))) (v : Z) : list (list (list bool)) :=
  map (fun r => equal2 r v) t.

(** [idx[:, :-1]] and [idx[:, 0]] on a tensor of index rows. *)
Definition drop_last_column (idx : list (list nat)) : list (list nat) :=
  map (@removelast nat) idx.
Definition column0 {X : Type} (t : list (list X)) : option (list X) :=
  mapM (fun r => nth_error r 0) t.

(** [tf.gather(t, idx)] along axis 0; an index outside the tensor raises. *)
Definition gather {X : Type} (t : list X) (idx : list nat) : option (list X) :=
  mapM (nth_error t) idx.

(** [tf.gather_nd(t, idx)] with index rows of length 2. *)
Definition gather_nd2 {X : Type} (t : list (list X)) (idx : list (list nat))
    : option (list X) :=
  mapM (fun r =>
          match r with
          | [b; a] => row <- nth_error t b ;; nth_error row a
          | _ => None
          end) idx.

(** Elementwise binary operation on two rows with TensorFlow's broadcasting:
    a row of length 1 is stretched, any other difference of length raises. *)
Definition broadcast2 {X Y W : Type} (f : X -> Y -> W) (l1 : list X) (l2 : list Y)
    : option (list W) :=
  if Nat.eqb (length l1) (length l2) then Some (map (fun p => f (fst p) (snd p)) (combine l1 l2))
  else match l1, l2 with
       | [x], _ => Some (map (f x) l2)
       | _, [y] => Some (map (fun x => f x y) l1)
       | _, _ => None
       end.

(** ** More tensor operations *)

(** [t[:k]] with Python's meaning of a negative bound. *)
Definition slice_to {X : Type} (k : Z) (l : list X) : list X :=
  if (0 <=? k)%Z then firstn (Z.to_nat k) l
  else firstn (length l - Z.to_nat (- k)) l.

(** [tf.gather] with integer-valued indices. *)
Definition index_Z {X : Type} (t : list X) (i : Z) : option X :=
  if (i <? 0)%Z then None else nth_error t (Z.to_nat i).
Definition gather_Z {X : Type} (t : list X) (idx : list Z) : option (list X) :=
  mapM (index_Z t) idx.

(** [tf.reshape(t, [-1, n])] on the flattened entries: rows of [n] entries;
    raises when the entries do not fill whole rows. *)
Fixpoint chunk {X : Type} (fuel n : nat) (flat : list X) : option (list (list X)) :=
  match flat with
  | [] => Some []
  | _ :: _ =>
      match fuel with
      | O => None
      | S fuel' =>
          if Nat.ltb (length flat) n then None
          else rest <- chunk fuel' n (skipn n flat) ;; Some (firstn n flat :: rest)
      end
  end.
Definition reshape_rows {X : Type} (n : nat) (flat : list X) : option (list (list X)) :=
  if Nat.eqb n 0 then None else chunk (length flat) n flat.

(** The order of [tf.argsort(values, direction="DESCENDING")]: [x] ranks
    below [y] when [x < y], and a not-a-number value ranks below every other
    value, so that it comes last; two not-a-number values rank the same. *)
Definition ranks_below (x y : tfloat) : bool :=
  match x, y with
  | _, NaN => false
  | NaN, _ => true
  | _, _ => fltb x y
  end.

(** [tf.argsort(values, direction="DESCENDING")]: the positions of the values
    from the largest to the smallest, the not-a-number values last; values
    of the same rank keep their order.  The sort is an insertion sort on the
    entries paired with their positions. *)
Fixpoint insert_descending {X : Type} (key : X -> tfloat) (x : X) (l : list X) : list X :=
  match l with
  | [] => [x]
  | y :: l' =>
      if ranks_below (key x) (key y) then y :: insert_descending key x l' else x :: l
  end.
Definition sort_descending {X : Type} (key : X -> tfloat) (l : list X) : list X :=
  fold_right (insert_descending key) [] l.
Definition argsort_descending (values : list tfloat) : list nat :=
  map fst (sort_descending snd (combine (seq 0 (length values)) values)).

(** [tf.one_hot(labels, depth)]; a label outside [0, depth) gives a zero row. *)
Definition one_hot_row (depth : nat) (label : Z) : list R :=
  map (fun c => if Z.eqb (Z.of_nat c) label then 1 else 0) (seq 0 depth).
Definition one_hot (depth : nat) (labels : list Z) : list (list R) :=
  map (one_hot_row depth) labels.

(** [tf.nn.softmax_cross_entropy_with_logits(labels, logits)] on one row:
    minus the sum of [labels * log_softmax(logits)]. *)
Definition softmax_xent_row (labels logits : list R) : R :=
  - reduce_sum (map (fun p => fst p * (snd p - ln (reduce_sum (map exp logits))))
                    (combine labels logits)).
Definition softmax_cross_entropy_with_logits (labels logits : list (list R)) : list R :=
  map (fun p => softmax_xent_row (fst p) (snd p)) (combine labels logits).

(** [tf.nn.sigmoid_cross_entropy_with_logits(labels, logits)] on one entry:
    [max(x, 0) - x * z + log(1 + exp(-abs(x)))]. *)
Definition sigmoid_xent (z x : R) : R :=
  Rmax x 0 - x * z + ln (1 + exp (- Rabs x)).

(** Entrywise operation on two tensors whose shapes must agree exactly. *)
Definition zip_exact {X Y W : Type} (f : X -> Y -> option W) (l1 : list X) (l2 : list Y)
    : option (list W) :=
  if Nat.eqb (length l1) (length l2)
  then mapM (fun p => f (fst p) (snd p)) (combine l1 l2)
  else None.
Definition sigmoid_cross_entropy_with_logits2 (labels logits : list (list R))
    : option (list (list R)) :=
  zip_exact (zip_exact (fun z x => Some (sigmoid_xent z x))) labels logits.
Definition sigmoid_cross_entropy_with_logits3 (labels logits : list (list (list R)))
    : option (list (list (list R))) :=
  zip_exact sigmoid_cross_entropy_with_logits2 labels logits.

(** [tf.reduce_sum] over the two, and over all three, axes of a tensor. *)
Definition reduce_sum2 (t : list (list R)) : R := reduce_sum (map reduce_sum t).
Definition reduce_sum3 (t : list (list (list R))) : R := reduce_sum (map reduce_sum2 t).

(** [tf.transpose(t, perm=(2, 0, 1))] and [tf.transpose(t, perm=(1, 2, 0))] of
    a rank-3 tensor; the sizes of the axes are read off the first slices. *)
Definition pick {X : Type} (k : nat) (cells : list (list X)) : list X :=
  flat_map (fun c => match nth_error c k with Some x => [x] | None => [] end) cells.
Definition transpose_201 {X : Type} (t : list (list (list X))) : list (list (list X)) :=
  map (fun k => map (pick k) t) (seq 0 (length (hd [] (hd [] t)))).
Definition transpose_120 {X : Type} (t : list (list (list X))) : list (list (list X)) :=
  map (fun i => map (fun j => pick j (pick i t)) (seq 0 (length (hd [] (hd [] t)))))
      (seq 0 (length (hd [] t))).

(** ** Localization loss *)

(** The elementwise Huber function of [tf.keras.losses.huber]. *)
Definition huber_elem (delta y_true y_pred : R) : R :=
  let error := y_pred - y_true in
  let abs_error := Rabs error in
  if Rleb abs_error delta
  then 1 / 2 * (error * error)
  else 1 / 2 * (delta * delta) + delta * (abs_error - delta).

(** Mean over the entries of a row, [K.mean(row, axis=-1)]. *)
Definition reduce_mean (row : list R) : tfloat :=
  fdiv (Fin (reduce_sum row)) (Fin (cast_float (length row))).

(** [tf.keras.losses.Huber(delta, reduction=NONE)(y_true, y_pred)] on two
    rank-2 tensors with the same number of rows.  A Keras loss reduces the
    last axis itself: [huber] returns the mean over axis -1 of the elementwise
    values, and [reduction=NONE] only leaves the remaining axis unreduced, so
    the result has one entry per row. *)
Definition Huber (delta : R) (y_true y_pred : list (list R)) : option (list tfloat) :=
  if Nat.eqb (length y_true) (length y_pred)
  then mapM (fun p => row <- broadcast2 (huber_elem delta) (fst p) (snd p) ;;
                      Some (reduce_mean row))
            (combine y_true y_pred)
  else None.

(** [YOLACTLoss._loss_location]. *)
Definition _loss_location (pred_offset gt_offset : list (list (list R)))
    (positiveness : list (list Z)) : option tfloat :=
  let positiveness := expand_dims2 positiveness in
  (* get postive indices *)
  let pos_indices := tf_where3 (equal3 positiveness 1) in
  pred_offset <- gather_nd2 pred_offset (drop_last_column pos_indices) ;;
  gt_offset <- gather_nd2 gt_offset (drop_last_column pos_indices) ;;
  (* calculate the smoothL1(positive_pred, positive_gt) and return *)
  let num_pos := length gt_offset in
  smoothl1loss <- Huber 1 gt_offset pred_offset ;;
  Some (fdiv (freduce_sum smoothl1loss) (Fin (cast_float num_pos))).

(** ** Classification loss *)

(** The configuration held by a [YOLACTLoss] object. *)
Record YOLACTLoss : Type := {
  _num_classes : nat;
  _classification_loss_weight : R;
  _box_prediction_loss_weight : R;
  _mask_loss_weight : R;
  _segmentation_loss_weight : R;
  _neg_pos_ratio : Z;
  _max_masks_for_train : Z
}.

(** [YOLACTLoss.__init__] with every argument given. *)
Definition __init__ (num_classes : nat) (classification_loss_weight
    box_prediction_loss_weight mask_loss_weight segmentation_loss_weight : R)
    (neg_pos_ratio max_masks_for_train : Z) : YOLACTLoss :=
  {| _num_classes := num_classes;
     _classification_loss_weight := classification_loss_weight;
     _box_prediction_loss_weight := box_prediction_loss_weight;
     _mask_loss_weight := mask_loss_weight;
     _segmentation_loss_weight := segmentation_loss_weight;
     _neg_pos_ratio := neg_pos_ratio;
     _max_masks_for_train := max_masks_for_train |}.

(** [YOLACTLoss(num_classes)]: the default values of the keyword arguments. *)
Definition __init__default (num_classes : nat) : YOLACTLoss :=
  __init__ num_classes 1 (3 / 2) (49 / 8) 1 3 100.

(** Lines 91 to 101 of [_loss_class]: the positions, among the negative
    anchors, of the ones kept for the loss. *)
Definition neg_indices_for_loss (neg_pred_cls : list (list R)) (num_neg_needed : Z)
    : option (list nat) :=
  (* apply softmax on the pred_cls *)
  let neg_softmax := neg_pred_cls in
  (* -log(softmax class 0) *)
  class0 <- column0 neg_softmax ;;
  let neg_minus_log_class0 := map (fun x => fmul (Fin (-1)) (flog x)) class0 in
  (* sort of -log(softmax class 0) *)
  let neg_minus_log_class0_sort := argsort_descending neg_minus_log_class0 in
  (* take the first num_neg_needed idx in sort result *)
  Some (slice_to num_neg_needed neg_minus_log_class0_sort).

(** [YOLACTLoss._loss_class].  [tf.squeeze] of the label column is its
    flattening; for a single label it gives a scalar, whose one-hot row
    broadcasts against the single row of logits to the same value. *)
Definition _loss_class (self : YOLACTLoss) (pred_cls : list (list (list R)))
    (gt_cls positiveness : list (list Z)) : option tfloat :=
  pred_cls <- reshape_rows (_num_classes self) (concat (concat pred_cls)) ;;
  let gt_cls := expand_dims2 gt_cls in
  gt_cls <- reshape_rows 1 (concat (concat gt_cls)) ;;
  let positiveness := expand_dims2 positiveness in
  positiveness <- reshape_rows 1 (concat (concat positiveness)) ;;
  let pos_indices := tf_where2 (equal2 positiveness 1) in
  let neg_indices := tf_where2 (equal2 positiveness 0) in
  (* gather pos data, neg data separately *)
  pos_rows <- column0 pos_indices ;;
  pos_pred_cls <- gather pred_cls pos_rows ;;
  pos_gt <- gather gt_cls pos_rows ;;
  (* calculate the needed amount of negative sample *)
  let num_pos := length pos_gt in
  let num_neg_needed := (Z.of_nat num_pos * _neg_pos_ratio self)%Z in
  neg_rows <- column0 neg_indices ;;
  neg_pred_cls <- gather pred_cls neg_rows ;;
  neg_gt <- gather gt_cls neg_rows ;;
  neg_indices_for_loss <- neg_indices_for_loss neg_pred_cls num_neg_needed ;;
  (* combine the indices of pos and neg sample, create the label for them *)
  neg_pred_cls_for_loss <- gather neg_pred_cls neg_indices_for_loss ;;
  neg_gt_for_loss <- gather neg_gt neg_indices_for_loss ;;
  (* concat positive and negtive data *)
  let target_logits := pos_pred_cls ++ neg_pred_cls_for_loss in
  let target_labels := pos_gt ++ neg_gt_for_loss in
  let target_labels := one_hot (_num_classes self) (concat target_labels) in
  (* loss *)
  Some (fdiv (Fin (reduce_sum (softmax_cross_entropy_with_logits target_labels target_logits)))
             (Fin (cast_float num_pos))).

(** ** Mask loss *)

(** The result of [tf.squeeze] on a column of [n] entries: a scalar when
    [n = 1], a vector otherwise. *)
Inductive squeezed (X : Type) : Type :=
| Scalar (x : X)
| Vector (l : list X).
Arguments Scalar {X} x.
Arguments Vector {X} l.

Definition squeeze_column {X : Type} (t : list (list X)) : option (squeezed X) :=
  c <- column0 t ;;
  match c with
  | [x] => Some (Scalar x)
  | _ => Some (Vector c)
  end.

(** [tf.size] of a squeezed column. *)
Definition size_squeezed {X : Type} (t : squeezed X) : nat :=
  match t with
  | Scalar _ => 1
  | Vector l => length l
  end.

(** [tf.gather(t, idx)] with a scalar or a vector of indices. *)
Definition gather_squeezed {X : Type} (t : list X) (idx : squeezed nat)
    : option (squeezed X) :=
  match idx with
  | Scalar i => x <- nth_error t i ;; Some (Scalar x)
  | Vector l => r <- gather t l ;; Some (Vector r)
  end.

(** The branch [if tf.size(pos_indices) == 1: t = tf.expand_dims(t, axis=0)]:
    a gathered scalar slice becomes a vector of one slice.  A vector of size 1
    does not come out of [squeeze_column]; expanding it would give a tensor
    of one more axis, which the product below rejects. *)
Definition expand_if_single {X : Type} (size : nat) (t : squeezed X) : option (list X) :=
  match t with
  | Scalar x => if Nat.eqb size 1 then Some [x] else None
  | Vector l => if Nat.eqb size 1 then None else Some l
  end.

(** Inner product of two rows; rows of different lengths raise. *)
Definition dot (u v : list R) : option R :=
  if Nat.eqb (length u) (length v)
  then Some (reduce_sum (map (fun p => fst p * snd p) (combine u v)))
  else None.

(** [tf.linalg.matmul(a, b, transpose_b=True)] for [a] of rank 3 and [b] of
    rank 2: entry [(i, j, n)] is the inner product of [a[i][j]] and [b[n]]. *)
Definition matmul_transpose_b (a : list (list (list R))) (b : list (list R))
    : option (list (list (list R))) :=
  mapM (mapM (fun cell => mapM (dot cell) b)) a.

(** [t[:, -1] * t[:, -2]] on a rank-2 tensor. *)
Definition last_two_product (t : list (list R)) : option (list R) :=
  mapM (fun r => x <- nth_error (rev r) 0 ;; y <- nth_error (rev r) 1 ;; Some (x * y)) t.

Section Utils.

(** The module [utils] is not part of the sources; its two functions used
    by the mask loss are described by the specification only. *)

(** [toCenterForm(box_corner)] of the specification: the centre form
    [(cx, cy, w, h)] of one box given by its corners. *)
Variable center_form : list R -> list R.

(** Whether pixel [(i, j)] of a map of [h] rows and [w] columns lies inside
    a box; the specification leaves the rounding at the border open. *)
Variable inside_box : list R -> nat -> nat -> nat -> nat -> bool.

(** Modelled from the spec: [utils.map_to_center_form] is missing; it
    converts every box of a [n, 4] tensor to centre form. *)
Definition map_to_center_form (boxes : list (list R)) : list (list R) :=
  map center_form boxes.

(** Modelled from the spec: [utils.crop] is missing; [cropToBox] returns the
    loss map with zeros outside the box, one map and one box per anchor. *)
Definition crop_one (s : list (list R)) (box : list R) : list (list R) :=
  let h := length s in
  map (fun ir =>
         let w := length (snd ir) in
         map (fun jx => if inside_box box h w (fst ir) (fst jx) then snd jx else 0)
             (combine (seq 0 w) (snd ir)))
      (combine (seq 0 h) s).
Definition crop (s : list (list (list R))) (boxes : list (list R))
    : list (list (list R)) :=
  map (fun p => crop_one (fst p) (snd p)) (combine s boxes).

(** The body of the loop of [_loss_mask] for one image: the sum of the
    losses of its positive anchors and their number. *)
Definition loss_mask_image (proto : list (list (list R))) (mask_coef : list (list R))
    (mask_gt : list (list (list R))) (bbox_norm : list (list R)) (pos max_id : list Z)
    : option (tfloat * nat) :=
  pos_indices <- squeeze_column (tf_where1 (equal1 pos 1)) ;;
  (* TODO: Limit number of positive to be less than max_masks_for_train *)
  pos_mask_coef <- gather_squeezed mask_coef pos_indices ;;
  pos_max_id <- gather_squeezed max_id pos_indices ;;
  pos_mask_coef <- expand_if_single (size_squeezed pos_indices) pos_mask_coef ;;
  pos_max_id <- expand_if_single (size_squeezed pos_indices) pos_max_id ;;
  pred_mask <- matmul_transpose_b proto pos_mask_coef ;;
  let pred_mask := transpose_201 pred_mask in
  (* calculating loss for each mask coef correspond to each postitive anchor *)
  gt <- gather_Z mask_gt pos_max_id ;;
  bbox <- gather_Z bbox_norm pos_max_id ;;
  let bbox_center := map_to_center_form bbox in
  area <- last_two_product bbox_center ;;
  (* crop the pred (not real crop, zero out the area outside the gt box) *)
  s <- sigmoid_cross_entropy_with_logits3 gt pred_mask ;;
  let s := crop s bbox in
  loss <- broadcast2 (fun x a => fdiv (Fin x) (Fin a)) (map reduce_sum2 s) area ;;
  Some (freduce_sum loss, size_squeezed pos_indices).

(** [YOLACTLoss._loss_mask]: the loop over the images threads the two
    accumulators [loss_mask] and [total_pos]. *)
Definition _loss_mask (protonet_output : list (list (list (list R))))
    (pred_mask_coef : list (list (list R))) (gt_bbox_norm : list (list (list R)))
    (gt_masks : list (list (list (list R)))) (positiveness max_id_for_anchors : list (list Z))
    (max_masks_for_train : Z) : option tfloat :=
  let batch_size := length protonet_output in
  '(loss_mask, total_pos) <-
    fold_left
      (fun state idx =>
         '(loss_mask, total_pos) <- state ;;
         proto <- nth_error protonet_output idx ;;
         mask_coef <- nth_error pred_mask_coef idx ;;
         mask_gt <- nth_error gt_masks idx ;;
         bbox_norm <- nth_error gt_bbox_norm idx ;;
         pos <- nth_error positiveness idx ;;
         max_id <- nth_error max_id_for_anchors idx ;;
         '(loss, size) <- loss_mask_image proto mask_coef mask_gt bbox_norm pos max_id ;;
         Some (fadd loss_mask loss, (total_pos + size)%nat))
      (seq 0 batch_size) (Some (Fin 0, 0%nat)) ;;
  Some (fdiv loss_mask (Fin (cast_float total_pos))).

End Utils.

(** ** Segmentation loss *)

(** [tf.image.resize(images, [out_h, out_w], method=BILINEAR)] in exact
    arithmetic.  TensorFlow 2 samples with half-pixel centres and without
    antialiasing: output index [i] of an axis resized from [in_size] to
    [out_size] reads the input at [(i + 1/2) * in_size / out_size - 1/2],
    between the entries [lower] and [upper] with weight [lerp]. *)
Definition resize_axis (in_size out_size i : nat) : nat * nat * R :=
  let num := ((2 * Z.of_nat i + 1) * Z.of_nat in_size - Z.of_nat out_size)%Z in
  let den := (2 * Z.of_nat out_size)%Z in
  let in_floor := (num / den)%Z in
  let in_ceil := if (num mod den =? 0)%Z then in_floor else (in_floor + 1)%Z in
  (Z.to_nat (Z.max in_floor 0),
   Z.to_nat (Z.min in_ceil (Z.of_nat in_size - 1)),
   IZR (num mod den) / IZR den).

(** Linear interpolation between two cells, channel by channel. *)
Definition lerp_cell (a b : list R) (t : R) : list R :=
  map (fun p => fst p + (snd p - fst p) * t) (combine a b).

Definition resize_image (out_h out_w : nat) (image : list (list (list R)))
    : list (list (list R)) :=
  let in_h := length image in
  let in_w := length (hd [] image) in
  let at_ (y x : nat) := nth x (nth y image []) [] in
  map (fun y =>
         let '(y_lower, y_upper, y_lerp) := resize_axis in_h out_h y in
         map (fun x =>
                let '(x_lower, x_upper, x_lerp) := resize_axis in_w out_w x in
                let top := lerp_cell (at_ y_lower x_lower) (at_ y_lower x_upper) x_lerp in
                let bottom := lerp_cell (at_ y_upper x_lower) (at_ y_upper x_upper) x_lerp in
                lerp_cell top bottom y_lerp)
             (seq 0 out_w))
      (seq 0 out_h).

(** The batched resize; an empty image or an empty output size raises. *)
Definition resize_bilinear (out_h out_w : nat) (images : list (list (list (list R))))
    : option (list (list (list (list R)))) :=
  if Nat.eqb out_h 0 || Nat.eqb out_w 0 then None
  else mapM (fun image =>
               if Nat.eqb (length image) 0 || Nat.eqb (length (hd [] image)) 0 then None
               else Some (resize_image out_h out_w image))
            images.

(** [tf.cast(x, tf.int64)]: truncation towards zero. *)
Definition cast_int64 (x : R) : Z :=
  if Rleb 0 x then Int_part x else (- Int_part (- x))%Z.

(** [tf.expand_dims(masks, axis=-1)] on a rank-3 tensor. *)
Definition expand_dims3 {X : Type} (t : list (list (list X))) : list (list (list (list X))) :=
  map expand_dims2 t.

(** [tf.squeeze] of the resized masks, of shape [(m, s, s, 1)].  The last
    axis is removed.  When [m = 1] or [s = 1] those axes are removed as well
    and the result is not a tensor of rank 3: the scatter of the loop below
    rejects its slices as updates, whatever the number of objects; this is
    the [None] of this function. *)
Definition squeeze_masks {X : Type} (s : nat) (t : list (list (list (list X))))
    : option (list (list (list X))) :=
  if Nat.eqb (length t) 1 || Nat.eqb s 1 then None
  else Some (map (map (@concat X)) t).

(** Two rank-2 tensors have the same shape. *)
Definition same_shape2 {X : Type} (a b : list (list X)) : bool :=
  Nat.eqb (length a) (length b)
  && forallb (fun p => Nat.eqb (length (fst p)) (length (snd p))) (combine a b).

Fixpoint replace_nth {X : Type} (n : nat) (x : X) (l : list X) : list X :=
  match l, n with
  | [], _ => []
  | _ :: l', O => x :: l'
  | y :: l', S n' => y :: replace_nth n' x l'
  end.

(** [tf.tensor_scatter_nd_update(tensor, indices, updates)] with index rows
    of length 1: slice [indices[k]] of the tensor is replaced by
    [updates[k]], for [k] in increasing order.  An index outside the tensor
    and an update of another shape than the slices raise.  TensorFlow
    compares the shape of the slices of [updates] with the shape of the
    slices of [tensor] before it updates anything, also when there is
    nothing to update; a nested list does not keep the shape of the slices of
    an empty tensor, so the two shapes, rows and columns, are arguments. *)
Definition tensor_scatter_nd_update {X : Type} (slice_shape update_shape : nat * nat)
    (tensor : list (list (list X))) (indices : list (list Z))
    (updates : list (list (list X))) : option (list (list (list X))) :=
  if Nat.eqb (fst slice_shape) (fst update_shape)
     && Nat.eqb (snd slice_shape) (snd update_shape)
     && Nat.eqb (length indices) (length updates)
  then fold_left
         (fun acc p =>
            t <- acc ;;
            match fst p with
            | [c] =>
                old <- index_Z t c ;;
                if same_shape2 old (snd p) then Some (replace_nth (Z.to_nat c) (snd p) t)
                else None
            | _ => None
            end)
         (combine indices updates) (Some tensor)
  else None.

Definition zeros_like (t : list (list (list R))) : list (list (list R)) :=
  map (map (map (fun _ => 0))) t.

(** Lines 177 to 190 of [_loss_semantic_segmentation]: the target map of one
    image. *)
Definition seg_gt_image (seg_shape : nat) (seg : list (list (list R)))
    (masks : list (list (list R))) (cls : list Z) (objects : Z)
    : option (list (list (list R))) :=
  (* resize masks from (100, 138, 138) to (100, 69, 69) *)
  let masks := expand_dims3 masks in
  masks <- resize_bilinear seg_shape seg_shape masks ;;
  let masks := map (map (map (map (fun x => cast_int64 (x + 1 / 2))))) masks in
  masks <- squeeze_masks seg_shape (map (map (map (map IZR))) masks) ;;
  let obj_mask := slice_to objects masks in
  let obj_cls := expand_dims1 (slice_to objects cls) in
  (* create empty ground truth (138, 138, num_cls) *)
  let seg_gt := zeros_like seg in
  let seg_gt := transpose_201 seg_gt in
  seg_gt <- tensor_scatter_nd_update (length seg, length (hd [] seg))
                                     (seg_shape, seg_shape) seg_gt obj_cls obj_mask ;;
  Some (transpose_120 seg_gt).

(** [YOLACTLoss._loss_semantic_segmentation]; the loop threads the
    accumulator [loss_seg]. *)
Definition _loss_semantic_segmentation (pred_seg : list (list (list (list R))))
    (mask_gt : list (list (list (list R)))) (classes : list (list Z)) (num_obj : list Z)
    : option tfloat :=
  let num_batch := length mask_gt in
  let seg_shape := length (hd [] pred_seg) in
  loss_seg <-
    fold_left
      (fun state idx =>
         loss_seg <- state ;;
         seg <- nth_error pred_seg idx ;;
         masks <- nth_error mask_gt idx ;;
         cls <- nth_error classes idx ;;
         objects <- nth_error num_obj idx ;;
         seg_gt <- seg_gt_image seg_shape seg masks cls objects ;;
         s <- sigmoid_cross_entropy_with_logits3 seg_gt seg ;;
         Some (loss_seg + reduce_sum3 s))
      (seq 0 num_batch) (Some 0) ;;
  Some (fdiv (fdiv (Fin loss_seg) (Fin (cast_float seg_shape ^ 2)))
             (Fin (cast_float num_batch))).

(** ** The aggregator *)

(** The dictionaries [y_pred] and [y_true]. *)
Record predictions : Type := {
  pred_cls : list (list (list R));
  pred_offset : list (list (list R));
  pred_mask_coef : list (list (list R));
  proto_out : list (list (list (list R)));
  seg : list (list (list (list R)))
}.

Record labels : Type := {
  cls_targets : list (list Z);
  box_targets : list (list (list R));
  positiveness : list (list Z);
  bbox_for_norm : list (list (list R));
  mask_target : list (list (list (list R)));
  max_id_for_anchors : list (list Z);
  classes : list (list Z);
  num_obj : list Z
}.

Section Call.

Variable center_form : list R -> list R.
Variable inside_box : list R -> nat -> nat -> nat -> nat -> bool.

(** [YOLACTLoss.__call__]. *)
Definition __call__ (self : YOLACTLoss) (y_true : labels) (y_pred : predictions)
    : option (tfloat * tfloat * tfloat * tfloat * tfloat) :=
  loc_loss <- _loss_location (pred_offset y_pred) (box_targets y_true)
                             (positiveness y_true) ;;
  conf_loss <- _loss_class self (pred_cls y_pred) (cls_targets y_true)
                           (positiveness y_true) ;;
  mask_loss <- _loss_mask center_form inside_box (proto_out y_pred)
                          (pred_mask_coef y_pred) (bbox_for_norm y_true)
                          (mask_target y_true) (positiveness y_true)
                          (max_id_for_anchors y_true) (_max_masks_for_train self) ;;
  seg_loss <- _loss_semantic_segmentation (seg y_pred) (mask_target y_true)
                                          (classes y_true) (num_obj y_true) ;;
  let total_loss :=
    fadd (fadd (fadd (fmul (Fin (_box_prediction_loss_weight self)) loc_loss)
                     (fmul (Fin (_classification_loss_weight self)) conf_loss))
               (fmul (Fin (_mask_loss_weight self)) mask_loss))
         (fmul (Fin (_segmentation_loss_weight self)) seg_loss) in
  Some (loc_loss, conf_loss, mask_loss, seg_loss, total_loss).

End Call.

(** * Reference forms and side conditions of the statements *)

(** ** Reference forms for the localization loss *)

(** The entries of [xs] at the positions where [bs] is true. *)
Definition select {X : Type} (bs : list bool) (xs : list X) : list X :=
  map snd (filter (fun p => fst p) (combine bs xs)).

(** The rows of a per-anchor tensor [t] that belong to the anchors whose
    positiveness equals [v], image after image. *)
Definition anchors_with {X : Type} (v : Z) (pos : list (list Z)) (t : list (list X))
    : list X :=
  concat (map (fun p => select (equal1 (fst p) v) (snd p)) (combine pos t)).

(** Number of anchors of the batch whose positiveness equals [v]. *)
Definition count_anchors (v : Z) (pos : list (list Z)) : nat :=
  length (filter (fun x => Z.eqb x v) (concat pos)).

(** Every row of a rank-2 tensor has [n] entries. *)
Definition rows_of_length {X : Type} (n : nat) (t : list (list X)) : bool :=
  forallb (fun r => Nat.eqb (length r) n) t.

(** Smooth-L1 of one anchor, summed over its coordinates. *)
Definition smooth_l1_sum (gt pred : list R) : R :=
  reduce_sum (map (fun p => huber_elem 1 (fst p) (snd p)) (combine gt pred)).

(** The localization loss in the words of the specification, with the
    per-anchor sum over the 4 coordinates replaced by their mean: smooth-L1
    between the offsets of the positive anchors, averaged over the 4
    coordinates, summed over the positive anchors and divided by their
    number. *)
Definition loc_loss_reference (pred_offset gt_offset : list (list (list R)))
    (positiveness : list (list Z)) : R :=
  reduce_sum (map (fun p => smooth_l1_sum (fst p) (snd p) / 4)
                  (combine (anchors_with 1 positiveness gt_offset)
                           (anchors_with 1 positiveness pred_offset)))
  / cast_float (count_anchors 1 positiveness).

(** The localization loss as the specification words it, and as lines 62 and
    63 set out to compute it ([reduction=NONE], then [tf.reduce_sum]):
    smooth-L1 between the offsets of the positive anchors, summed over the 4
    coordinates and over the positive anchors, divided by the number of
    positive anchors. *)
Definition loc_loss_coordinate_sum (pred_offset gt_offset : list (list (list R)))
    (positiveness : list (list Z)) : R :=
  reduce_sum (map (fun p => smooth_l1_sum (fst p) (snd p))
                  (combine (anchors_with 1 positiveness gt_offset)
                           (anchors_with 1 positiveness pred_offset)))
  / cast_float (count_anchors 1 positiveness).

(** ** Reference forms for the classification loss *)

(** The score by which [_loss_class] ranks a negative anchor: minus the
    logarithm of the class-0 entry of its row of [pred_cls]. *)
Definition neg_score (logits : list R) : tfloat :=
  fmul (Fin (-1)) (flog (nth 0 logits 0)).

(** Cross-entropy of one anchor, given as its label and its logits. *)
Definition xent_anchor (depth : nat) (a : Z * list R) : R :=
  softmax_xent_row (one_hot_row depth (fst a)) (snd a).

(** The anchors of the flattened batch, as pairs of label and logits, whose
    positiveness equals [v]. *)
Definition class_anchors (v : Z) (pred_cls : list (list (list R)))
    (gt_cls positiveness : list (list Z)) : list (Z * list R) :=
  select (equal1 (concat positiveness) v) (combine (concat gt_cls) (concat pred_cls)).

(** The negative anchors kept by the hard-negative mining of the code. *)
Definition mined_negatives (self : YOLACTLoss) (pred_cls : list (list (list R)))
    (gt_cls positiveness : list (list Z)) : list (Z * list R) :=
  slice_to (Z.of_nat (length (class_anchors 1 pred_cls gt_cls positiveness))
            * _neg_pos_ratio self)
           (sort_descending (fun a => neg_score (snd a))
                            (class_anchors 0 pred_cls gt_cls positiveness)).

(** The classification loss as a sum over the positive and the mined
    negative anchors, divided by the number of positive anchors. *)
Definition class_loss_reference (self : YOLACTLoss) (pred_cls : list (list (list R)))
    (gt_cls positiveness : list (list Z)) : tfloat :=
  fdiv (Fin (reduce_sum (map (xent_anchor (_num_classes self))
                             (class_anchors 1 pred_cls gt_cls positiveness
                              ++ mined_negatives self pred_cls gt_cls positiveness))))
       (Fin (cast_float (length (class_anchors 1 pred_cls gt_cls positiveness)))).

(** ** Reference forms for the mask loss *)

(** The data of one image of the batch, as [_loss_mask] reads them:
    prototypes, coefficients, masks, boxes, positiveness, object indices. *)
Abbreviation mask_image :=
  (list (list (list R)) * (list (list R) * (list (list (list R))
   * (list (list R) * (list Z * list Z)))))%type.

Section MaskReference.

Variable center_form : list R -> list R.
Variable inside_box : list R -> nat -> nat -> nat -> nat -> bool.

(** The positive anchors of one image, as pairs of mask coefficients and
    matched object index. *)
Definition mask_anchors (mask_coef : list (list R)) (pos max_id : list Z)
    : list (list R * Z) :=
  select (equal1 pos 1) (combine mask_coef max_id).

(** The mask loss of one positive anchor: the cross-entropy between the
    mask of its object and the combination of the prototypes by its
    coefficients, cropped to the box of the object, summed, and divided by
    the area of the box. *)
Definition anchor_mask_loss (proto : list (list (list R)))
    (mask_gt : list (list (list R))) (bbox_norm : list (list R)) (a : list R * Z)
    : tfloat :=
  let pred := map (map (fun cell => reduce_sum (map (fun p => fst p * snd p)
                                                    (combine cell (fst a))))) proto in
  let gt := nth (Z.to_nat (snd a)) mask_gt [] in
  let box := nth (Z.to_nat (snd a)) bbox_norm [] in
  let s := map (fun r => map (fun q => sigmoid_xent (fst q) (snd q))
                             (combine (fst r) (snd r)))
               (combine gt pred) in
  let c := rev (center_form box) in
  fdiv (Fin (reduce_sum2 (crop_one inside_box s box))) (Fin (nth 0 c 0 * nth 1 c 0)).

Definition mask_images (protonet_output : list (list (list (list R))))
    (pred_mask_coef : list (list (list R))) (gt_bbox_norm : list (list (list R)))
    (gt_masks : list (list (list (list R)))) (positiveness max_id_for_anchors : list (list Z))
    : list mask_image :=
  combine protonet_output (combine pred_mask_coef (combine gt_masks
    (combine gt_bbox_norm (combine positiveness max_id_for_anchors)))).

Definition image_mask_losses (im : mask_image) : list tfloat :=
  let '(proto, (mask_coef, (mask_gt, (bbox_norm, (pos, max_id))))) := im in
  map (anchor_mask_loss proto mask_gt bbox_norm) (mask_anchors mask_coef pos max_id).

(** The mask loss as a sum over the positive anchors of all images, divided
    by their number. *)
Definition mask_loss_reference (protonet_output : list (list (list (list R))))
    (pred_mask_coef : list (list (list R))) (gt_bbox_norm : list (list (list R)))
    (gt_masks : list (list (list (list R)))) (positiveness max_id_for_anchors : list (list Z))
    : tfloat :=
  let losses := concat (map image_mask_losses
                  (mask_images protonet_output pred_mask_coef gt_bbox_norm gt_masks
                               positiveness max_id_for_anchors)) in
  fdiv (freduce_sum losses) (Fin (cast_float (length losses))).

(** Shapes and indices of the data of one image that the mask loss needs:
    the prototypes are a [h, w, k] tensor without empty axis, there is one
    row of [k] coefficients and one object index per anchor, every mask is
    [h, w], every box has a centre form of at least two entries, and the
    object index of every positive anchor names a mask and a box. *)
Definition mask_image_ok (im : mask_image) : bool :=
  let '(proto, (mask_coef, (mask_gt, (bbox_norm, (pos, max_id))))) := im in
  let h := length proto in
  let w := length (hd [] proto) in
  let k := length (hd [] (hd [] proto)) in
  Nat.leb 1 h && Nat.leb 1 w && rows_of_length w proto
  && forallb (rows_of_length k) proto
  && Nat.eqb (length mask_coef) (length pos) && Nat.eqb (length max_id) (length pos)
  && rows_of_length k mask_coef
  && forallb (fun m => Nat.eqb (length m) h && rows_of_length w m) mask_gt
  && Nat.eqb (length bbox_norm) (length mask_gt)
  && forallb (fun b => Nat.leb 2 (length (center_form b))) bbox_norm
  && forallb (fun pm => negb (Z.eqb (fst pm) 1)
                        || (Z.leb 0 (snd pm) && Z.ltb (snd pm) (Z.of_nat (length mask_gt))))
             (combine pos max_id).

(** The six tensors have one slice per image, and every image is
    well-shaped. *)
Definition mask_batch_ok (protonet_output : list (list (list (list R))))
    (pred_mask_coef : list (list (list R))) (gt_bbox_norm : list (list (list R)))
    (gt_masks : list (list (list (list R)))) (positiveness max_id_for_anchors : list (list Z))
    : bool :=
  let b := length protonet_output in
  Nat.eqb (length pred_mask_coef) b && Nat.eqb (length gt_bbox_norm) b
  && Nat.eqb (length gt_masks) b && Nat.eqb (length positiveness) b
  && Nat.eqb (length max_id_for_anchors) b
  && forallb mask_image_ok
       (mask_images protonet_output pred_mask_coef gt_bbox_norm gt_masks
                    positiveness max_id_for_anchors).

(** One turn of the loop of [_loss_mask] on the data of an image. *)
Definition mask_step (state : tfloat * nat) (im : mask_image) : option (tfloat * nat) :=
  let '(proto, (mask_coef, (mask_gt, (bbox_norm, (pos, max_id))))) := im in
  '(loss, size) <- loss_mask_image center_form inside_box proto mask_coef mask_gt
                                   bbox_norm pos max_id ;;
  Some (fadd (fst state) loss, (snd state + size)%nat).

End MaskReference.

(** The scalar or vector that [tf.squeeze] makes of a list of positions. *)
Definition squeezed_of {X : Type} (l : list X) : squeezed X :=
  match l with
  | [x] => Scalar x
  | _ => Vector l
  end.


(** The inner product of two rows of the same length. *)
Definition dot_total (u v : list R) : R :=
  reduce_sum (map (fun p => fst p * snd p) (combine u v)).

(** ** Reference forms for the segmentation loss *)

(** The mask of one object at the resolution [s] of the segmentation map:
    resized bilinearly, then rounded to the nearest of 0 and 1 by
    [cast(x + 0.5, int64)]. *)
Definition resized_mask (s : nat) (m : list (list R)) : list (list R) :=
  map (@concat R)
      (map (map (map IZR))
           (map (map (map (fun x => cast_int64 (x + 1 / 2))))
                (resize_image s s (expand_dims2 m)))).

(** The position of the last entry of [l] equal to [c], counting from [i]. *)
Fixpoint last_index_from (c : Z) (i : nat) (l : list Z) : option nat :=
  match l with
  | [] => None
  | x :: l' =>
      match last_index_from c (S i) l' with
      | Some k => Some k
      | None => if Z.eqb x c then Some i else None
      end
  end.

(** The target map of one image in the words of the specification: entry
    [(i, j, c)] is that of the resized mask of the last of the first
    [objects] objects whose class is [c], and zero when there is none. *)
Definition seg_target_reference (s depth : nat) (masks : list (list (list R)))
    (cls : list Z) (objects : Z) : list (list (list R)) :=
  map (fun i =>
         map (fun j =>
                map (fun c =>
                       match last_index_from (Z.of_nat c) 0 (slice_to objects cls) with
                       | Some k => nth j (nth i (resized_mask s (nth k masks [])) []) 0
                       | None => 0
                       end)
                    (seq 0 depth))
             (seq 0 s))
      (seq 0 s).

(** Sum over all pixels and classes of the sigmoid cross-entropy between a
    map of logits and a target map of the same shape. *)
Definition bce_sum (target logits : list (list (list R))) : R :=
  reduce_sum3
    (map (fun p =>
            map (fun r => map (fun q => sigmoid_xent (fst q) (snd q))
                              (combine (fst r) (snd r)))
                (combine (fst p) (snd p)))
         (combine target logits)).

(** The data of one image, as [_loss_semantic_segmentation] reads them:
    logits, masks, classes and number of objects. *)
Abbreviation seg_image :=
  (list (list (list R)) * (list (list (list R)) * (list Z * Z)))%type.

Definition seg_images (pred_seg : list (list (list (list R))))
    (mask_gt : list (list (list (list R)))) (classes : list (list Z)) (num_obj : list Z)
    : list seg_image :=
  combine pred_seg (combine mask_gt (combine classes num_obj)).

(** Shapes and indices of the data of one image that the segmentation loss
    needs, for the resolution [s]: the logits are a [s, s, depth] tensor with
    [s >= 2] and [depth >= 1]; there are no or at least two masks, each a
    rectangle without empty axis, and one class per mask; the number of
    objects is not negative and the classes of the first [objects] objects
    are in [0, depth). *)
Definition seg_image_ok (s : nat) (im : seg_image) : bool :=
  let '(seg, (masks, (cls, objects))) := im in
  let depth := length (hd [] (hd [] seg)) in
  Nat.leb 2 s && Nat.eqb (length seg) s && rows_of_length s seg
  && Nat.leb 1 depth && forallb (rows_of_length depth) seg
  && negb (Nat.eqb (length masks) 1)
  && forallb (fun m => Nat.leb 1 (length m) && Nat.leb 1 (length (hd [] m))
                       && rows_of_length (length (hd [] m)) m) masks
  && Nat.eqb (length cls) (length masks)
  && Z.leb 0 objects
  && forallb (fun c => Z.leb 0 c && Z.ltb c (Z.of_nat depth)) (slice_to objects cls).

(** The four tensors have one slice per image, the batch is not empty, and
    every image is well-shaped for the resolution read off the first map of
    logits. *)
Definition seg_batch_ok (pred_seg : list (list (list (list R))))
    (mask_gt : list (list (list (list R)))) (classes : list (list Z)) (num_obj : list Z)
    : bool :=
  let b := length mask_gt in
  Nat.leb 1 b && Nat.eqb (length pred_seg) b && Nat.eqb (length classes) b
  && Nat.eqb (length num_obj) b
  && forallb (seg_image_ok (length (hd [] pred_seg)))
             (seg_images pred_seg mask_gt classes num_obj).

(** One turn of the loop of [_loss_semantic_segmentation]. *)
Definition seg_step (seg_shape : nat) (loss_seg : R) (im : seg_image) : option R :=
  let '(seg, (masks, (cls, objects))) := im in
  seg_gt <- seg_gt_image seg_shape seg masks cls objects ;;
  s <- sigmoid_cross_entropy_with_logits3 seg_gt seg ;;
  Some (loss_seg + reduce_sum3 s).

(** The target map and the summed cross-entropy of one image. *)
Definition seg_image_target (s : nat) (im : seg_image) : list (list (list R)) :=
  let '(seg, (masks, (cls, objects))) := im in
  seg_target_reference s (length (hd [] (hd [] seg))) masks cls objects.
Definition seg_image_loss (s : nat) (im : seg_image) : R :=
  bce_sum (seg_image_target s im) (fst im).

(** The value of the bilinear resize of a rank-2 image at output pixel
    [(y, x)]. *)
Definition bilinear_value (out_h out_w : nat) (image : list (list R)) (y x : nat) : R :=
  let at_ (y x : nat) := nth x (nth y image []) 0 in
  let '(y_lower, y_upper, y_lerp) := resize_axis (length image) out_h y in
  let '(x_lower, x_upper, x_lerp) := resize_axis (length (hd [] image)) out_w x in
  let top := at_ y_lower x_lower + (at_ y_lower x_upper - at_ y_lower x_lower) * x_lerp in
  let bottom := at_ y_upper x_lower + (at_ y_upper x_upper - at_ y_upper x_lower) * x_lerp in
  top + (bottom - top) * y_lerp.

(** A rank-2 tensor of [h] rows and [w] columns. *)
Definition has_shape2 {X : Type} (h w : nat) (m : list (list X)) : Prop :=
  length m = h /\ rows_of_length w m = true.

(** ** Non-negative losses *)

(** A loss that was returned and is a non-negative number. *)
Definition nonneg_loss (x : option tfloat) : Prop :=
  exists r, x = Some (Fin r) /\ 0 <= r.

(** Every entry of a mask is 0 or 1. *)
Definition binary_mask (m : list (list R)) : Prop :=
  Forall (Forall (fun x => x = 0 \/ x = 1)) m.

(** The area by which the mask loss of an anchor matched to object [i] is
    divided: the product of the last two entries of the centre form of the
    box of the object. *)
Definition box_area (center_form : list R -> list R) (bbox_norm : list (list R)) (i : Z)
    : R :=
  let c := rev (center_form (nth (Z.to_nat i) bbox_norm [])) in
  nth 0 c 0 * nth 1 c 0.

(** The boxes matched to the positive anchors of every image have a positive
    area. *)
Definition positive_areas (center_form : list R -> list R)
    (protonet_output : list (list (list (list R))))
    (pred_mask_coef : list (list (list R))) (gt_bbox_norm : list (list (list R)))
    (gt_masks : list (list (list (list R)))) (positiveness max_id_for_anchors : list (list Z))
    : Prop :=
  Forall (fun im : mask_image =>
            let '(proto, (mask_coef, (mask_gt, (bbox_norm, (pos, max_id))))) := im in
            Forall (fun a => 0 < box_area center_form bbox_norm (snd a))
                   (mask_anchors mask_coef pos max_id))
         (mask_images protonet_output pred_mask_coef gt_bbox_norm gt_masks positiveness
                      max_id_for_anchors).

(** A number between 0 and 1. *)
Definition unit_interval (x : R) : Prop := 0 <= x <= 1.

(** ** Well-shaped batches *)

(** The offsets are given for the anchors that [positiveness] lists, four per
    anchor. *)
Definition loc_batch_ok (y_true : labels) (y_pred : predictions) : Prop :=
  map (@length Z) (positiveness y_true) = map (@length (list R)) (pred_offset y_pred)
  /\ map (@length Z) (positiveness y_true) = map (@length (list R)) (box_targets y_true)
  /\ forallb (rows_of_length 4) (pred_offset y_pred) = true
  /\ forallb (rows_of_length 4) (box_targets y_true) = true.

(** The logits and the class targets are given for the anchors that
    [positiveness] lists, [num_classes >= 1] logits per anchor. *)
Definition class_batch_ok (self : YOLACTLoss) (y_true : labels) (y_pred : predictions)
    : Prop :=
  (0 < _num_classes self)%nat
  /\ map (@length Z) (positiveness y_true) = map (@length (list R)) (pred_cls y_pred)
  /\ map (@length Z) (positiveness y_true) = map (@length Z) (cls_targets y_true)
  /\ forallb (rows_of_length (_num_classes self)) (pred_cls y_pred) = true.

(** The whole input of [__call__] is well-shaped. *)
Definition batch_ok (center_form : list R -> list R) (self : YOLACTLoss)
    (y_true : labels) (y_pred : predictions) : Prop :=
  loc_batch_ok y_true y_pred
  /\ class_batch_ok self y_true y_pred
  /\ mask_batch_ok center_form (proto_out y_pred) (pred_mask_coef y_pred)
                   (bbox_for_norm y_true) (mask_target y_true) (positiveness y_true)
                   (max_id_for_anchors y_true) = true
  /\ seg_batch_ok (seg y_pred) (mask_target y_true) (classes y_true) (num_obj y_true)
     = true.

(** ** Anchors as records *)

(** Pairing the entries of two per-anchor tensors, image by image. *)
Definition zip2 {X Y : Type} (a : list (list X)) (b : list (list Y))
    : list (list (X * Y)) :=
  map (fun p => combine (fst p) (snd p)) (combine a b).

(** All that a batch holds for one anchor: class logits, box offsets, mask
    coefficients, class target, box target, positiveness and matched object
    index. *)
Abbreviation anchor :=
  (list R * (list R * (list R * (Z * (list R * (Z * Z))))))%type.

Definition anchor_class_logits (a : anchor) : list R := fst a.
Definition anchor_box_offsets (a : anchor) : list R := fst (snd a).
Definition anchor_mask_coef (a : anchor) : list R := fst (snd (snd a)).
Definition anchor_class_target (a : anchor) : Z := fst (snd (snd (snd a))).
Definition anchor_box_target (a : anchor) : list R := fst (snd (snd (snd (snd a)))).
Definition anchor_positiveness (a : anchor) : Z := fst (snd (snd (snd (snd (snd a))))).
Definition anchor_max_id (a : anchor) : Z := snd (snd (snd (snd (snd (snd a))))).

(** The anchors of every image of a batch. *)
Definition anchors_of (y_true : labels) (y_pred : predictions) : list (list anchor) :=
  zip2 (pred_cls y_pred)
    (zip2 (pred_offset y_pred)
       (zip2 (pred_mask_coef y_pred)
          (zip2 (cls_targets y_true)
             (zip2 (box_targets y_true)
                (zip2 (positiveness y_true) (max_id_for_anchors y_true)))))).

(** The seven per-anchor tensors list the same anchors. *)
Definition same_anchor_counts (y_true : labels) (y_pred : predictions) : Prop :=
  map (@length (list R)) (pred_cls y_pred) = map (@length Z) (positiveness y_true)
  /\ map (@length (list R)) (pred_offset y_pred) = map (@length Z) (positiveness y_true)
  /\ map (@length (list R)) (pred_mask_coef y_pred) = map (@length Z) (positiveness y_true)
  /\ map (@length Z) (cls_targets y_true) = map (@length Z) (positiveness y_true)
  /\ map (@length (list R)) (box_targets y_true) = map (@length Z) (positiveness y_true)
  /\ map (@length Z) (max_id_for_anchors y_true) = map (@length Z) (positiveness y_true).

(** The second batch is the first one with the anchors of every image
    reordered, the same way in all seven per-anchor tensors; what is not given
    per anchor is unchanged. *)
Definition anchors_permuted (y_true : labels) (y_pred : predictions)
    (y_true' : labels) (y_pred' : predictions) : Prop :=
  proto_out y_pred' = proto_out y_pred
  /\ seg y_pred' = seg y_pred
  /\ bbox_for_norm y_true' = bbox_for_norm y_true
  /\ mask_target y_true' = mask_target y_true
  /\ classes y_true' = classes y_true
  /\ num_obj y_true' = num_obj y_true
  /\ Forall2 (@Permutation anchor) (anchors_of y_true y_pred) (anchors_of y_true' y_pred').

(** The scores by which the code ranks the negative anchors are pairwise
    different and none is not-a-number. *)
Definition distinct_negative_scores (y_true : labels) (y_pred : predictions) : Prop :=
  NoDup (map (fun a => neg_score (snd a))
             (class_anchors 0 (pred_cls y_pred) (cls_targets y_true) (positiveness y_true)))
  /\ Forall (fun a => neg_score (snd a) <> NaN)
            (class_anchors 0 (pred_cls y_pred) (cls_targets y_true) (positiveness y_true)).

(** The anchors of value [v] of a batch given by its anchor records. *)
Definition anchors_where (v : Z) (anchors : list (list anchor)) : list anchor :=
  concat (map (filter (fun a => Z.eqb (anchor_positiveness a) v)) anchors).

(** [a] comes before [b] in a descending order of the keys without ties. *)
Definition before {X : Type} (key : X -> tfloat) (a b : X) : Prop :=
  fltb (key b) (key a) = true.

(** ** The hard-negative score of the specification *)

(** [tf.nn.softmax] of one row of logits. *)
Definition softmax (logits : list R) : list R :=
  map (fun x => exp x / reduce_sum (map exp logits)) logits.

(** The score in the words of the specification: minus the logarithm of the
    softmax probability that the logits of the anchor give to class 0. *)
Definition background_score (logits : list R) : tfloat :=
  fmul (Fin (-1)) (flog (nth 0 (softmax logits) 0)).

(** ** Tensors that agree on part of the anchors *)

(** Two per-anchor tensors hold the same entry at every anchor whose
    positiveness satisfies [p]. *)
Definition agree_at {X : Type} (p : Z -> bool) (pos : list (list Z))
    (t t' : list (list X)) : Prop :=
  forall b a v, nth_error (nth b pos []) a = Some v -> p v = true ->
    nth_error (nth b t []) a = nth_error (nth b t' []) a.

(** ** Class targets inside the range of the classes *)


(** * Examples *)

(** ** Example batches *)

(** The same loss object with another value of [max_masks_for_train]. *)
Definition with_max_masks_for_train (self : YOLACTLoss) (m : Z) : YOLACTLoss :=
  {| _num_classes := _num_classes self;
     _classification_loss_weight := _classification_loss_weight self;
     _box_prediction_loss_weight := _box_prediction_loss_weight self;
     _mask_loss_weight := _mask_loss_weight self;
     _segmentation_loss_weight := _segmentation_loss_weight self;
     _neg_pos_ratio := _neg_pos_ratio self;
     _max_masks_for_train := m |}.

(** A centre form and a box test to run the mask loss on examples: corners
    [(x1, y1, x2, y2)], and a crop that keeps every pixel. *)
Definition example_center_form (box : list R) : list R :=
  match box with
  | [x1; y1; x2; y2] => [(x1 + x2) / 2; (y1 + y2) / 2; x2 - x1; y2 - y1]
  | _ => []
  end.
Definition example_inside_box (box : list R) (h w i j : nat) : bool := true.

(** One image, three anchors of which the first is positive, two classes,
    one prototype, two object slots of which the first is used, masks and
    segmentation map of 2 by 2 pixels. *)
Definition example_pred : predictions :=
  {| pred_cls := [[[0; 1]; [1; 0]; [2; 0]]];
     pred_offset := [[[1 / 2; 1 / 2; 1 / 2; 1 / 2]; [0; 0; 0; 0]; [0; 0; 0; 0]]];
     pred_mask_coef := [[[1]; [0]; [0]]];
     proto_out := [[[[0]; [0]]; [[0]; [0]]]];
     seg := [[[[0; 0]; [0; 0]]; [[0; 0]; [0; 0]]]] |}.

Definition example_true : labels :=
  {| cls_targets := [[1; 0; 0]%Z];
     box_targets := [[[0; 0; 0; 0]; [0; 0; 0; 0]; [0; 0; 0; 0]]];
     positiveness := [[1; 0; 0]%Z];
     bbox_for_norm := [[[0; 0; 1; 1]; [0; 0; 0; 0]]];
     mask_target := [[[[1; 0]; [0; 0]]; [[0; 0]; [0; 0]]]];
     max_id_for_anchors := [[0; 0; 0]%Z];
     classes := [[1; 0]%Z];
     num_obj := [1%Z] |}.

(** The example batch with no positive anchor. *)
Definition example_true_negative : labels :=
  {| cls_targets := cls_targets example_true;
     box_targets := box_targets example_true;
     positiveness := [[0; 0; 0]%Z];
     bbox_for_norm := bbox_for_norm example_true;
     mask_target := mask_target example_true;
     max_id_for_anchors := max_id_for_anchors example_true;
     classes := classes example_true;
     num_obj := num_obj example_true |}.

(** A segmentation map of 2 by 3 pixels and one class, for the example
    image. *)
Definition example_seg_wide : list (list (list (list R))) :=
  [[[[0]; [0]; [0]]; [[0]; [0]; [0]]]].

(** Two objects of class 1 whose masks overlap in the first pixel. *)
Definition example_masks_overlap : list (list (list R)) :=
  [[[1; 1]; [0; 0]]; [[1; 0]; [1; 0]]].

(** ** Example for the hard-negative mining *)

(** A loss object with [neg_pos_ratio = 1] and a batch of one positive and
    two negative anchors. *)
Definition example_ratio_one : YOLACTLoss := __init__ 2 1 (3 / 2) (49 / 8) 1 1 100.
Definition example_pred_cls : list (list (list R)) := [[[0; 1]; [2; 2]; [1; 0]]].
Definition example_cls_targets : list (list Z) := [[1; 0; 0]%Z].
Definition example_positiveness : list (list Z) := [[1; 0; 0]%Z].

(** ** Example batches with reordered anchors *)

(** The example batch with its second and third anchor exchanged. *)
Definition example_pred_swapped : predictions :=
  {| pred_cls := [[[0; 1]; [2; 0]; [1; 0]]];
     pred_offset := pred_offset example_pred;
     pred_mask_coef := pred_mask_coef example_pred;
     proto_out := proto_out example_pred;
     seg := seg example_pred |}.

(** A batch whose two negative anchors have the same class-0 logit, and the
    same batch with these two anchors exchanged. *)
Definition example_pred_tie : predictions :=
  {| pred_cls := [[[0; 1]; [1; 0]; [1; 1]]];
     pred_offset := pred_offset example_pred;
     pred_mask_coef := pred_mask_coef example_pred;
     proto_out := proto_out example_pred;
     seg := seg example_pred |}.
Definition example_pred_tie_swapped : predictions :=
  {| pred_cls := [[[0; 1]; [1; 1]; [1; 0]]];
     pred_offset := pred_offset example_pred;
     pred_mask_coef := pred_mask_coef example_pred;
     proto_out := proto_out example_pred;
     seg := seg example_pred |}.

(** ** Example masks of twice the resolution of the segmentation map *)

(** Two object slots with masks of 4 by 4 pixels, for a segmentation map of
    2 by 2 pixels; the second slot is padding. *)
Definition example_masks_fine : list (list (list R)) :=
  [[[1; 1; 0; 0]; [0; 0; 0; 1]; [1; 0; 1; 1]; [0; 0; 1; 1]];
   [[0; 0; 0; 0]; [0; 0; 0; 0]; [0; 0; 0; 0]; [0; 0; 0; 0]]].

(** * Properties *)

(** ** The error monad and index gathering *)

Lemma bind_Some {A B} (m : option A) (k : A -> option B) b :
  bind m k = Some b <-> exists a, m = Some a /\ k a = Some b.
Proof.
  destruct m; simpl; split; intros H.
  - eauto.
  - destruct H as (a0 & H1 & H2). now inversion H1; subst.
  - discriminate.
  - destruct H as (a0 & H1 & _). discriminate.
Qed.

Lemma mapM_app {A B} (f : A -> option B) l1 l2 :
  mapM f (l1 ++ l2) = (x <- mapM f l1 ;; y <- mapM f l2 ;; Some (x ++ y)).
Proof.
  induction l1 as [|a l1 IH]; simpl.
  - destruct (mapM f l2); reflexivity.
  - destruct (f a); simpl; [|reflexivity].
    rewrite IH. destruct (mapM f l1); simpl; [|reflexivity].
    destruct (mapM f l2); reflexivity.
Qed.

Lemma mapM_map {A B C} (g : A -> B) (f : B -> option C) l :
  mapM f (map g l) = mapM (fun a => f (g a)) l.
Proof.
  induction l as [|a l IH]; simpl; [reflexivity|]. now rewrite IH.
Qed.

Lemma mapM_ext_in {A B} (f g : A -> option B) l :
  (forall a, In a l -> f a = g a) -> mapM f l = mapM g l.
Proof.
  induction l as [|a l IH]; simpl; intros H; [reflexivity|].
  rewrite H by auto. rewrite IH by auto. reflexivity.
Qed.

Lemma mapM_total {A B} (f : A -> B) l :
  mapM (fun a => Some (f a)) l = Some (map f l).
Proof.
  induction l as [|a l IH]; simpl; [reflexivity|]. now rewrite IH.
Qed.

Lemma mapM_length {A B} (f : A -> option B) l r :
  mapM f l = Some r -> length r = length l.
Proof.
  revert r. induction l as [|a l IH]; simpl; intros r H.
  - now inversion H.
  - destruct (f a); simpl in H; [|discriminate].
    destruct (mapM f l); simpl in H; [|discriminate].
    inversion H; subst. simpl. now rewrite (IH l0).
Qed.

Lemma select_nil {X} (xs : list X) : select [] xs = [].
Proof. reflexivity. Qed.

Lemma select_cons {X} b bs (x : X) xs :
  select (b :: bs) (x :: xs) = (if b then [x] else []) ++ select bs xs.
Proof. unfold select. simpl. destruct b; reflexivity. Qed.

Lemma gather_where1 {X} (pre xs : list X) (bs : list bool) :
  length bs = length xs ->
  mapM (fun r => match r with [a] => nth_error (pre ++ xs) a | _ => None end)
       (where_from where0 (length pre) bs) = Some (select bs xs).
Proof.
  revert pre xs. induction bs as [|b bs IH]; intros pre xs Hlen.
  - reflexivity.
  - destruct xs as [|x xs]; [discriminate|].
    simpl where_from. rewrite mapM_app, select_cons.
    replace (pre ++ x :: xs) with ((pre ++ [x]) ++ xs) by (now rewrite <- app_assoc).
    replace (S (length pre)) with (length (pre ++ [x])) by (rewrite length_app; simpl; lia).
    rewrite IH by (simpl in Hlen; lia).
    destruct b; simpl.
    + rewrite nth_error_app1 by (rewrite length_app; simpl; lia).
      rewrite nth_error_app2 by lia. rewrite Nat.sub_diag. reflexivity.
    + reflexivity.
Qed.

Lemma where_from_removelast {X Y} (inner : X -> list (list nat))
    (inner' : Y -> list (list nat)) (g : X -> Y) i l :
  (forall x, In x l -> Forall (fun r => r <> []) (inner x)) ->
  (forall x, In x l -> map (@removelast nat) (inner x) = inner' (g x)) ->
  map (@removelast nat) (where_from inner i l) = where_from inner' i (map g l).
Proof.
  revert i. induction l as [|x l IH]; intros i Hne Hin; simpl; [reflexivity|].
  rewrite map_app. rewrite IH.
  2: { intros; apply Hne; now right. }
  2: { intros; apply Hin; now right. }
  f_equal. rewrite <- Hin by now left.
  rewrite !map_map. apply map_ext_in. intros r Hr.
  specialize (Hne x (or_introl eq_refl)). rewrite Forall_forall in Hne.
  specialize (Hne r Hr). destruct r; [congruence|reflexivity].
Qed.

Lemma where_from_nonempty {X} (inner : X -> list (list nat)) i l :
  Forall (fun r => r <> []) (where_from inner i l).
Proof.
  revert i. induction l as [|x l IH]; intros i; simpl; [constructor|].
  apply Forall_app. split; [|apply IH].
  apply Forall_forall. intros r Hr. apply in_map_iff in Hr.
  destruct Hr as (r' & <- & _). discriminate.
Qed.

(** Dropping the last column of the positions found on the expanded tensor
    gives the positions of the rank-2 tensor. *)
Lemma drop_last_where3 (pos : list (list Z)) v :
  drop_last_column (tf_where3 (equal3 (expand_dims2 pos) v))
  = tf_where2 (equal2 pos v).
Proof.
  unfold drop_last_column, tf_where3, tf_where2, equal3, expand_dims2, equal2.
  rewrite map_map.
  rewrite where_from_removelast with (inner' := tf_where1) (g := map (fun l => hd false l)).
  - rewrite map_map. f_equal. apply map_ext. intros row.
    unfold equal2, equal1, expand_dims1. rewrite !map_map. reflexivity.
  - intros x _. apply where_from_nonempty.
  - intros x Hx. apply in_map_iff in Hx. destruct Hx as (row & <- & _).
    unfold tf_where2, tf_where1.
    apply where_from_removelast.
    + intros bs _. apply where_from_nonempty.
    + intros bs Hbs. unfold equal2, expand_dims1 in Hbs. rewrite map_map in Hbs.
      apply in_map_iff in Hbs. destruct Hbs as (z & <- & _).
      simpl. destruct (Z.eqb z v); reflexivity.
Qed.

Lemma gather_nd2_where2 {X} (pre t : list (list X)) (bss : list (list bool)) :
  Forall2 (fun bs xs => length bs = length xs) bss t ->
  gather_nd2 (pre ++ t) (where_from tf_where1 (length pre) bss)
  = Some (concat (map (fun p => select (fst p) (snd p)) (combine bss t))).
Proof.
  intros H. revert pre. induction H as [|bs xs bss t Hlen H IH]; intros pre.
  - reflexivity.
  - simpl where_from. unfold gather_nd2 in *. rewrite mapM_app.
    replace (pre ++ xs :: t) with ((pre ++ [xs]) ++ t) by (now rewrite <- app_assoc).
    replace (S (length pre)) with (length (pre ++ [xs])) by (rewrite length_app; simpl; lia).
    rewrite IH. rewrite mapM_map.
    rewrite mapM_ext_in with
      (g := fun r => match r with [a] => nth_error ([] ++ xs) a | _ => None end).
    + unfold tf_where1. change 0%nat with (length (@nil X)).
      rewrite gather_where1 by assumption. reflexivity.
    + intros r _. rewrite nth_error_app1 by (rewrite length_app; simpl; lia).
      rewrite nth_error_app2 by lia. rewrite Nat.sub_diag. simpl.
      destruct r as [|a [|a' r]]; reflexivity.
Qed.

(** The gathers of [_loss_location] pick the rows of the positive anchors. *)
Lemma gather_positive {X} (t : list (list X)) (pos : list (list Z)) :
  Forall2 (fun ps xs => length ps = length xs) pos t ->
  gather_nd2 t (drop_last_column (tf_where3 (equal3 (expand_dims2 pos) 1)))
  = Some (concat (map (fun p => select (equal1 (fst p) 1) (snd p)) (combine pos t))).
Proof.
  intros H. rewrite drop_last_where3. unfold tf_where2.
  change t with ([] ++ t) at 1. change 0%nat with (length (@nil (list X))).
  rewrite gather_nd2_where2.
  - unfold equal2. f_equal. f_equal.
    clear H. revert t. induction pos as [|p pos IH]; intros [|x t]; simpl; try reflexivity.
    now rewrite IH.
  - unfold equal2. clear -H. induction H; simpl; constructor; auto.
    unfold equal1. now rewrite length_map.
Qed.

(** ** Arithmetic of [tfloat] *)

Lemma Reqb_true x y : Reqb x y = true <-> x = y.
Proof. unfold Reqb. destruct (Req_dec_T x y); split; intros; congruence. Qed.
Lemma Reqb_false x y : Reqb x y = false <-> x <> y.
Proof. unfold Reqb. destruct (Req_dec_T x y); split; intros; congruence. Qed.
Lemma Rltb_true x y : Rltb x y = true <-> x < y.
Proof. unfold Rltb. destruct (Rlt_dec x y); split; intros; congruence. Qed.
Lemma Rltb_false x y : Rltb x y = false <-> ~ x < y.
Proof. unfold Rltb. destruct (Rlt_dec x y); split; intros; congruence. Qed.
Lemma Rleb_true x y : Rleb x y = true <-> x <= y.
Proof. unfold Rleb. destruct (Rle_dec x y); split; intros; congruence. Qed.
Lemma Rleb_false x y : Rleb x y = false <-> ~ x <= y.
Proof. unfold Rleb. destruct (Rle_dec x y); split; intros; congruence. Qed.

Lemma fdiv_Fin a b : b <> 0 -> fdiv (Fin a) (Fin b) = Fin (a / b).
Proof. intros H. simpl. apply Reqb_false in H. now rewrite H. Qed.

Lemma fdiv_zero_zero : fdiv (Fin 0) (Fin 0) = NaN.
Proof.
  simpl. replace (Reqb 0 0) with true by (symmetry; now apply Reqb_true).
  unfold inf_of_sign. replace (Rltb 0 0) with false; [reflexivity|].
  symmetry. apply Rltb_false. lra.
Qed.

Lemma cast_float_0 : cast_float 0 = 0.
Proof. reflexivity. Qed.

Lemma cast_float_pos n : (0 < n)%nat -> 0 < cast_float n.
Proof. intros H. unfold cast_float. apply IZR_lt. lia. Qed.

Lemma cast_float_nonneg n : 0 <= cast_float n.
Proof. unfold cast_float. apply IZR_le. lia. Qed.

Lemma freduce_sum_Fin l : freduce_sum (map Fin l) = Fin (reduce_sum l).
Proof. induction l as [|x l IH]; simpl; [reflexivity|]. now rewrite IH. Qed.

Lemma reduce_mean_Fin row n :
  length row = n -> (0 < n)%nat -> reduce_mean row = Fin (reduce_sum row / cast_float n).
Proof.
  intros <- Hn. unfold reduce_mean. apply fdiv_Fin.
  apply cast_float_pos in Hn. lra.
Qed.

(** ** Localization loss: the code against the reference form *)

Lemma rows_of_length_In {X} n (t : list (list X)) r :
  rows_of_length n t = true -> In r t -> length r = n.
Proof.
  unfold rows_of_length. rewrite forallb_forall. intros H Hr.
  apply Nat.eqb_eq. now apply H.
Qed.

Lemma select_In {X} bs (xs : list X) x : In x (select bs xs) -> In x xs.
Proof.
  unfold select. rewrite in_map_iff. intros ((b, y) & <- & H).
  apply filter_In in H. destruct H as [H _]. now apply in_combine_r in H.
Qed.

Lemma anchors_with_In {X} v pos (t : list (list X)) x :
  In x (anchors_with v pos t) -> exists im, In im t /\ In x im.
Proof.
  unfold anchors_with. rewrite in_concat. intros (l & Hl & Hx).
  apply in_map_iff in Hl. destruct Hl as ((ps, im) & <- & Hin).
  exists im. split; [now apply in_combine_r in Hin | now apply select_In in Hx].
Qed.

Lemma select_length {X} bs (xs : list X) :
  length bs = length xs -> length (select bs xs) = length (filter (fun b => b) bs).
Proof.
  revert xs. induction bs as [|b bs IH]; intros [|x xs] H; try discriminate; [reflexivity|].
  rewrite select_cons, length_app, IH by (simpl in H; lia).
  simpl. destruct b; reflexivity.
Qed.

Lemma filter_equal1 v ps :
  length (filter (fun b : bool => b) (equal1 ps v)) = length (filter (fun x => Z.eqb x v) ps).
Proof.
  induction ps as [|p ps IH]; simpl; [reflexivity|].
  destruct (Z.eqb p v); simpl; now rewrite IH.
Qed.

Lemma anchors_with_length {X} v pos (t : list (list X)) :
  map (@length Z) pos = map (@length X) t ->
  length (anchors_with v pos t) = count_anchors v pos.
Proof.
  unfold anchors_with, count_anchors. revert t.
  induction pos as [|ps pos IH]; intros [|xs t] H; try discriminate; [reflexivity|].
  simpl in *. inversion H. rewrite !length_app, filter_app, length_app, IH by assumption.
  rewrite select_length by (unfold equal1; now rewrite length_map).
  now rewrite filter_equal1.
Qed.

Lemma same_lengths_Forall2 {X Y} (l1 : list (list X)) (l2 : list (list Y)) :
  map (@length X) l1 = map (@length Y) l2 ->
  Forall2 (fun a b => length a = length b) l1 l2.
Proof.
  revert l2. induction l1 as [|a l1 IH]; intros [|b l2] H; try discriminate.
  - constructor.
  - inversion H. constructor; auto.
Qed.

Lemma Huber_rows delta n (y_true y_pred : list (list R)) :
  (0 < n)%nat -> length y_true = length y_pred ->
  rows_of_length n y_true = true -> rows_of_length n y_pred = true ->
  Huber delta y_true y_pred
  = Some (map (fun p => Fin (reduce_sum (map (fun q => huber_elem delta (fst q) (snd q))
                                             (combine (fst p) (snd p)))
                             / cast_float n))
              (combine y_true y_pred)).
Proof.
  intros Hn Hlen Ht Hp. unfold Huber. rewrite Hlen, Nat.eqb_refl.
  rewrite <- mapM_total. apply mapM_ext_in. intros (g, p) Hin. simpl.
  assert (Hg : length g = n).
  { eapply rows_of_length_In; [exact Ht|]. eapply in_combine_l; eauto. }
  assert (Hq : length p = n).
  { eapply rows_of_length_In; [exact Hp|]. eapply in_combine_r; eauto. }
  unfold broadcast2. rewrite Hg, Hq, Nat.eqb_refl. simpl.
  f_equal. apply reduce_mean_Fin; [|assumption].
  now rewrite length_map, length_combine, Hg, Hq, Nat.min_id.
Qed.

Lemma rows_of_length_anchors {X} n v pos (t : list (list (list X))) :
  forallb (rows_of_length n) t = true ->
  rows_of_length n (anchors_with v pos t) = true.
Proof.
  intros H. unfold rows_of_length. apply forallb_forall. intros r Hr.
  apply anchors_with_In in Hr. destruct Hr as (im & Him & Hr).
  rewrite forallb_forall in H. specialize (H im Him).
  apply Nat.eqb_eq. eapply rows_of_length_In; eauto.
Qed.

(** On well-shaped tensors [_loss_location] is the reference form, as a
    float32 division by the number of positive anchors. *)
Lemma loss_location_char pred_offset gt_offset positiveness :
  map (@length Z) positiveness = map (@length (list R)) pred_offset ->
  map (@length Z) positiveness = map (@length (list R)) gt_offset ->
  forallb (rows_of_length 4) pred_offset = true ->
  forallb (rows_of_length 4) gt_offset = true ->
  _loss_location pred_offset gt_offset positiveness
  = Some (fdiv (Fin (reduce_sum (map (fun p => smooth_l1_sum (fst p) (snd p) / 4)
                        (combine (anchors_with 1 positiveness gt_offset)
                                 (anchors_with 1 positiveness pred_offset)))))
               (Fin (cast_float (count_anchors 1 positiveness)))).
Proof.
  intros Hp Hg Hp4 Hg4. unfold _loss_location.
  rewrite !gather_positive by now apply same_lengths_Forall2.
  fold (anchors_with 1 positiveness pred_offset).
  fold (anchors_with 1 positiveness gt_offset).
  simpl bind.
  rewrite Huber_rows with (n := 4%nat);
    [ | lia | now rewrite !anchors_with_length
      | now apply rows_of_length_anchors | now apply rows_of_length_anchors ].
  simpl bind. rewrite anchors_with_length by assumption.
  f_equal. f_equal.
  rewrite <- freduce_sum_Fin, map_map. reflexivity.
Qed.

(** ** Classification loss: the code against the reference form *)

Lemma chunk_concat {X} n (rows : list (list X)) fuel :
  (0 < n)%nat -> Forall (fun r => length r = n) rows ->
  (length (concat rows) <= fuel)%nat ->
  chunk fuel n (concat rows) = Some rows.
Proof.
  intros Hn H. revert fuel. induction H as [|r rows Hr H IH]; intros fuel Hf.
  - destruct fuel; reflexivity.
  - simpl concat in *. rewrite length_app in Hf.
    destruct r as [|x r]; [simpl in Hr; lia|].
    destruct fuel as [|fuel]; [simpl in Hf; lia|].
    cbn [app chunk].
    change (x :: r ++ concat rows) with ((x :: r) ++ concat rows).
    replace (Nat.ltb (length ((x :: r) ++ concat rows)) n) with false
      by (symmetry; apply Nat.ltb_ge; rewrite length_app; lia).
    rewrite <- Hr.
    rewrite skipn_app, skipn_all, Nat.sub_diag, firstn_app, firstn_all, Nat.sub_diag.
    rewrite Hr. simpl skipn. simpl firstn. rewrite app_nil_r. simpl app.
    rewrite IH by lia. reflexivity.
Qed.

Lemma reshape_rows_concat {X} n (rows : list (list X)) :
  (0 < n)%nat -> Forall (fun r => length r = n) rows ->
  reshape_rows n (concat rows) = Some rows.
Proof.
  intros Hn H. unfold reshape_rows.
  replace (Nat.eqb n 0) with false by (symmetry; apply Nat.eqb_neq; lia).
  now apply chunk_concat.
Qed.

Lemma concat_expand_dims2 {X} (t : list (list X)) :
  concat (expand_dims2 t) = expand_dims1 (concat t).
Proof.
  unfold expand_dims2, expand_dims1. now rewrite concat_map.
Qed.

Lemma concat_expand_dims1 {X} (t : list X) : concat (expand_dims1 t) = t.
Proof. induction t as [|x t IH]; simpl; [reflexivity|]. now rewrite IH. Qed.

Lemma reshape_column {X} (t : list (list X)) :
  reshape_rows 1 (concat (concat (expand_dims2 t))) = Some (expand_dims1 (concat t)).
Proof.
  rewrite concat_expand_dims2. apply reshape_rows_concat; [lia|].
  apply Forall_forall. intros r Hr. unfold expand_dims1 in Hr.
  apply in_map_iff in Hr. now destruct Hr as (x & <- & _).
Qed.

Lemma column0_where2 i (bs : list bool) :
  column0 (where_from tf_where1 i (map (fun b => [b]) bs))
  = Some (concat (where_from where0 i bs)).
Proof.
  unfold column0. revert i. induction bs as [|b bs IH]; intros i; [reflexivity|].
  simpl. rewrite mapM_app, IH. destruct b; reflexivity.
Qed.

Lemma gather_positions {X} (t : list X) (bs : list bool) :
  length bs = length t ->
  gather t (concat (tf_where1 bs)) = Some (select bs t).
Proof.
  intros H. unfold gather, tf_where1.
  rewrite <- (gather_where1 [] t bs H). simpl.
  generalize 0%nat. clear H. induction bs as [|b bs IH]; intros i; [reflexivity|].
  simpl. rewrite concat_app, !mapM_app, IH. destruct b; reflexivity.
Qed.

(** The two gathers of [_loss_class] on the rows found by [tf.where]. *)
Lemma gather_flat_where {X} (t : list X) (flat : list Z) v :
  length flat = length t ->
  (rows <- column0 (tf_where2 (equal2 (expand_dims1 flat) v)) ;; gather t rows)
  = Some (select (equal1 flat v) t).
Proof.
  intros H. unfold tf_where2, equal2, expand_dims1. rewrite map_map.
  change (map (fun x : Z => equal1 [x] v) flat)
    with (map (fun x : Z => [Z.eqb x v]) flat).
  rewrite <- (map_map (fun x => Z.eqb x v) (fun b => [b])).
  rewrite column0_where2. simpl bind.
  apply gather_positions. unfold equal1 in *. now rewrite length_map.
Qed.

Lemma select_map {X Y} (f : X -> Y) bs xs :
  select bs (map f xs) = map f (select bs xs).
Proof.
  revert xs. induction bs as [|b bs IH]; intros [|x xs]; try reflexivity.
  simpl map. rewrite !select_cons, map_app, IH. destruct b; reflexivity.
Qed.

Lemma gather_map {X Y} (f : X -> Y) t idx :
  gather (map f t) idx = option_map (map f) (gather t idx).
Proof.
  unfold gather. induction idx as [|i idx IH]; simpl; [reflexivity|].
  rewrite nth_error_map. destruct (nth_error t i); simpl; [|reflexivity].
  rewrite IH. destruct (mapM (nth_error t) idx); reflexivity.
Qed.

Lemma mapM_firstn {A B} (f : A -> option B) l r n :
  mapM f l = Some r -> mapM f (firstn n l) = Some (firstn n r).
Proof.
  revert l r. induction n as [|n IH]; intros l r H; [reflexivity|].
  destruct l as [|a l]; simpl in *.
  - now inversion H.
  - destruct (f a); simpl in *; [|discriminate].
    destruct (mapM f l) eqn:E; simpl in *; [|discriminate].
    inversion H; subst. rewrite (IH _ _ E). reflexivity.
Qed.

Lemma gather_slice_to {X} (t : list X) idx r k :
  gather t idx = Some r -> gather t (slice_to k idx) = Some (slice_to k r).
Proof.
  intros H. unfold slice_to, gather in *.
  rewrite (mapM_length _ _ H).
  destruct (0 <=? k)%Z; now apply mapM_firstn.
Qed.

Lemma insert_descending_map {X Y} (f : X -> Y) key key' x l :
  (forall y, key' (f y) = key y) ->
  insert_descending key' (f x) (map f l) = map f (insert_descending key x l).
Proof.
  intros H. induction l as [|y l IH]; simpl; [reflexivity|].
  rewrite !H. destruct (ranks_below (key x) (key y)); simpl; [now rewrite IH | reflexivity].
Qed.

Lemma sort_descending_map {X Y} (f : X -> Y) key key' l :
  (forall y, key' (f y) = key y) ->
  sort_descending key' (map f l) = map f (sort_descending key l).
Proof.
  intros H. induction l as [|x l IH]; simpl; [reflexivity|].
  rewrite IH. now apply insert_descending_map.
Qed.

Lemma insert_descending_perm {X} (key : X -> tfloat) x l :
  Permutation (x :: l) (insert_descending key x l).
Proof.
  induction l as [|y l IH]; simpl; [reflexivity|].
  destruct (ranks_below (key x) (key y)); [|reflexivity].
  rewrite perm_swap. now constructor.
Qed.

Lemma sort_descending_perm {X} (key : X -> tfloat) l :
  Permutation l (sort_descending key l).
Proof.
  induction l as [|x l IH]; simpl; [constructor|].
  rewrite <- insert_descending_perm. now constructor.
Qed.

Lemma In_combine_seq {X} (pre t : list X) i x :
  In (i, x) (combine (seq (length pre) (length t)) t) ->
  nth_error (pre ++ t) i = Some x.
Proof.
  revert pre. induction t as [|y t IH]; intros pre H; simpl in H; [contradiction|].
  destruct H as [H|H].
  - inversion H; subst. rewrite nth_error_app2 by lia. now rewrite Nat.sub_diag.
  - replace (pre ++ y :: t) with ((pre ++ [y]) ++ t) by now rewrite <- app_assoc.
    apply IH. rewrite length_app. simpl. now rewrite Nat.add_1_r.
Qed.

Lemma map_snd_combine_seq {X} a (t : list X) :
  map snd (combine (seq a (length t)) t) = t.
Proof.
  revert a. induction t as [|x t IH]; intros a; simpl; [reflexivity|]. now rewrite IH.
Qed.

(** Gathering by the result of [argsort] sorts the gathered tensor. *)
Lemma gather_argsort {X} (key : X -> tfloat) (t : list X) :
  gather t (argsort_descending (map key t)) = Some (sort_descending key t).
Proof.
  unfold argsort_descending. rewrite length_map.
  set (T := combine (seq 0 (length t)) t).
  assert (E : combine (seq 0 (length t)) (map key t)
              = map (fun p => (fst p, key (snd p))) T).
  { unfold T. generalize 0%nat. induction t as [|x t IH]; intros a; simpl; [reflexivity|].
    now rewrite IH. }
  rewrite E.
  rewrite sort_descending_map with (key := fun p => key (snd p)) by reflexivity.
  rewrite map_map. simpl. unfold gather. rewrite mapM_map.
  rewrite mapM_ext_in with (g := fun p => Some (snd p)).
  - rewrite mapM_total. f_equal.
    rewrite <- sort_descending_map with (key' := key) by reflexivity.
    unfold T. now rewrite map_snd_combine_seq.
  - intros (i, x) Hin. simpl.
    apply (Permutation_in _ (Permutation_sym (sort_descending_perm _ _))) in Hin.
    apply (In_combine_seq [] t). exact Hin.
Qed.

Lemma column0_rows (t : list (list R)) :
  Forall (fun r => r <> []) t -> column0 t = Some (map (fun r => nth 0 r 0) t).
Proof.
  unfold column0. induction 1 as [|r t Hr H IH]; [reflexivity|].
  destruct r as [|x r]; [congruence|].
  simpl in *. now rewrite IH.
Qed.

Lemma neg_indices_for_loss_char (negs : list (list R)) k :
  Forall (fun r => r <> []) negs ->
  neg_indices_for_loss negs k
  = Some (slice_to k (argsort_descending (map neg_score negs))).
Proof.
  intros H. unfold neg_indices_for_loss. rewrite column0_rows by assumption.
  simpl. now rewrite map_map.
Qed.

Lemma column0_flat_where (flat : list Z) v :
  column0 (tf_where2 (equal2 (expand_dims1 flat) v))
  = Some (concat (tf_where1 (equal1 flat v))).
Proof.
  unfold tf_where2, equal2, expand_dims1. rewrite map_map.
  change (map (fun x : Z => equal1 [x] v) flat)
    with (map (fun x : Z => [Z.eqb x v]) flat).
  rewrite <- (map_map (fun x => Z.eqb x v) (fun b => [b])).
  now rewrite column0_where2.
Qed.

Lemma length_concat_same {X Y} (a : list (list X)) (b : list (list Y)) :
  map (@length X) a = map (@length Y) b -> length (concat a) = length (concat b).
Proof.
  revert b. induction a as [|x a IH]; intros [|y b] H; try discriminate; [reflexivity|].
  simpl in *. inversion H. rewrite !length_app. f_equal; auto.
Qed.

Lemma map_fst_combine_eq {X Y} (xs : list X) (ys : list Y) :
  length xs = length ys -> map fst (combine xs ys) = xs.
Proof.
  revert ys. induction xs as [|x xs IH]; intros [|y ys] H; try discriminate; [reflexivity|].
  simpl. f_equal. apply IH. simpl in H. lia.
Qed.

Lemma map_snd_combine_eq {X Y} (xs : list X) (ys : list Y) :
  length xs = length ys -> map snd (combine xs ys) = ys.
Proof.
  revert ys. induction xs as [|x xs IH]; intros [|y ys] H; try discriminate; [reflexivity|].
  simpl. f_equal. apply IH. simpl in H. lia.
Qed.

Lemma combine_map_both {X Y W} (f : X -> Y) (g : X -> W) l :
  combine (map f l) (map g l) = map (fun x => (f x, g x)) l.
Proof. induction l as [|x l IH]; simpl; [reflexivity|]. now rewrite IH. Qed.


Lemma rows_of_length_concat {X} n (t : list (list (list X))) :
  forallb (rows_of_length n) t = true -> Forall (fun r => length r = n) (concat t).
Proof.
  intros H. apply Forall_forall. intros r Hr. apply in_concat in Hr.
  destruct Hr as (im & Him & Hr). rewrite forallb_forall in H.
  eapply rows_of_length_In; [apply H; exact Him | exact Hr].
Qed.

(** On well-shaped tensors [_loss_class] is the sum of the cross-entropies
    of the positive and of the mined negative anchors over the number of
    positive anchors. *)
Lemma loss_class_char self pred_cls gt_cls positiveness :
  (0 < _num_classes self)%nat ->
  map (@length Z) positiveness = map (@length (list R)) pred_cls ->
  map (@length Z) positiveness = map (@length Z) gt_cls ->
  forallb (rows_of_length (_num_classes self)) pred_cls = true ->
  _loss_class self pred_cls gt_cls positiveness
  = Some (class_loss_reference self pred_cls gt_cls positiveness).
Proof.
  intros HC Hp Hg Hrows.
  pose proof (rows_of_length_concat _ _ Hrows) as HL.
  pose proof (length_concat_same _ _ Hp) as HlenL.
  pose proof (length_concat_same _ _ Hg) as HlenG.
  unfold _loss_class, class_loss_reference, mined_negatives, class_anchors.
  set (L := concat pred_cls) in *. set (G := concat gt_cls) in *.
  set (Ps := concat positiveness) in *.
  set (A := combine G L).
  assert (EL : L = map snd A) by (unfold A; now rewrite map_snd_combine_eq by congruence).
  assert (EG : expand_dims1 G = map (fun a => [fst a]) A).
  { unfold A, expand_dims1. rewrite <- (map_map fst (fun x => [x])).
    now rewrite map_fst_combine_eq by congruence. }
  rewrite reshape_rows_concat by assumption.
  rewrite !reshape_column. fold G Ps. cbn [bind].
  rewrite !column0_flat_where. cbn [bind].
  rewrite !gather_positions
    by (unfold equal1, expand_dims1; rewrite ?length_map; congruence).
  cbn [bind].
  rewrite EL, EG, !select_map.
  set (posA := select (equal1 Ps 1) A). set (negA := select (equal1 Ps 0) A).
  rewrite !length_map.
  rewrite neg_indices_for_loss_char.
  2:{ apply Forall_forall. intros r Hr. apply in_map_iff in Hr.
      destruct Hr as (a & <- & Ha). apply select_In in Ha.
      assert (Hin : In (snd a) L) by (rewrite EL; now apply in_map).
      rewrite Forall_forall in HL. specialize (HL _ Hin).
      destruct (snd a); [simpl in HL; lia | discriminate]. }
  cbn [bind]. rewrite map_map.
  rewrite !gather_map.
  erewrite gather_slice_to by apply (gather_argsort (fun a => neg_score (snd a))).
  cbn [option_map bind].
  f_equal. f_equal. f_equal.
  rewrite <- !map_app.
  match goal with |- context [concat (map _ ?S)] => generalize S end.
  intros S.
  replace (concat (map (fun a : Z * list R => [fst a]) S)) with (map fst S)
    by (induction S as [|a S' IHS]; simpl; [reflexivity | now rewrite IHS]).
  unfold softmax_cross_entropy_with_logits, one_hot.
  rewrite map_map, combine_map_both, map_map. reflexivity.
Qed.

(** ** Sums of float32 values *)

Lemma fadd_comm x y : fadd x y = fadd y x.
Proof. destruct x, y; simpl; try reflexivity. f_equal. ring. Qed.

Lemma fadd_assoc x y z : fadd x (fadd y z) = fadd (fadd x y) z.
Proof. destruct x, y, z; simpl; try reflexivity. f_equal. ring. Qed.

Lemma fadd_0_l x : fadd (Fin 0) x = x.
Proof. destruct x; simpl; try reflexivity. f_equal. ring. Qed.

Lemma fadd_0_r x : fadd x (Fin 0) = x.
Proof. rewrite fadd_comm. apply fadd_0_l. Qed.

Lemma freduce_sum_app l1 l2 :
  freduce_sum (l1 ++ l2) = fadd (freduce_sum l1) (freduce_sum l2).
Proof.
  induction l1 as [|x l1 IH].
  - change (freduce_sum l2 = fadd (Fin 0) (freduce_sum l2)). now rewrite fadd_0_l.
  - change (fadd x (freduce_sum (l1 ++ l2))
            = fadd (fadd x (freduce_sum l1)) (freduce_sum l2)).
    now rewrite IH, fadd_assoc.
Qed.

Lemma freduce_sum_perm l1 l2 :
  Permutation l1 l2 -> freduce_sum l1 = freduce_sum l2.
Proof.
  induction 1 as [|x l1 l2 _ IH|x y l|l1 l2 l3 _ IH1 _ IH2].
  - reflexivity.
  - change (fadd x (freduce_sum l1) = fadd x (freduce_sum l2)). now rewrite IH.
  - change (fadd y (fadd x (freduce_sum l)) = fadd x (fadd y (freduce_sum l))).
    rewrite !fadd_assoc. f_equal. apply fadd_comm.
  - congruence.
Qed.

Lemma reduce_sum_app l1 l2 :
  reduce_sum (l1 ++ l2) = reduce_sum l1 + reduce_sum l2.
Proof. induction l1 as [|x l1 IH]; simpl; [ring|]. rewrite IH. ring. Qed.

Lemma reduce_sum_perm l1 l2 :
  Permutation l1 l2 -> reduce_sum l1 = reduce_sum l2.
Proof.
  induction 1 as [|x l1 l2 _ IH|x y l|l1 l2 l3 _ IH1 _ IH2]; simpl.
  - reflexivity.
  - now rewrite IH.
  - ring.
  - congruence.
Qed.

(** ** Loops over the images of a batch *)

Lemma nth_error_combine {X Y} (l1 : list X) (l2 : list Y) i :
  nth_error (combine l1 l2) i
  = (a <- nth_error l1 i ;; b <- nth_error l2 i ;; Some (a, b)).
Proof.
  revert l2 i. induction l1 as [|x l1 IH]; intros l2 i.
  - destruct i; reflexivity.
  - destruct l2 as [|y l2]; destruct i; simpl; try reflexivity.
    + destruct (nth_error l1 i); reflexivity.
    + apply IH.
Qed.

Lemma fold_left_None {X S} (step : S -> X -> option S) l :
  fold_left (fun st x => s <- st ;; step s x) l None = None.
Proof. induction l as [|x l IH]; simpl; auto. Qed.

(** A loop whose body raised stays without result. *)
Lemma fold_left_stuck {X S} (F : option S -> X -> option S) l :
  (forall x, F None x = None) -> fold_left F l None = None.
Proof. intros H. induction l as [|x l IH]; cbn [fold_left]; [reflexivity|]. now rewrite H. Qed.

(** A loop [for idx in tf.range(len(l))] that reads [l[idx]] is a fold over
    [l]. *)
Lemma loop_nth {X S} (step : S -> X -> option S) (pre l : list X) init :
  fold_left (fun st idx => s <- st ;; x <- nth_error (pre ++ l) idx ;; step s x)
            (seq (length pre) (length l)) init
  = fold_left (fun st x => s <- st ;; step s x) l init.
Proof.
  revert pre init. induction l as [|x l IH]; intros pre init; [reflexivity|].
  simpl. rewrite nth_error_app2 by lia. rewrite Nat.sub_diag. simpl.
  specialize (IH (pre ++ [x])). rewrite length_app, Nat.add_1_r in IH.
  rewrite <- app_assoc in IH. simpl in IH. apply IH.
Qed.

Lemma fold_left_ext {X S} (f g : S -> X -> S) l init :
  (forall s x, f s x = g s x) -> fold_left f l init = fold_left g l init.
Proof.
  intros H. revert init. induction l as [|x l IH]; intros init; simpl; [reflexivity|].
  now rewrite H, IH.
Qed.

Arguments fadd : simpl never.
Arguments fdiv : simpl never.
Arguments fmul : simpl never.
Arguments flog : simpl never.
Arguments fltb : simpl never.
Arguments ranks_below : simpl never.

(** ** Mask loss: the code against the reference form *)

Lemma column0_where1 i bs :
  column0 (where_from where0 i bs) = Some (concat (where_from where0 i bs)).
Proof.
  unfold column0. revert i. induction bs as [|b bs IH]; intros i; [reflexivity|].
  simpl. rewrite mapM_app, IH. destruct b; reflexivity.
Qed.

Lemma size_squeezed_of {X} (l : list X) : size_squeezed (squeezed_of l) = length l.
Proof. destruct l as [|x [|y l]]; reflexivity. Qed.

(** The squeeze of the positions followed by the expansion of a single
    gathered slice gathers the slices as a list. *)
Lemma gather_squeezed_expand {X} (t : list X) idxs r :
  gather t idxs = Some r ->
  exists g, gather_squeezed t (squeezed_of idxs) = Some g
            /\ expand_if_single (length idxs) g = Some r.
Proof.
  intros H. destruct idxs as [|i [|j idxs]].
  - simpl in *. inversion H. exists (Vector []). split; reflexivity.
  - unfold gather in H. simpl in *. destruct (nth_error t i); [|discriminate].
    simpl in H. inversion H. eexists. split; reflexivity.
  - cbn [squeezed_of gather_squeezed]. rewrite H. eexists. split; reflexivity.
Qed.

Lemma mapM_Some_in {A B} (f : A -> option B) (g : A -> B) l :
  (forall a, In a l -> f a = Some (g a)) -> mapM f l = Some (map g l).
Proof.
  intros H. rewrite <- mapM_total. now apply mapM_ext_in.
Qed.

Lemma matmul_transpose_b_char k (a : list (list (list R))) (b : list (list R)) :
  forallb (rows_of_length k) a = true -> rows_of_length k b = true ->
  matmul_transpose_b a b
  = Some (map (map (fun cell => map (dot_total cell) b)) a).
Proof.
  intros Ha Hb. unfold matmul_transpose_b.
  apply mapM_Some_in. intros row Hrow. apply mapM_Some_in. intros cell Hcell.
  apply mapM_Some_in. intros v Hv. unfold dot.
  rewrite forallb_forall in Ha.
  rewrite (rows_of_length_In _ _ _ (Ha _ Hrow) Hcell), (rows_of_length_In _ _ _ Hb Hv).
  now rewrite Nat.eqb_refl.
Qed.

Lemma map_seq_nth_error {X Y} (F : nat -> Y) (G : X -> Y) (pre l : list X) :
  (forall k x, nth_error (pre ++ l) k = Some x -> F k = G x) ->
  map F (seq (length pre) (length l)) = map G l.
Proof.
  revert pre. induction l as [|x l IH]; intros pre H; [reflexivity|].
  simpl. f_equal.
  - apply H. rewrite nth_error_app2 by lia. now rewrite Nat.sub_diag.
  - specialize (IH (pre ++ [x])). rewrite length_app, Nat.add_1_r in IH.
    apply IH. intros k y. rewrite <- app_assoc. apply H.
Qed.

Lemma pick_map {X Y W} (f : X -> Y -> W) (ys : list Y) k y (row : list X) :
  nth_error ys k = Some y ->
  pick k (map (fun cell => map (f cell) ys) row) = map (fun cell => f cell y) row.
Proof.
  intros H. unfold pick. induction row as [|c row IH]; simpl; [reflexivity|].
  rewrite nth_error_map, H. simpl. now rewrite IH.
Qed.

Lemma transpose_201_map {X Y W} (f : X -> Y -> W) (ys : list Y) (t : list (list X)) :
  (1 <= length t)%nat -> (1 <= length (hd [] t))%nat ->
  transpose_201 (map (map (fun cell => map (f cell) ys)) t)
  = map (fun y => map (map (fun cell => f cell y)) t) ys.
Proof.
  intros Ht Hr. unfold transpose_201.
  assert (E : length (hd [] (hd [] (map (map (fun cell => map (f cell) ys)) t)))
              = length ys).
  { destruct t as [|[|c row] t]; simpl in *; try lia. now rewrite length_map. }
  rewrite E. apply (map_seq_nth_error _ _ []). intros k y Hk. simpl in Hk.
  rewrite map_map. apply map_ext. intros row. now apply pick_map.
Qed.

Lemma gather_Z_char {X} (t : list X) (idx : list Z) d :
  Forall (fun i => (0 <= i < Z.of_nat (length t))%Z) idx ->
  gather_Z t idx = Some (map (fun i => nth (Z.to_nat i) t d) idx).
Proof.
  intros H. unfold gather_Z. apply mapM_Some_in. intros i Hi.
  rewrite Forall_forall in H. specialize (H i Hi). unfold index_Z.
  replace (Z.ltb i 0) with false by (symmetry; apply Z.ltb_ge; lia).
  apply nth_error_nth'. lia.
Qed.

Lemma last_two_product_char (t : list (list R)) :
  Forall (fun r => (2 <= length r)%nat) t ->
  last_two_product t = Some (map (fun r => nth 0 (rev r) 0 * nth 1 (rev r) 0) t).
Proof.
  intros H. unfold last_two_product. apply mapM_Some_in. intros r Hr.
  rewrite Forall_forall in H. specialize (H r Hr). rewrite <- length_rev in H.
  destruct (rev r) as [|x [|y l]]; simpl in *; try lia. reflexivity.
Qed.

Lemma zip_exact_char {X Y W} (f : X -> Y -> option W) (g : X * Y -> W) l1 l2 :
  length l1 = length l2 ->
  (forall p, In p (combine l1 l2) -> f (fst p) (snd p) = Some (g p)) ->
  zip_exact f l1 l2 = Some (map g (combine l1 l2)).
Proof.
  intros Hlen H. unfold zip_exact. rewrite Hlen, Nat.eqb_refl.
  now apply mapM_Some_in.
Qed.

Lemma sigmoid2_char (labels logits : list (list R)) h w :
  length labels = h -> rows_of_length w labels = true ->
  length logits = h -> rows_of_length w logits = true ->
  sigmoid_cross_entropy_with_logits2 labels logits
  = Some (map (fun r => map (fun q => sigmoid_xent (fst q) (snd q))
                            (combine (fst r) (snd r)))
              (combine labels logits)).
Proof.
  intros H1 H2 H3 H4. unfold sigmoid_cross_entropy_with_logits2.
  apply zip_exact_char; [congruence|]. intros (r1, r2) Hin. simpl.
  apply zip_exact_char; [|reflexivity].
  rewrite (rows_of_length_In _ _ _ H2 (in_combine_l _ _ _ _ Hin)).
  now rewrite (rows_of_length_In _ _ _ H4 (in_combine_r _ _ _ _ Hin)).
Qed.

Lemma broadcast2_same {X Y W} (f : X -> Y -> W) l1 l2 :
  length l1 = length l2 ->
  broadcast2 f l1 l2 = Some (map (fun p => f (fst p) (snd p)) (combine l1 l2)).
Proof. intros H. unfold broadcast2. now rewrite H, Nat.eqb_refl. Qed.

Lemma squeeze_column_where1 bs :
  squeeze_column (tf_where1 bs) = Some (squeezed_of (concat (tf_where1 bs))).
Proof.
  unfold squeeze_column, tf_where1. rewrite column0_where1. simpl.
  destruct (concat (where_from where0 0 bs)) as [|i [|j l]]; reflexivity.
Qed.

Lemma select_Forall {X} (P : X -> Prop) bs (xs : list X) :
  Forall (fun bx => fst bx = true -> P (snd bx)) (combine bs xs) ->
  Forall P (select bs xs).
Proof.
  revert xs. induction bs as [|b bs IH]; intros [|x xs] H; try constructor.
  rewrite select_cons. simpl in H. inversion H; subst.
  apply Forall_app. split; [|now apply IH].
  destruct b; constructor; auto.
Qed.

Lemma combine_map_l {X Y W} (f : X -> Y) (l1 : list X) (l2 : list W) :
  combine (map f l1) l2 = map (fun p => (f (fst p), snd p)) (combine l1 l2).
Proof.
  revert l2. induction l1 as [|x l1 IH]; intros [|y l2]; simpl; try reflexivity.
  now rewrite IH.
Qed.

Section MaskProofs.

Variable center_form : list R -> list R.
Variable inside_box : list R -> nat -> nat -> nat -> nat -> bool.

Lemma loss_mask_image_char proto mask_coef mask_gt bbox_norm pos max_id :
  mask_image_ok center_form (proto, (mask_coef, (mask_gt, (bbox_norm, (pos, max_id)))))
  = true ->
  loss_mask_image center_form inside_box proto mask_coef mask_gt bbox_norm pos max_id
  = Some (freduce_sum (image_mask_losses center_form inside_box
                         (proto, (mask_coef, (mask_gt, (bbox_norm, (pos, max_id)))))),
          length (image_mask_losses center_form inside_box
                    (proto, (mask_coef, (mask_gt, (bbox_norm, (pos, max_id))))))).
Proof.
  unfold mask_image_ok. rewrite !andb_true_iff.
  intros ((((((((((Hh & Hw) & Hrw) & Hk) & Hlc) & Hlm) & Hck) & Hgt) & Hlb) & Hcf) & Hid).
  apply Nat.leb_le in Hh, Hw. apply Nat.eqb_eq in Hlc, Hlm, Hlb.
  set (h := length proto) in *. set (w := length (hd [] proto)) in *.
  set (k := length (hd [] (hd [] proto))) in *.
  unfold loss_mask_image, image_mask_losses, mask_anchors.
  set (bs := equal1 pos 1).
  assert (Hbs : length bs = length pos) by (unfold bs, equal1; now rewrite length_map).
  set (A := select bs (combine mask_coef max_id)).
  assert (EC : select bs mask_coef = map fst A).
  { unfold A. rewrite <- select_map. now rewrite map_fst_combine_eq by congruence. }
  assert (EM : select bs max_id = map snd A).
  { unfold A. rewrite <- select_map. now rewrite map_snd_combine_eq by congruence. }
  rewrite squeeze_column_where1. cbn [bind].
  destruct (gather_squeezed_expand mask_coef (concat (tf_where1 bs)) (r := map fst A))
    as (g1 & Hg1 & He1).
  { rewrite <- EC. apply gather_positions. congruence. }
  destruct (gather_squeezed_expand max_id (concat (tf_where1 bs)) (r := map snd A))
    as (g2 & Hg2 & He2).
  { rewrite <- EM. apply gather_positions. congruence. }
  rewrite Hg1, Hg2. cbn [bind]. rewrite size_squeezed_of, He1, He2. cbn [bind].
  (* the predicted masks *)
  rewrite matmul_transpose_b_char with (k := k); [|assumption|].
  2:{ unfold rows_of_length. apply forallb_forall. intros c Hc. apply Nat.eqb_eq.
      rewrite <- EC in Hc. apply select_In in Hc.
      exact (rows_of_length_In _ _ _ Hck Hc). }
  cbn [bind]. rewrite transpose_201_map by assumption.
  (* the masks and boxes of the matched objects *)
  assert (Hvalid : Forall (fun i => (0 <= i < Z.of_nat (length mask_gt))%Z) (map snd A)).
  { rewrite <- EM. apply select_Forall. unfold bs, equal1. rewrite combine_map_l.
    apply Forall_forall. intros bx Hbx. apply in_map_iff in Hbx.
    destruct Hbx as (pm & <- & Hpm). simpl. intros Hone.
    rewrite forallb_forall in Hid. specialize (Hid pm Hpm).
    rewrite Hone in Hid. simpl in Hid. apply andb_true_iff in Hid. lia. }
  rewrite (gather_Z_char mask_gt [] Hvalid). cbn [bind].
  rewrite (gather_Z_char bbox_norm []) by now rewrite Hlb. cbn [bind].
  unfold map_to_center_form. rewrite !map_map.
  rewrite last_two_product_char.
  2:{ apply Forall_forall. intros c Hc. apply in_map_iff in Hc.
      destruct Hc as (a & <- & Ha). rewrite Forall_forall in Hvalid.
      specialize (Hvalid (snd a) (in_map snd _ _ Ha)).
      rewrite forallb_forall in Hcf. apply Nat.leb_le. apply Hcf.
      apply nth_In. lia. }
  cbn [bind]. rewrite map_map.
  unfold sigmoid_cross_entropy_with_logits3.
  rewrite zip_exact_char with
    (g := fun p => map (fun r => map (fun q => sigmoid_xent (fst q) (snd q))
                                     (combine (fst r) (snd r)))
                       (combine (fst p) (snd p))).
  2:{ now rewrite !length_map. }
  2:{ intros (gt, pr) Hin. rewrite combine_map_both in Hin.
      apply in_map_iff in Hin. destruct Hin as (a & E & Ha). inversion E; subst. simpl.
      rewrite Forall_forall in Hvalid.
      specialize (Hvalid (snd a) (in_map snd _ _ Ha)).
      assert (Hm : In (nth (Z.to_nat (snd a)) mask_gt []) mask_gt) by (apply nth_In; lia).
      rewrite forallb_forall in Hgt. specialize (Hgt _ Hm).
      apply andb_true_iff in Hgt. destruct Hgt as [Hgh Hgw]. apply Nat.eqb_eq in Hgh.
      apply sigmoid2_char with (h := h) (w := w); try assumption.
      - now rewrite length_map.
      - unfold rows_of_length. apply forallb_forall. intros r Hr.
        apply in_map_iff in Hr. destruct Hr as (r' & <- & Hr').
        rewrite length_map. apply Nat.eqb_eq.
        exact (rows_of_length_In _ _ _ Hrw Hr'). }
  cbn [bind].
  rewrite broadcast2_same.
  2:{ unfold crop. repeat (rewrite ?length_map, ?length_combine). lia. }
  cbn [bind]. rewrite !length_map.
  assert (Hsize : length (concat (tf_where1 bs)) = length A).
  { rewrite <- (length_map fst A), <- EC.
    symmetry. apply (mapM_length (nth_error mask_coef)).
    apply gather_positions. congruence. }
  rewrite Hsize. f_equal. f_equal. f_equal.
  unfold crop. repeat (rewrite combine_map_both || rewrite map_map).
  reflexivity.
Qed.

Lemma mask_loop_step protonet_output pred_mask_coef gt_bbox_norm gt_masks positiveness
    max_id_for_anchors (state : option (tfloat * nat)) idx :
  ('(loss_mask, total_pos) <- state ;;
   proto <- nth_error protonet_output idx ;;
   mask_coef <- nth_error pred_mask_coef idx ;;
   mask_gt <- nth_error gt_masks idx ;;
   bbox_norm <- nth_error gt_bbox_norm idx ;;
   pos <- nth_error positiveness idx ;;
   max_id <- nth_error max_id_for_anchors idx ;;
   '(loss, size) <- loss_mask_image center_form inside_box proto mask_coef mask_gt
                                    bbox_norm pos max_id ;;
   Some (fadd loss_mask loss, (total_pos + size)%nat))
  = (s <- state ;;
     im <- nth_error (mask_images protonet_output pred_mask_coef gt_bbox_norm gt_masks
                                  positiveness max_id_for_anchors) idx ;;
     mask_step center_form inside_box s im).
Proof.
  destruct state as [[lm tp]|]; [|reflexivity]. cbn [bind].
  unfold mask_images.
  rewrite nth_error_combine.
  destruct (nth_error protonet_output idx); [|reflexivity]. cbn [bind].
  rewrite nth_error_combine.
  destruct (nth_error pred_mask_coef idx); [|reflexivity]. cbn [bind].
  rewrite nth_error_combine.
  destruct (nth_error gt_masks idx); [|reflexivity]. cbn [bind].
  rewrite nth_error_combine.
  destruct (nth_error gt_bbox_norm idx); [|reflexivity]. cbn [bind].
  rewrite nth_error_combine.
  destruct (nth_error positiveness idx); [|reflexivity]. cbn [bind].
  destruct (nth_error max_id_for_anchors idx); reflexivity.
Qed.

Lemma mask_fold_char (ims : list mask_image) acc n :
  forallb (mask_image_ok center_form) ims = true ->
  fold_left (fun st im => s <- st ;; mask_step center_form inside_box s im) ims (Some (acc, n))
  = Some (fadd acc (freduce_sum (concat (map (image_mask_losses center_form inside_box) ims))),
          (n + length (concat (map (image_mask_losses center_form inside_box) ims)))%nat).
Proof.
  revert acc n. induction ims as [|im ims IH]; intros acc n H.
  - simpl. now rewrite fadd_0_r, Nat.add_0_r.
  - simpl in H. apply andb_true_iff in H. destruct H as [Him H].
    cbn [fold_left bind map concat].
    destruct im as (proto, (mask_coef, (mask_gt, (bbox_norm, (pos, max_id))))).
    unfold mask_step at 2.
    rewrite loss_mask_image_char by assumption. cbn [bind fst snd].
    rewrite IH by assumption.
    rewrite freduce_sum_app, length_app, fadd_assoc, Nat.add_assoc. reflexivity.
Qed.

(** On a well-shaped batch [_loss_mask] is the sum of the losses of all
    positive anchors over their number. *)
Lemma loss_mask_char protonet_output pred_mask_coef gt_bbox_norm gt_masks positiveness
    max_id_for_anchors max_masks_for_train :
  mask_batch_ok center_form protonet_output pred_mask_coef gt_bbox_norm gt_masks
                positiveness max_id_for_anchors = true ->
  _loss_mask center_form inside_box protonet_output pred_mask_coef gt_bbox_norm gt_masks
             positiveness max_id_for_anchors max_masks_for_train
  = Some (mask_loss_reference center_form inside_box protonet_output pred_mask_coef
                              gt_bbox_norm gt_masks positiveness max_id_for_anchors).
Proof.
  unfold mask_batch_ok. rewrite !andb_true_iff.
  intros (((((H1 & H2) & H3) & H4) & H5) & Hok).
  apply Nat.eqb_eq in H1, H2, H3, H4, H5.
  unfold _loss_mask, mask_loss_reference.
  set (ims := mask_images protonet_output pred_mask_coef gt_bbox_norm gt_masks
                          positiveness max_id_for_anchors) in *.
  assert (Hlen : length protonet_output = length ims).
  { unfold ims, mask_images. rewrite !length_combine. lia. }
  rewrite Hlen.
  rewrite fold_left_ext with
    (g := fun st idx => s <- st ;; im <- nth_error ([] ++ ims) idx ;; mask_step center_form inside_box s im).
  2:{ intros st idx. apply mask_loop_step. }
  rewrite (loop_nth (mask_step center_form inside_box) [] ims).
  rewrite mask_fold_char by assumption. cbn [bind].
  now rewrite fadd_0_l.
Qed.

End MaskProofs.

(** ** Segmentation loss: resizing the masks *)

Lemma resize_axis_bounds in_size out_size i :
  (1 <= in_size)%nat -> (1 <= out_size)%nat -> (i < out_size)%nat ->
  let '(lower, upper, lerp) := resize_axis in_size out_size i in
  (lower < in_size)%nat /\ (upper < in_size)%nat /\ 0 <= lerp < 1.
Proof.
  intros Hin Hout Hi. unfold resize_axis.
  set (num := ((2 * Z.of_nat i + 1) * Z.of_nat in_size - Z.of_nat out_size)%Z).
  set (den := (2 * Z.of_nat out_size)%Z).
  assert (Hden : (0 < den)%Z) by (unfold den; lia).
  assert (Hnum : (num < den * Z.of_nat in_size)%Z) by (unfold num, den; nia).
  assert (Hfl : (num / den < Z.of_nat in_size)%Z) by (apply Z.div_lt_upper_bound; lia).
  pose proof (Z.mod_pos_bound num den Hden) as Hmod.
  repeat split.
  - lia.
  - lia.
  - apply Rmult_le_pos; [apply IZR_le; lia|].
    apply Rlt_le, Rinv_0_lt_compat, IZR_lt; lia.
  - apply Rmult_lt_reg_r with (r := IZR den); [apply IZR_lt; lia|].
    unfold Rdiv. rewrite Rmult_assoc, Rinv_l, Rmult_1_r, Rmult_1_l.
    + apply IZR_lt. lia.
    + apply not_0_IZR. lia.
Qed.

Lemma nth_expand_dims2 (m : list (list R)) y x :
  (y < length m)%nat -> (x < length (nth y m []))%nat ->
  nth x (nth y (expand_dims2 m) []) [] = [nth x (nth y m []) 0].
Proof.
  intros Hy Hx. unfold expand_dims2.
  change (nth y (map (@expand_dims1 R) m) [])
    with (nth y (map (@expand_dims1 R) m) (expand_dims1 [])).
  rewrite map_nth. unfold expand_dims1.
  rewrite nth_indep with (d' := (fun v : R => [v]) 0) by now rewrite length_map.
  now rewrite (map_nth (fun v : R => [v])).
Qed.

Lemma rows_of_length_nth {X} n (t : list (list X)) y :
  rows_of_length n t = true -> (y < length t)%nat -> length (nth y t []) = n.
Proof.
  intros H Hy. eapply rows_of_length_In; [exact H|]. now apply nth_In.
Qed.

(** The resize of a mask with one channel is the bilinear value of every
    output pixel. *)
Lemma resize_image_char out_h out_w (m : list (list R)) :
  (1 <= length m)%nat -> (1 <= length (hd [] m))%nat ->
  rows_of_length (length (hd [] m)) m = true ->
  (1 <= out_h)%nat -> (1 <= out_w)%nat ->
  resize_image out_h out_w (expand_dims2 m)
  = map (fun y => map (fun x => [bilinear_value out_h out_w m y x]) (seq 0 out_w))
        (seq 0 out_h).
Proof.
  intros Hh Hw Hrows Hoh How. unfold resize_image.
  assert (E1 : length (expand_dims2 m) = length m)
    by (unfold expand_dims2; now rewrite length_map).
  assert (E2 : length (hd [] (expand_dims2 m)) = length (hd [] m)).
  { destruct m; simpl; [reflexivity|]. unfold expand_dims1. now rewrite length_map. }
  rewrite E1, E2.
  apply map_ext_in. intros y Hy. apply in_seq in Hy.
  pose proof (@resize_axis_bounds (length m) out_h y Hh Hoh (proj2 Hy)) as By.
  unfold bilinear_value.
  destruct (resize_axis (length m) out_h y) as ((yl, yu), yt).
  destruct By as (Byl & Byu & _).
  apply map_ext_in. intros x Hx. apply in_seq in Hx.
  pose proof (@resize_axis_bounds (length (hd [] m)) out_w x Hw How (proj2 Hx)) as Bx.
  destruct (resize_axis (length (hd [] m)) out_w x) as ((xl, xu), xt).
  destruct Bx as (Bxl & Bxu & _).
  assert (Ryl : length (nth yl m []) = length (hd [] m))
    by (eapply rows_of_length_nth; eassumption).
  assert (Ryu : length (nth yu m []) = length (hd [] m))
    by (eapply rows_of_length_nth; eassumption).
  rewrite !nth_expand_dims2 by (try assumption; rewrite ?Ryl, ?Ryu; assumption).
  reflexivity.
Qed.

Lemma resized_mask_char s (m : list (list R)) :
  (1 <= length m)%nat -> (1 <= length (hd [] m))%nat ->
  rows_of_length (length (hd [] m)) m = true -> (1 <= s)%nat ->
  resized_mask s m
  = map (fun y => map (fun x => IZR (cast_int64 (bilinear_value s s m y x + 1 / 2)))
                      (seq 0 s))
        (seq 0 s).
Proof.
  intros Hh Hw Hrows Hs. unfold resized_mask.
  rewrite resize_image_char by assumption.
  rewrite !map_map. apply map_ext. intros y. rewrite !map_map.
  induction (seq 0 s) as [|x l IH]; [reflexivity|].
  simpl in *. now rewrite IH.
Qed.

Unset Implicit Arguments.

(** ** Segmentation loss: the target map *)

Lemma resized_mask_shape s (m : list (list R)) :
  (1 <= length m)%nat -> (1 <= length (hd [] m))%nat ->
  rows_of_length (length (hd [] m)) m = true -> (1 <= s)%nat ->
  length (resized_mask s m) = s /\ rows_of_length s (resized_mask s m) = true.
Proof.
  intros Hh Hw Hrows Hs. rewrite resized_mask_char by assumption.
  split; [now rewrite length_map, length_seq|].
  unfold rows_of_length. apply forallb_forall. intros r Hr.
  apply in_map_iff in Hr. destruct Hr as (y & <- & _).
  rewrite length_map, length_seq. apply Nat.eqb_refl.
Qed.

Lemma length_hd_expand_dims2 {X} (m : list (list X)) :
  length (hd [] (expand_dims2 m)) = length (hd [] m).
Proof. destruct m; simpl; [reflexivity|]. unfold expand_dims1. now rewrite length_map. Qed.

(** The resized, rounded and squeezed masks of an image. *)
Lemma resized_masks_char s (masks : list (list (list R))) :
  (1 <= s)%nat -> s <> 1%nat -> length masks <> 1%nat ->
  forallb (fun m => Nat.leb 1 (length m) && Nat.leb 1 (length (hd [] m))
                    && rows_of_length (length (hd [] m)) m) masks = true ->
  (masks4 <- resize_bilinear s s (expand_dims3 masks) ;;
   squeeze_masks s
     (map (map (map (map IZR)))
          (map (map (map (map (fun x => cast_int64 (x + 1 / 2))))) masks4)))
  = Some (map (resized_mask s) masks).
Proof.
  intros Hs Hs1 Hm1 Hok. unfold resize_bilinear.
  replace (Nat.eqb s 0) with false by (symmetry; apply Nat.eqb_neq; lia).
  cbn [orb]. unfold expand_dims3. rewrite mapM_map.
  rewrite mapM_Some_in with (g := fun m => resize_image s s (expand_dims2 m)).
  2:{ intros m Hm. rewrite forallb_forall in Hok. specialize (Hok m Hm).
      rewrite !andb_true_iff in Hok. destruct Hok as ((H1 & H2) & _).
      apply Nat.leb_le in H1, H2.
      rewrite length_hd_expand_dims2. unfold expand_dims2 at 1. rewrite length_map.
      replace (Nat.eqb (length m) 0) with false by (symmetry; apply Nat.eqb_neq; lia).
      replace (Nat.eqb (length (hd [] m)) 0) with false
        by (symmetry; apply Nat.eqb_neq; lia).
      reflexivity. }
  cbn [bind]. unfold squeeze_masks. rewrite !length_map.
  replace (Nat.eqb (length masks) 1) with false by (symmetry; now apply Nat.eqb_neq).
  replace (Nat.eqb s 1) with false by (symmetry; now apply Nat.eqb_neq).
  cbn [orb]. rewrite !map_map. reflexivity.
Qed.

Lemma pick_zeros k (row : list (list R)) n :
  (k < n)%nat -> Forall (fun c => length c = n) row ->
  pick k (map (map (fun _ => 0)) row) = repeat 0 (length row).
Proof.
  intros Hk H. unfold pick. induction H as [|c row Hc H IH]; [reflexivity|].
  simpl. rewrite IH.
  destruct (nth_error (map (fun _ : R => 0) c) k) eqn:E.
  - apply nth_error_In in E. apply in_map_iff in E. now destruct E as (? & <- & _).
  - apply nth_error_None in E. rewrite length_map in E. lia.
Qed.

Lemma repeat_seq {X} (b : X) start n : repeat b n = map (fun _ => b) (seq start n).
Proof. revert start. induction n as [|n IH]; intros start; simpl; [reflexivity|]. now rewrite <- IH. Qed.

(** The transposed empty ground truth: one zero map per class. *)
Lemma transpose_201_zeros (seg : list (list (list R))) s depth :
  (1 <= s)%nat -> length seg = s -> rows_of_length s seg = true ->
  length (hd [] (hd [] seg)) = depth -> forallb (rows_of_length depth) seg = true ->
  transpose_201 (zeros_like seg) = repeat (repeat (repeat 0 s) s) depth.
Proof.
  intros Hs Hlen Hrows Hd Hcells. unfold transpose_201.
  assert (E : length (hd [] (hd [] (zeros_like seg))) = depth).
  { unfold zeros_like. destruct seg as [|[|c row] seg].
    - simpl in Hlen. lia.
    - simpl in Hrows. destruct s; [lia | discriminate].
    - simpl in *. now rewrite length_map. }
  rewrite E.
  rewrite (repeat_seq (repeat (repeat 0 s) s) 0 depth).
  apply map_ext_in. intros k Hk. apply in_seq in Hk.
  unfold zeros_like. rewrite map_map.
  rewrite <- Hlen at 2. rewrite <- map_const. apply map_ext_in. intros row Hrow.
  rewrite (pick_zeros k row depth); [|lia|].
  - now rewrite (rows_of_length_In _ _ _ Hrows Hrow).
  - apply Forall_forall. intros c Hc. rewrite forallb_forall in Hcells.
    exact (rows_of_length_In _ _ _ (Hcells _ Hrow) Hc).
Qed.

Lemma pick_nth {X} k (cells : list (list X)) d :
  Forall (fun c => (k < length c)%nat) cells ->
  pick k cells = map (fun c => nth k c d) cells.
Proof.
  unfold pick. induction 1 as [|c cells Hc H IH]; [reflexivity|].
  simpl. rewrite IH. now rewrite (nth_error_nth' c d Hc).
Qed.

Lemma same_shape2_true {X} h w (a b : list (list X)) :
  has_shape2 h w a -> has_shape2 h w b -> same_shape2 a b = true.
Proof.
  intros [Ha1 Ha2] [Hb1 Hb2]. unfold same_shape2.
  rewrite Ha1, Hb1, Nat.eqb_refl. simpl. apply forallb_forall. intros (r1, r2) Hin.
  simpl. rewrite (rows_of_length_In _ _ _ Ha2 (in_combine_l _ _ _ _ Hin)).
  rewrite (rows_of_length_In _ _ _ Hb2 (in_combine_r _ _ _ _ Hin)).
  apply Nat.eqb_refl.
Qed.

Lemma transpose_120_char (chs : list (list (list R))) s :
  (1 <= length chs)%nat -> (1 <= s)%nat -> Forall (has_shape2 s s) chs ->
  transpose_120 chs
  = map (fun i => map (fun j => map (fun ch => nth j (nth i ch []) 0) chs) (seq 0 s))
        (seq 0 s).
Proof.
  intros Hc Hs Hsh. unfold transpose_120.
  assert (E1 : length (hd [] chs) = s).
  { destruct chs as [|ch chs]; [simpl in Hc; lia|].
    apply Forall_inv in Hsh. exact (proj1 Hsh). }
  assert (E2 : length (hd [] (hd [] chs)) = s).
  { destruct chs as [|ch chs]; [simpl in Hc; lia|].
    apply Forall_inv in Hsh. destruct Hsh as [Hh1 Hh2].
    destruct ch as [|r ch]; [simpl in Hh1; lia|].
    simpl. eapply rows_of_length_In; [exact Hh2 | now left]. }
  rewrite E1, E2. apply map_ext_in. intros i Hi. apply in_seq in Hi.
  apply map_ext_in. intros j Hj. apply in_seq in Hj.
  rewrite (pick_nth i chs []).
  2:{ eapply Forall_impl; [|exact Hsh]. intros ch [H1 _]. simpl. lia. }
  rewrite (pick_nth j _ 0).
  2:{ apply Forall_forall. intros r Hr. apply in_map_iff in Hr.
      destruct Hr as (ch & <- & Hch). rewrite Forall_forall in Hsh.
      destruct (Hsh ch Hch) as [H1 H2].
      pose proof (@rows_of_length_nth _ s ch i H2 ltac:(lia)) as E. simpl. rewrite E. lia. }
  now rewrite map_map.
Qed.

Lemma nth_replace_nth {X} (t : list X) c c' x d :
  (c < length t)%nat ->
  nth c' (replace_nth c x t) d = if Nat.eqb c c' then x else nth c' t d.
Proof.
  revert c c'. induction t as [|y t IH]; intros c c' Hc; [simpl in Hc; lia|].
  destruct c, c'; simpl; try reflexivity.
  apply IH. simpl in Hc. lia.
Qed.

Lemma length_replace_nth {X} (t : list X) c x : length (replace_nth c x t) = length t.
Proof.
  revert c. induction t as [|y t IH]; intros c; [destruct c; reflexivity|].
  destruct c; simpl; [reflexivity|]. now rewrite IH.
Qed.

Lemma Forall_replace_nth {X} (P : X -> Prop) (t : list X) c x :
  Forall P t -> P x -> Forall P (replace_nth c x t).
Proof.
  intros H Hx. revert c. induction H as [|y t Hy H IH]; intros c;
    [destruct c; constructor|].
  destruct c; simpl; constructor; auto.
Qed.

(** The scatter, update after update: a slice ends as the last update
    written to it, or as it was. *)
Lemma scatter_fold_char h w (upd : list (Z * list (list R))) (t : list (list (list R))) :
  Forall (has_shape2 h w) t ->
  Forall (fun p => (0 <= fst p < Z.of_nat (length t))%Z /\ has_shape2 h w (snd p)) upd ->
  fold_left
    (fun acc p =>
       t <- acc ;;
       old <- index_Z t (fst p) ;;
       if same_shape2 old (snd p) then Some (replace_nth (Z.to_nat (fst p)) (snd p) t)
       else None)
    upd (Some t)
  = Some (map (fun c => fold_left (fun acc p => if Z.eqb (fst p) (Z.of_nat c)
                                                then snd p else acc)
                                  upd (nth c t []))
              (seq 0 (length t))).
Proof.
  intros Ht Hu. revert t Ht Hu. induction upd as [|(c, m) upd IH]; intros t Ht Hu.
  - simpl. f_equal.
    pose proof (@map_seq_nth_error _ _ (fun c => nth c t []) (fun x => x) [] t) as E.
    simpl in E. rewrite E.
    + now rewrite map_id.
    + intros k x Hk. now apply nth_error_nth.
  - cbn [fold_left bind fst snd]. inversion Hu as [|? ? [Hc Hm] Hu']; subst. simpl in Hc.
    unfold index_Z.
    replace (Z.ltb c 0) with false by (symmetry; apply Z.ltb_ge; lia).
    rewrite (nth_error_nth' t [] (n := Z.to_nat c)) by lia. cbn [bind].
    rewrite (same_shape2_true h w); [|
      rewrite Forall_forall in Ht; apply Ht, nth_In; lia | assumption].
    rewrite IH.
    + rewrite length_replace_nth. f_equal. apply map_ext_in. intros c' Hc'.
      apply in_seq in Hc'. rewrite nth_replace_nth by lia.
      f_equal. destruct (Nat.eqb_spec (Z.to_nat c) c') as [E|E].
      * replace (Z.eqb c (Z.of_nat c')) with true by (symmetry; apply Z.eqb_eq; lia).
        reflexivity.
      * replace (Z.eqb c (Z.of_nat c')) with false by (symmetry; apply Z.eqb_neq; lia).
        reflexivity.
    + now apply Forall_replace_nth.
    + rewrite length_replace_nth. exact Hu'.
Qed.

Lemma last_index_from_ge c i l k : last_index_from c i l = Some k -> (i <= k)%nat.
Proof.
  revert i. induction l as [|x l IH]; intros i H; simpl in H; [discriminate|].
  destruct (last_index_from c (S i) l) eqn:E.
  - inversion H; subst. apply IH in E. lia.
  - destruct (Z.eqb x c); inversion H; subst. lia.
Qed.

(** Overwriting in order leaves the update of the last matching index. *)
Lemma fold_overwrite_last {X} c i (cls : list Z) (ms : list X) init d :
  length cls = length ms ->
  fold_left (fun acc p => if Z.eqb (fst p) c then snd p else acc) (combine cls ms) init
  = match last_index_from c i cls with
    | Some k => nth (k - i) ms d
    | None => init
    end.
Proof.
  revert i ms init. induction cls as [|x cls IH]; intros i [|m ms] init Hlen;
    try discriminate; [reflexivity|].
  cbn [combine fold_left fst snd last_index_from].
  rewrite (IH (S i)) by (simpl in Hlen; lia).
  destruct (last_index_from c (S i) cls) eqn:E.
  - apply last_index_from_ge in E.
    replace (n - i)%nat with (S (n - S i)) by lia. reflexivity.
  - destruct (Z.eqb x c); [|reflexivity]. now rewrite Nat.sub_diag.
Qed.

Lemma fold_left_map {X Y S} (f : S -> Y -> S) (g : X -> Y) l init :
  fold_left f (map g l) init = fold_left (fun a x => f a (g x)) l init.
Proof. revert init. induction l as [|x l IH]; intros init; simpl; auto. Qed.

Lemma last_index_from_lt c i l k :
  last_index_from c i l = Some k -> (k < i + length l)%nat.
Proof.
  revert i. induction l as [|x l IH]; intros i H; simpl in H; [discriminate|].
  destruct (last_index_from c (S i) l) eqn:E.
  - inversion H; subst. apply IH in E. simpl. lia.
  - destruct (Z.eqb x c); inversion H; subst. simpl. lia.
Qed.

Lemma In_firstn {X} n (l : list X) x : In x (firstn n l) -> In x l.
Proof.
  intros H. rewrite <- (firstn_skipn n l). apply in_or_app. now left.
Qed.

Lemma nth_repeat_lt {X} (x d : X) n i : (i < n)%nat -> nth i (repeat x n) d = x.
Proof.
  revert i. induction n as [|n IH]; intros i H; [lia|].
  destruct i; simpl; [reflexivity|]. apply IH. lia.
Qed.

Lemma has_shape2_zeros s : has_shape2 s s (repeat (repeat 0 s) s).
Proof.
  split; [apply repeat_length|]. unfold rows_of_length. apply forallb_forall.
  intros r Hr. apply repeat_spec in Hr. subst. rewrite repeat_length. apply Nat.eqb_refl.
Qed.

(** The target map built by the code is the target map of the reference
    form. *)
Lemma seg_gt_image_char s seg masks cls objects :
  seg_image_ok s (seg, (masks, (cls, objects))) = true ->
  seg_gt_image s seg masks cls objects
  = Some (seg_target_reference s (length (hd [] (hd [] seg))) masks cls objects).
Proof.
  unfold seg_image_ok. rewrite !andb_true_iff.
  intros (((((((((Hs2 & Hlen) & Hrows) & Hd) & Hcells) & Hm1) & Hmasks) & Hcl) & Hobj) & Hcls).
  apply Nat.leb_le in Hs2, Hd. apply Nat.eqb_eq in Hlen, Hcl.
  apply negb_true_iff, Nat.eqb_neq in Hm1. apply Z.leb_le in Hobj.
  set (depth := length (hd [] (hd [] seg))) in *.
  unfold seg_gt_image.
  pose proof (resized_masks_char s masks ltac:(lia) ltac:(lia) Hm1 Hmasks) as HR.
  destruct (resize_bilinear s s (expand_dims3 masks)) as [m4|]; [|discriminate HR].
  cbn [bind] in *. rewrite HR. cbn [bind].
  rewrite (transpose_201_zeros seg s depth) by (auto; lia).
  set (ms := map (resized_mask s) masks).
  assert (Hsl : forall X (l : list X), slice_to objects l = firstn (Z.to_nat objects) l).
  { intros X l. unfold slice_to.
    replace (Z.leb 0 objects) with true by (symmetry; now apply Z.leb_le). reflexivity. }
  rewrite !Hsl in *. set (n := Z.to_nat objects) in *.
  assert (Hlens : length (firstn n cls) = length (firstn n ms)).
  { unfold ms. rewrite !length_firstn, length_map. lia. }
  assert (Hhd : length (hd [] seg) = s).
  { destruct seg as [|row seg']; [simpl in Hlen; lia|].
    apply (rows_of_length_In _ _ _ Hrows). now left. }
  unfold tensor_scatter_nd_update, expand_dims1. cbn [fst snd].
  rewrite Hlen, Hhd, length_map, Hlens, !Nat.eqb_refl. cbn [andb].
  rewrite combine_map_l, fold_left_map.
  assert (Hms : Forall (has_shape2 s s) ms).
  { unfold ms. apply Forall_forall. intros m Hm. apply in_map_iff in Hm.
    destruct Hm as (m0 & <- & Hm0). rewrite forallb_forall in Hmasks.
    specialize (Hmasks m0 Hm0). rewrite !andb_true_iff in Hmasks.
    destruct Hmasks as ((H1 & H2) & H3). apply Nat.leb_le in H1, H2.
    apply resized_mask_shape; auto; lia. }
  rewrite fold_left_ext with
    (g := fun acc p =>
            t <- acc ;;
            old <- index_Z t (fst p) ;;
            if same_shape2 old (snd p) then Some (replace_nth (Z.to_nat (fst p)) (snd p) t)
            else None)
    by (intros [t|] p; reflexivity).
  rewrite (scatter_fold_char s s).
  2:{ apply Forall_forall. intros ch Hch. apply repeat_spec in Hch. subst.
      apply has_shape2_zeros. }
  2:{ apply Forall_forall. intros (c, m) Hin. simpl. rewrite repeat_length. split.
      - rewrite forallb_forall in Hcls. apply in_combine_l in Hin.
        specialize (Hcls c Hin). apply andb_true_iff in Hcls. lia.
      - apply in_combine_r in Hin. rewrite Forall_forall in Hms. apply Hms.
        now apply (In_firstn n). }
  cbn [bind]. rewrite repeat_length. f_equal.
  rewrite (transpose_120_char _ s).
  2:{ rewrite length_map, length_seq. lia. }
  2:{ lia. }
  2:{ apply Forall_forall. intros ch Hch. apply in_map_iff in Hch.
      destruct Hch as (c & <- & Hc). apply in_seq in Hc.
      rewrite (fold_overwrite_last _ 0 _ _ _ []) by assumption.
      destruct (last_index_from (Z.of_nat c) 0 (firstn n cls)) as [k|] eqn:E.
      - apply last_index_from_lt in E. rewrite Forall_forall in Hms. apply Hms.
        apply (In_firstn n). apply nth_In. rewrite <- Hlens. lia.
      - rewrite nth_repeat_lt by lia. apply has_shape2_zeros. }
  unfold seg_target_reference. rewrite Hsl. fold n.
  apply map_ext_in. intros i Hi. apply in_seq in Hi.
  apply map_ext_in. intros j Hj. apply in_seq in Hj.
  rewrite map_map. apply map_ext_in. intros c Hc. apply in_seq in Hc.
  rewrite (fold_overwrite_last _ 0 _ _ _ []) by assumption.
  destruct (last_index_from (Z.of_nat c) 0 (firstn n cls)) as [k|] eqn:E.
  - apply last_index_from_lt in E. rewrite Nat.sub_0_r.
    rewrite length_firstn in E.
    rewrite nth_firstn. replace (Nat.ltb k n) with true by (symmetry; apply Nat.ltb_lt; lia).
    unfold ms. rewrite nth_indep with (d' := resized_mask s []) by (rewrite length_map; lia).
    now rewrite map_nth.
  - rewrite nth_repeat_lt by lia. rewrite !nth_repeat_lt by lia. reflexivity.
Qed.

(** ** Segmentation loss: the code against the reference form *)

Lemma seg_step_char s acc seg masks cls objects :
  seg_image_ok s (seg, (masks, (cls, objects))) = true ->
  seg_step s acc (seg, (masks, (cls, objects)))
  = Some (acc + seg_image_loss s (seg, (masks, (cls, objects)))).
Proof.
  intros Hok. unfold seg_step. rewrite seg_gt_image_char by assumption. cbn [bind].
  unfold seg_image_ok in Hok. rewrite !andb_true_iff in Hok.
  destruct Hok as (((((((((Hs2 & Hlen) & Hrows) & Hd) & Hcells) & _) & _) & _) & _) & _).
  apply Nat.eqb_eq in Hlen.
  set (depth := length (hd [] (hd [] seg))) in *.
  unfold sigmoid_cross_entropy_with_logits3.
  rewrite zip_exact_char with
    (g := fun p => map (fun r => map (fun q => sigmoid_xent (fst q) (snd q))
                                     (combine (fst r) (snd r)))
                       (combine (fst p) (snd p))).
  - reflexivity.
  - unfold seg_target_reference. now rewrite length_map, length_seq.
  - intros (t, g) Hin. simpl.
    pose proof (in_combine_l _ _ _ _ Hin) as Ht.
    pose proof (in_combine_r _ _ _ _ Hin) as Hg.
    unfold seg_target_reference in Ht. apply in_map_iff in Ht.
    destruct Ht as (i & <- & _).
    apply sigmoid2_char with (h := s) (w := depth).
    + now rewrite length_map, length_seq.
    + unfold rows_of_length. apply forallb_forall. intros r Hr.
      apply in_map_iff in Hr. destruct Hr as (j & <- & _).
      rewrite length_map, length_seq. apply Nat.eqb_refl.
    + exact (rows_of_length_In _ _ _ Hrows Hg).
    + rewrite forallb_forall in Hcells. now apply Hcells.
Qed.

Lemma seg_loop_step pred_seg mask_gt classes num_obj seg_shape (state : option R) idx :
  (loss_seg <- state ;;
   seg <- nth_error pred_seg idx ;;
   masks <- nth_error mask_gt idx ;;
   cls <- nth_error classes idx ;;
   objects <- nth_error num_obj idx ;;
   seg_gt <- seg_gt_image seg_shape seg masks cls objects ;;
   s <- sigmoid_cross_entropy_with_logits3 seg_gt seg ;;
   Some (loss_seg + reduce_sum3 s))
  = (acc <- state ;;
     im <- nth_error (seg_images pred_seg mask_gt classes num_obj) idx ;;
     seg_step seg_shape acc im).
Proof.
  destruct state as [acc|]; [|reflexivity]. cbn [bind]. unfold seg_images.
  rewrite nth_error_combine.
  destruct (nth_error pred_seg idx); [|reflexivity]. cbn [bind].
  rewrite nth_error_combine.
  destruct (nth_error mask_gt idx); [|reflexivity]. cbn [bind].
  rewrite nth_error_combine.
  destruct (nth_error classes idx); [|reflexivity]. cbn [bind].
  destruct (nth_error num_obj idx); reflexivity.
Qed.

Lemma seg_fold_char s (ims : list seg_image) acc :
  forallb (seg_image_ok s) ims = true ->
  fold_left (fun st im => a <- st ;; seg_step s a im) ims (Some acc)
  = Some (acc + reduce_sum (map (seg_image_loss s) ims)).
Proof.
  revert acc. induction ims as [|im ims IH]; intros acc H.
  - simpl. f_equal. ring.
  - cbn [forallb] in H. apply andb_true_iff in H. destruct H as [Him H].
    destruct im as (seg, (masks, (cls, objects))).
    cbn [fold_left bind map]. rewrite seg_step_char by assumption.
    rewrite IH by assumption. f_equal. simpl reduce_sum. ring.
Qed.

Lemma cast_float_sq_pos n : (1 <= n)%nat -> 0 < cast_float n ^ 2.
Proof.
  intros H. pose proof (@cast_float_pos n ltac:(lia)). simpl. nra.
Qed.

(** On a well-shaped batch [_loss_semantic_segmentation] is the sum over the
    images of the cross-entropy against the target map, divided by the
    square of the resolution and by the number of images. *)
Lemma loss_seg_char pred_seg mask_gt classes num_obj :
  seg_batch_ok pred_seg mask_gt classes num_obj = true ->
  _loss_semantic_segmentation pred_seg mask_gt classes num_obj
  = Some (Fin (reduce_sum (map (seg_image_loss (length (hd [] pred_seg)))
                               (seg_images pred_seg mask_gt classes num_obj))
               / cast_float (length (hd [] pred_seg)) ^ 2
               / cast_float (length mask_gt))).
Proof.
  unfold seg_batch_ok. rewrite !andb_true_iff.
  intros ((((Hb & H1) & H2) & H3) & Hok).
  apply Nat.leb_le in Hb. apply Nat.eqb_eq in H1, H2, H3.
  unfold _loss_semantic_segmentation.
  set (s := length (hd [] pred_seg)) in *.
  set (ims := seg_images pred_seg mask_gt classes num_obj) in *.
  assert (Hlen : length mask_gt = length ims).
  { unfold ims, seg_images. rewrite !length_combine. lia. }
  rewrite Hlen at 1.
  rewrite fold_left_ext with
    (g := fun st idx => a <- st ;; im <- nth_error ([] ++ ims) idx ;; seg_step s a im).
  2:{ intros st idx. apply seg_loop_step. }
  rewrite (loop_nth (seg_step s) [] ims).
  rewrite seg_fold_char by assumption. cbn [bind].
  assert (Hs : (1 <= s)%nat).
  { destruct ims as [|(seg, (masks, (cls, objects))) ims']; [simpl in Hlen; lia|].
    cbn [forallb] in Hok. apply andb_true_iff in Hok. destruct Hok as [Hok _].
    unfold seg_image_ok in Hok. rewrite !andb_true_iff in Hok.
    destruct Hok as (((((((((Hs2 & _) & _) & _) & _) & _) & _) & _) & _) & _).
    apply Nat.leb_le in Hs2. lia. }
  rewrite fdiv_Fin by (pose proof (cast_float_sq_pos s Hs); lra).
  rewrite fdiv_Fin by (pose proof (@cast_float_pos (length mask_gt) ltac:(lia)); lra).
  f_equal. f_equal. f_equal. f_equal. ring.
Qed.

(** ** The aggregator *)

(** C1.  [__call__] returns the five-tuple of the localization, the
    classification, the mask and the segmentation loss and of their total,
    and the total is the sum of the four losses weighted by the box, the
    classification, the mask and the segmentation weight of the
    configuration; it raises exactly when one of the four losses raises.  The
    default weights are 1.5, 1, 6.125 and 1. *)
Theorem call_returns_weighted_total center_form inside_box
    (self : YOLACTLoss) (y_true : labels) (y_pred : predictions) :
  match _loss_location (pred_offset y_pred) (box_targets y_true) (positiveness y_true),
        _loss_class self (pred_cls y_pred) (cls_targets y_true) (positiveness y_true),
        _loss_mask center_form inside_box (proto_out y_pred) (pred_mask_coef y_pred)
                   (bbox_for_norm y_true) (mask_target y_true) (positiveness y_true)
                   (max_id_for_anchors y_true) (_max_masks_for_train self),
        _loss_semantic_segmentation (seg y_pred) (mask_target y_true) (classes y_true)
                                    (num_obj y_true)
  with
  | Some loc, Some cls, Some mask, Some seg_loss =>
      __call__ center_form inside_box self y_true y_pred
      = Some (loc, cls, mask, seg_loss,
              fadd (fadd (fadd (fmul (Fin (_box_prediction_loss_weight self)) loc)
                               (fmul (Fin (_classification_loss_weight self)) cls))
                         (fmul (Fin (_mask_loss_weight self)) mask))
                   (fmul (Fin (_segmentation_loss_weight self)) seg_loss))
  | _, _, _, _ => __call__ center_form inside_box self y_true y_pred = None
  end
  /\ (forall n, _box_prediction_loss_weight (__init__default n) = 3 / 2
                /\ _classification_loss_weight (__init__default n) = 1
                /\ _mask_loss_weight (__init__default n) = 49 / 8
                /\ _segmentation_loss_weight (__init__default n) = 1).
Proof.
  split; [|intros n; repeat split; reflexivity].
  unfold __call__.
  destruct (_loss_location _ _ _); [|reflexivity].
  destruct (_loss_class _ _ _ _); [|reflexivity].
  destruct (_loss_mask _ _ _ _ _ _ _ _ _); [|reflexivity].
  destruct (_loss_semantic_segmentation _ _ _ _); reflexivity.
Qed.

(** C5.  The mask loss does not depend on [max_masks_for_train]: two runs on
    the same predictions and targets that differ only in this value return
    the same mask loss, and [__call__] returns the same five scalars. *)
Theorem mask_loss_ignores_max_masks_for_train center_form inside_box
    (self : YOLACTLoss) (y_true : labels) (y_pred : predictions) (m1 m2 : Z) :
  _loss_mask center_form inside_box (proto_out y_pred) (pred_mask_coef y_pred)
             (bbox_for_norm y_true) (mask_target y_true) (positiveness y_true)
             (max_id_for_anchors y_true) m1
  = _loss_mask center_form inside_box (proto_out y_pred) (pred_mask_coef y_pred)
               (bbox_for_norm y_true) (mask_target y_true) (positiveness y_true)
               (max_id_for_anchors y_true) m2
  /\ __call__ center_form inside_box (with_max_masks_for_train self m1) y_true y_pred
     = __call__ center_form inside_box (with_max_masks_for_train self m2) y_true y_pred.
Proof.
  split; reflexivity.
Qed.

(** ** Batches without positive anchors *)

Lemma select_none {X} bs (xs : list X) :
  filter (fun b : bool => b) bs = [] -> select bs xs = [].
Proof.
  revert xs. induction bs as [|b bs IH]; intros [|x xs] H; try reflexivity.
  rewrite select_cons. destruct b; [discriminate|]. simpl in *. now apply IH.
Qed.

Lemma filter_equal1_nil v ps :
  filter (fun x => Z.eqb x v) ps = [] -> filter (fun b : bool => b) (equal1 ps v) = [].
Proof.
  intros H. apply length_zero_iff_nil. rewrite filter_equal1. now rewrite H.
Qed.

Lemma count_anchors_zero_rows v pos :
  count_anchors v pos = 0%nat ->
  Forall (fun ps => filter (fun x => Z.eqb x v) ps = []) pos.
Proof.
  unfold count_anchors. intros H. apply length_zero_iff_nil in H.
  induction pos as [|ps pos IH]; [constructor|].
  simpl in H. rewrite filter_app in H. apply app_eq_nil in H. destruct H as [H1 H2].
  constructor; auto.
Qed.

Lemma anchors_with_none {X} v pos (t : list (list X)) :
  count_anchors v pos = 0%nat -> anchors_with v pos t = [].
Proof.
  intros H. apply count_anchors_zero_rows in H. unfold anchors_with.
  revert t. induction H as [|ps pos Hps H IH]; intros [|x t]; try reflexivity.
  simpl. rewrite IH. rewrite select_none by now apply filter_equal1_nil. reflexivity.
Qed.

Lemma class_anchors_none v pred_cls gt_cls pos :
  count_anchors v pos = 0%nat -> class_anchors v pred_cls gt_cls pos = [].
Proof.
  intros H. unfold class_anchors. apply select_none, filter_equal1_nil.
  now apply length_zero_iff_nil.
Qed.

Lemma mask_losses_none center_form inside_box protos coefs bboxes masks pos mids :
  count_anchors 1 pos = 0%nat ->
  concat (map (image_mask_losses center_form inside_box)
              (mask_images protos coefs bboxes masks pos mids)) = [].
Proof.
  intros H. apply count_anchors_zero_rows in H.
  apply concat_nil_Forall. apply Forall_forall. intros l Hl.
  apply in_map_iff in Hl.
  destruct Hl as ((proto, (mask_coef, (mask_gt, (bbox_norm, (ps, max_id))))) & <- & Hin).
  unfold mask_images in Hin.
  do 4 apply in_combine_r in Hin. apply in_combine_l in Hin.
  rewrite Forall_forall in H. specialize (H ps Hin).
  unfold image_mask_losses, mask_anchors.
  rewrite select_none by now apply filter_equal1_nil. reflexivity.
Qed.

(** Without positive anchor the three losses that divide by the number of
    positive anchors are the float32 quotient [0 / 0]. *)
Lemma zero_positive_losses center_form inside_box (self : YOLACTLoss)
    (y_true : labels) (y_pred : predictions) :
  map (@length Z) (positiveness y_true) = map (@length (list R)) (pred_offset y_pred) ->
  map (@length Z) (positiveness y_true) = map (@length (list R)) (box_targets y_true) ->
  forallb (rows_of_length 4) (pred_offset y_pred) = true ->
  forallb (rows_of_length 4) (box_targets y_true) = true ->
  (0 < _num_classes self)%nat ->
  map (@length Z) (positiveness y_true) = map (@length (list R)) (pred_cls y_pred) ->
  map (@length Z) (positiveness y_true) = map (@length Z) (cls_targets y_true) ->
  forallb (rows_of_length (_num_classes self)) (pred_cls y_pred) = true ->
  mask_batch_ok center_form (proto_out y_pred) (pred_mask_coef y_pred)
                (bbox_for_norm y_true) (mask_target y_true) (positiveness y_true)
                (max_id_for_anchors y_true) = true ->
  count_anchors 1 (positiveness y_true) = 0%nat ->
  _loss_location (pred_offset y_pred) (box_targets y_true) (positiveness y_true)
  = Some NaN
  /\ _loss_class self (pred_cls y_pred) (cls_targets y_true) (positiveness y_true)
     = Some NaN
  /\ _loss_mask center_form inside_box (proto_out y_pred) (pred_mask_coef y_pred)
                (bbox_for_norm y_true) (mask_target y_true) (positiveness y_true)
                (max_id_for_anchors y_true) (_max_masks_for_train self)
     = Some NaN.
Proof.
  intros L1 L2 L3 L4 C0 C1 C2 C3 M Hzero. repeat split.
  - rewrite loss_location_char by assumption.
    rewrite !anchors_with_none by assumption. rewrite Hzero. simpl.
    now rewrite cast_float_0, fdiv_zero_zero.
  - rewrite loss_class_char by assumption.
    unfold class_loss_reference, mined_negatives.
    rewrite (class_anchors_none 1) by assumption. simpl length.
    rewrite Z.mul_0_l. unfold slice_to. simpl.
    now rewrite cast_float_0, fdiv_zero_zero.
  - rewrite loss_mask_char by assumption. unfold mask_loss_reference.
    rewrite mask_losses_none by assumption. simpl.
    now rewrite cast_float_0, fdiv_zero_zero.
Qed.

(** C2, as the code has it.  On a well-shaped batch without positive anchor
    the localization, the classification and the mask loss are each
    not-a-number: the sum over no anchor, 0, divided by the number of
    positive anchors, 0.  No guard returns 0. *)
Theorem no_positive_anchor_gives_nan center_form inside_box (self : YOLACTLoss)
    (y_true : labels) (y_pred : predictions) :
  map (@length Z) (positiveness y_true) = map (@length (list R)) (pred_offset y_pred) ->
  map (@length Z) (positiveness y_true) = map (@length (list R)) (box_targets y_true) ->
  forallb (rows_of_length 4) (pred_offset y_pred) = true ->
  forallb (rows_of_length 4) (box_targets y_true) = true ->
  (0 < _num_classes self)%nat ->
  map (@length Z) (positiveness y_true) = map (@length (list R)) (pred_cls y_pred) ->
  map (@length Z) (positiveness y_true) = map (@length Z) (cls_targets y_true) ->
  forallb (rows_of_length (_num_classes self)) (pred_cls y_pred) = true ->
  mask_batch_ok center_form (proto_out y_pred) (pred_mask_coef y_pred)
                (bbox_for_norm y_true) (mask_target y_true) (positiveness y_true)
                (max_id_for_anchors y_true) = true ->
  count_anchors 1 (positiveness y_true) = 0%nat ->
  _loss_location (pred_offset y_pred) (box_targets y_true) (positiveness y_true)
  = Some NaN
  /\ _loss_class self (pred_cls y_pred) (cls_targets y_true) (positiveness y_true)
     = Some NaN
  /\ _loss_mask center_form inside_box (proto_out y_pred) (pred_mask_coef y_pred)
                (bbox_for_norm y_true) (mask_target y_true) (positiveness y_true)
                (max_id_for_anchors y_true) (_max_masks_for_train self)
     = Some NaN.
Proof.
  apply zero_positive_losses.
Qed.

Lemma no_positive_anchor_gives_nan_witness :
  _loss_location (pred_offset example_pred) (box_targets example_true_negative)
                 (positiveness example_true_negative) = Some NaN
  /\ _loss_class (__init__default 2) (pred_cls example_pred)
                 (cls_targets example_true_negative)
                 (positiveness example_true_negative) = Some NaN
  /\ _loss_mask example_center_form example_inside_box (proto_out example_pred)
                (pred_mask_coef example_pred) (bbox_for_norm example_true_negative)
                (mask_target example_true_negative) (positiveness example_true_negative)
                (max_id_for_anchors example_true_negative)
                (_max_masks_for_train (__init__default 2)) = Some NaN.
Proof.
  apply (no_positive_anchor_gives_nan example_center_form example_inside_box
           (__init__default 2) example_true_negative example_pred);
    try reflexivity.
  simpl. lia.
Defined.

(** C2 as stated fails: on the example batch without positive anchor the
    three losses are not-a-number, not 0. *)
Lemma no_positive_anchor_not_zero :
  _loss_location (pred_offset example_pred) (box_targets example_true_negative)
                 (positiveness example_true_negative) = Some NaN
  /\ _loss_class (__init__default 2) (pred_cls example_pred)
                 (cls_targets example_true_negative)
                 (positiveness example_true_negative) = Some NaN
  /\ _loss_mask example_center_form example_inside_box (proto_out example_pred)
                (pred_mask_coef example_pred) (bbox_for_norm example_true_negative)
                (mask_target example_true_negative) (positiveness example_true_negative)
                (max_id_for_anchors example_true_negative)
                (_max_masks_for_train (__init__default 2)) = Some NaN
  /\ NaN <> Fin 0.
Proof.
  pose proof (zero_positive_losses example_center_form example_inside_box
                (__init__default 2) example_true_negative example_pred) as H.
  destruct H as (H1 & H2 & H3); try reflexivity; [simpl; lia|].
  repeat split; try assumption. discriminate.
Qed.

(** ** Localization loss *)

Lemma huber_elem_quadratic delta y_true y_pred :
  Rabs (y_pred - y_true) <= delta ->
  huber_elem delta y_true y_pred = 1 / 2 * ((y_pred - y_true) * (y_pred - y_true)).
Proof.
  intros H. unfold huber_elem. apply Rleb_true in H. now rewrite H.
Qed.

Lemma loc_loss_example :
  _loss_location (pred_offset example_pred) (box_targets example_true)
                 (positiveness example_true) = Some (Fin (1 / 8)).
Proof.
  rewrite loss_location_char by reflexivity.
  rewrite fdiv_Fin by (simpl; unfold cast_float; simpl; lra).
  f_equal. f_equal.
  unfold anchors_with, count_anchors, select, smooth_l1_sum, cast_float. simpl.
  rewrite !huber_elem_quadratic by (rewrite Rabs_pos_eq; lra).
  lra.
Qed.

(** What the code computes: on a well-shaped batch with at least one
    positive anchor the localization loss is the smooth-L1 (Huber, delta 1)
    between the predicted and the target offsets of the positive anchors,
    averaged over the 4 coordinates of each anchor (the Keras loss reduces
    the last axis by its mean), summed over the positive anchors and divided
    by their number. *)
Lemma localization_loss_is_mean_huber pred_offset gt_offset positiveness :
  map (@length Z) positiveness = map (@length (list R)) pred_offset ->
  map (@length Z) positiveness = map (@length (list R)) gt_offset ->
  forallb (rows_of_length 4) pred_offset = true ->
  forallb (rows_of_length 4) gt_offset = true ->
  (1 <= count_anchors 1 positiveness)%nat ->
  _loss_location pred_offset gt_offset positiveness
  = Some (Fin (loc_loss_reference pred_offset gt_offset positiveness)).
Proof.
  intros H1 H2 H3 H4 Hpos. rewrite loss_location_char by assumption.
  rewrite fdiv_Fin; [reflexivity|].
  pose proof (@cast_float_pos (count_anchors 1 positiveness) ltac:(lia)). lra.
Qed.

Lemma loc_loss_coordinate_sum_example :
  loc_loss_coordinate_sum (pred_offset example_pred) (box_targets example_true)
                          (positiveness example_true) = 1 / 2.
Proof.
  unfold loc_loss_coordinate_sum, anchors_with, count_anchors, select, smooth_l1_sum,
    cast_float. simpl.
  rewrite !huber_elem_quadratic by (rewrite Rabs_pos_eq; lra).
  lra.
Qed.

(** C4 fails on the code.  The example batch has one positive anchor whose
    prediction is off by 0.5 in every coordinate.  The sum of the smooth-L1
    over the 4 coordinates, which the claim states and which lines 62 and 63
    set out to compute by switching the reduction of the Keras loss off and
    summing with [tf.reduce_sum], is 4 * 0.125 = 0.5.  The code returns
    0.125: [tf.keras.losses.Huber] takes the mean over the last axis even
    with [reduction=NONE], so the 4 coordinates are averaged before the
    sum. *)
Theorem localization_loss_not_coordinate_sum :
  _loss_location (pred_offset example_pred) (box_targets example_true)
                 (positiveness example_true) = Some (Fin (1 / 8))
  /\ loc_loss_coordinate_sum (pred_offset example_pred) (box_targets example_true)
                             (positiveness example_true) = 1 / 2
  /\ _loss_location (pred_offset example_pred) (box_targets example_true)
                    (positiveness example_true)
     <> Some (Fin (loc_loss_coordinate_sum (pred_offset example_pred)
                                           (box_targets example_true)
                                           (positiveness example_true))).
Proof.
  split; [apply loc_loss_example|].
  split; [apply loc_loss_coordinate_sum_example|].
  rewrite loc_loss_example, loc_loss_coordinate_sum_example.
  intros H. inversion H. lra.
Qed.

(** ** Segmentation loss *)

Lemma last_index_from_None c i l :
  last_index_from c i l = None -> forall n, nth_error l n <> Some c.
Proof.
  revert i. induction l as [|y l IH]; intros i H n.
  - now destruct n.
  - simpl in H. destruct (last_index_from c (S i) l) eqn:E; [discriminate|].
    destruct (Z.eqb_spec y c) as [->|Hne]; [discriminate|].
    destruct n; simpl; [congruence|]. now apply (IH (S i)).
Qed.

Lemma last_index_from_Some c i l k :
  last_index_from c i l = Some k ->
  (i <= k)%nat /\ nth_error l (k - i) = Some c
  /\ forall k', (k < k')%nat -> nth_error l (k' - i) <> Some c.
Proof.
  revert i. induction l as [|x l IH]; intros i H; simpl in H; [discriminate|].
  destruct (last_index_from c (S i) l) eqn:E.
  - inversion H; subst. destruct (IH _ E) as (H1 & H2 & H3).
    split; [lia|]. split.
    + replace (k - i)%nat with (S (k - S i)) by lia. exact H2.
    + intros k' Hk'. replace (k' - i)%nat with (S (k' - S i)) by lia. now apply H3.
  - destruct (Z.eqb_spec x c) as [->|Hne]; [|discriminate]. inversion H; subst.
    split; [lia|]. split; [now rewrite Nat.sub_diag|].
    intros k' Hk'. replace (k' - k)%nat with (S (k' - S k)) by lia. simpl.
    now apply (last_index_from_None _ _ _ E).
Qed.

Lemma nth_map_seq {X} (F : nat -> X) n i d :
  (i < n)%nat -> nth i (map F (seq 0 n)) d = F i.
Proof.
  intros H. rewrite nth_indep with (d' := F 0%nat) by now rewrite length_map, length_seq.
  rewrite map_nth. now rewrite seq_nth.
Qed.

Lemma seg_target_entry s depth masks cls objects i j c :
  (i < s)%nat -> (j < s)%nat -> (c < depth)%nat ->
  nth c (nth j (nth i (seg_target_reference s depth masks cls objects) []) []) 0
  = match last_index_from (Z.of_nat c) 0 (slice_to objects cls) with
    | Some k => nth j (nth i (resized_mask s (nth k masks [])) []) 0
    | None => 0
    end.
Proof.
  intros Hi Hj Hc. unfold seg_target_reference.
  rewrite (nth_map_seq _ s i) by assumption.
  rewrite (nth_map_seq _ s j) by assumption.
  now rewrite (nth_map_seq _ depth c) by assumption.
Qed.

(** C7, as the code has it.  For a well-shaped image (a square map of side
    at least 2, no or at least two object slots) the target map starts as
    zeros of the shape of the logits, and only the first [objects] objects
    are written: channel [c] is the resized, binarized mask of the last of
    these objects whose class is [c] (a later object replaces the whole
    channel that an earlier object of the same class wrote, also where the
    later mask is 0 and the two do not overlap: overwrite, not union), and
    stays zero when none of them has class [c]. *)
Theorem segmentation_target_last_object_wins s seg masks cls objects :
  seg_image_ok s (seg, (masks, (cls, objects))) = true ->
  exists target,
    seg_gt_image s seg masks cls objects = Some target
    /\ forall i j c, (i < s)%nat -> (j < s)%nat -> (c < length (hd [] (hd [] seg)))%nat ->
         (forall k, (k < Z.to_nat objects)%nat ->
                    nth_error cls k = Some (Z.of_nat c) ->
                    (forall k', (k < k' < Z.to_nat objects)%nat ->
                                nth_error cls k' <> Some (Z.of_nat c)) ->
                    nth c (nth j (nth i target []) []) 0
                    = nth j (nth i (resized_mask s (nth k masks [])) []) 0)
         /\ ((forall k, (k < Z.to_nat objects)%nat ->
                        nth_error cls k <> Some (Z.of_nat c)) ->
             nth c (nth j (nth i target []) []) 0 = 0).
Proof.
  intros Hok. eexists. split; [now apply seg_gt_image_char|].
  unfold seg_image_ok in Hok. rewrite !andb_true_iff in Hok.
  destruct Hok as (((((((((_ & _) & _) & _) & _) & _) & _) & _) & Hobj) & _).
  apply Z.leb_le in Hobj.
  intros i j c Hi Hj Hc. rewrite seg_target_entry by assumption.
  unfold slice_to. replace (Z.leb 0 objects) with true by (symmetry; now apply Z.leb_le).
  set (n := Z.to_nat objects).
  assert (Hnth : forall k, (k < n)%nat -> nth_error (firstn n cls) k = nth_error cls k).
  { intros k Hk. now rewrite nth_error_firstn, (proj2 (Nat.ltb_lt k n) Hk). }
  assert (Hout : forall k, (n <= k)%nat -> nth_error (firstn n cls) k = None).
  { intros k Hk. rewrite nth_error_firstn.
    now replace (Nat.ltb k n) with false by (symmetry; apply Nat.ltb_ge; lia). }
  split.
  - intros k Hk Hcls Hlast.
    destruct (last_index_from (Z.of_nat c) 0 (firstn n cls)) as [k0|] eqn:E.
    + apply last_index_from_Some in E. destruct E as (_ & E1 & E2).
      rewrite Nat.sub_0_r in E1.
      assert (Hk0 : (k0 < n)%nat).
      { destruct (Nat.lt_ge_cases k0 n) as [H|H]; [exact H|].
        rewrite (Hout k0 H) in E1. discriminate. }
      rewrite Hnth in E1 by assumption.
      destruct (Nat.lt_trichotomy k0 k) as [H|[H|H]].
      * exfalso. apply (E2 k H). rewrite Nat.sub_0_r. now rewrite Hnth.
      * now subst.
      * exfalso. now apply (Hlast k0 (conj H Hk0)).
    + exfalso. apply (last_index_from_None _ _ _ E k). now rewrite Hnth.
  - intros Hnone.
    destruct (last_index_from (Z.of_nat c) 0 (firstn n cls)) as [k0|] eqn:E;
      [|reflexivity].
    apply last_index_from_Some in E. destruct E as (_ & E1 & _).
    rewrite Nat.sub_0_r in E1. exfalso.
    destruct (Nat.lt_ge_cases k0 n) as [H|H].
    + apply (Hnone k0 H). now rewrite <- Hnth.
    + rewrite (Hout k0 H) in E1. discriminate.
Qed.

Lemma segmentation_target_last_object_wins_witness :
  exists target,
    seg_gt_image 2 [[[0; 0]; [0; 0]]; [[0; 0]; [0; 0]]] example_masks_overlap
                 [1; 1]%Z 2 = Some target
    /\ forall i j c, (i < 2)%nat -> (j < 2)%nat -> (c < 2)%nat ->
         (forall k, (k < 2)%nat ->
                    nth_error [1; 1]%Z k = Some (Z.of_nat c) ->
                    (forall k', (k < k' < 2)%nat ->
                                nth_error [1; 1]%Z k' <> Some (Z.of_nat c)) ->
                    nth c (nth j (nth i target []) []) 0
                    = nth j (nth i (resized_mask 2 (nth k example_masks_overlap [])) []) 0)
         /\ ((forall k, (k < 2)%nat -> nth_error [1; 1]%Z k <> Some (Z.of_nat c)) ->
             nth c (nth j (nth i target []) []) 0 = 0).
Proof.
  apply (segmentation_target_last_object_wins 2 [[[0; 0]; [0; 0]]; [[0; 0]; [0; 0]]]
           example_masks_overlap [1; 1]%Z 2).
  reflexivity.
Defined.

Lemma seg_target_no_object s depth masks cls :
  seg_target_reference s depth masks cls 0
  = repeat (repeat (repeat 0 depth) s) s.
Proof.
  unfold seg_target_reference. rewrite (repeat_seq _ 0 s).
  apply map_ext. intros i. rewrite (repeat_seq _ 0 s). apply map_ext. intros j.
  rewrite (repeat_seq _ 0 depth). reflexivity.
Qed.

Lemma zeros_like_char (seg : list (list (list R))) s depth :
  length seg = s -> rows_of_length s seg = true ->
  forallb (rows_of_length depth) seg = true ->
  zeros_like seg = repeat (repeat (repeat 0 depth) s) s.
Proof.
  intros Hlen Hrows Hcells. unfold zeros_like.
  rewrite <- Hlen at 2. rewrite <- map_const. apply map_ext_in. intros row Hrow.
  rewrite <- (rows_of_length_In _ _ _ Hrows Hrow) at 1. rewrite <- map_const.
  apply map_ext_in. intros cell Hcell.
  rewrite forallb_forall in Hcells.
  rewrite <- (rows_of_length_In _ _ _ (Hcells _ Hrow) Hcell). now rewrite map_const.
Qed.

Lemma reduce_sum_split {X} (f : X -> R) (l : list X) idx x :
  nth_error l idx = Some x ->
  reduce_sum (map f l)
  = reduce_sum (map f (firstn idx l)) + f x + reduce_sum (map f (skipn (S idx) l)).
Proof.
  revert idx. induction l as [|y l IH]; intros idx H; [now destruct idx|].
  destruct idx as [|idx]; simpl in H.
  - inversion H; subst. unfold reduce_sum. cbn [map firstn skipn fold_right]. ring.
  - change (skipn (S (S idx)) (y :: l)) with (skipn (S idx) l).
    unfold reduce_sum in *. cbn [map firstn fold_right].
    rewrite (IH idx H). ring.
Qed.

Lemma seg_images_nth pred_seg mask_gt classes num_obj idx seg masks cls objects :
  nth_error pred_seg idx = Some seg -> nth_error mask_gt idx = Some masks ->
  nth_error classes idx = Some cls -> nth_error num_obj idx = Some objects ->
  nth_error (seg_images pred_seg mask_gt classes num_obj) idx
  = Some (seg, (masks, (cls, objects))).
Proof.
  intros H1 H2 H3 H4. unfold seg_images.
  rewrite nth_error_combine, H1. cbn [bind].
  rewrite nth_error_combine, H2. cbn [bind].
  rewrite nth_error_combine, H3, H4. reflexivity.
Qed.

(** C10, as the code has it.  In a well-shaped batch (square maps of side at
    least 2, no or at least two object slots in every image) an image without
    object is not skipped and does not raise: its target map is the all-zero
    map of the shape of its logits, and the image adds to the loss the full
    sigmoid cross-entropy of its logits against this zero map, next to the
    terms of the images before and after it. *)
Theorem segmentation_image_without_object pred_seg mask_gt classes num_obj
    idx seg masks cls :
  seg_batch_ok pred_seg mask_gt classes num_obj = true ->
  nth_error pred_seg idx = Some seg -> nth_error mask_gt idx = Some masks ->
  nth_error classes idx = Some cls -> nth_error num_obj idx = Some 0%Z ->
  seg_gt_image (length (hd [] pred_seg)) seg masks cls 0 = Some (zeros_like seg)
  /\ _loss_semantic_segmentation pred_seg mask_gt classes num_obj
     = Some (Fin ((reduce_sum (map (seg_image_loss (length (hd [] pred_seg)))
                                   (firstn idx (seg_images pred_seg mask_gt classes num_obj)))
                   + bce_sum (zeros_like seg) seg
                   + reduce_sum (map (seg_image_loss (length (hd [] pred_seg)))
                                     (skipn (S idx)
                                        (seg_images pred_seg mask_gt classes num_obj))))
                  / cast_float (length (hd [] pred_seg)) ^ 2
                  / cast_float (length mask_gt))).
Proof.
  intros Hbatch H1 H2 H3 H4.
  pose proof (seg_images_nth _ _ _ _ _ _ _ _ _ H1 H2 H3 H4) as Him.
  set (s := length (hd [] pred_seg)) in *.
  assert (Hok : seg_image_ok s (seg, (masks, (cls, 0%Z))) = true).
  { unfold seg_batch_ok in Hbatch. rewrite !andb_true_iff in Hbatch.
    destruct Hbatch as (_ & Hall). rewrite forallb_forall in Hall.
    apply Hall. eapply nth_error_In. exact Him. }
  assert (E : seg_target_reference s (length (hd [] (hd [] seg))) masks cls 0
              = zeros_like seg).
  { unfold seg_image_ok in Hok. rewrite !andb_true_iff in Hok.
    destruct Hok as (((((((((_ & Hlen) & Hrows) & _) & Hcells) & _) & _) & _) & _) & _).
    apply Nat.eqb_eq in Hlen. rewrite seg_target_no_object.
    symmetry. now apply zeros_like_char. }
  split.
  - rewrite seg_gt_image_char by assumption. now rewrite E.
  - rewrite loss_seg_char by assumption. fold s.
    rewrite (reduce_sum_split _ _ idx _ Him).
    unfold seg_image_loss at 2, seg_image_target. simpl fst. now rewrite E.
Qed.

Lemma segmentation_image_without_object_witness :
  seg_gt_image (length (hd [] (seg example_pred)))
               [[[0; 0]; [0; 0]]; [[0; 0]; [0; 0]]] example_masks_overlap [1; 1]%Z 0
  = Some (zeros_like [[[0; 0]; [0; 0]]; [[0; 0]; [0; 0]]])
  /\ _loss_semantic_segmentation (seg example_pred) [example_masks_overlap]
                                 [[1; 1]%Z] [0%Z]
     = Some (Fin ((reduce_sum (map (seg_image_loss (length (hd [] (seg example_pred))))
                     (firstn 0 (seg_images (seg example_pred) [example_masks_overlap]
                                           [[1; 1]%Z] [0%Z])))
                   + bce_sum (zeros_like [[[0; 0]; [0; 0]]; [[0; 0]; [0; 0]]])
                             [[[0; 0]; [0; 0]]; [[0; 0]; [0; 0]]]
                   + reduce_sum (map (seg_image_loss (length (hd [] (seg example_pred))))
                       (skipn 1 (seg_images (seg example_pred) [example_masks_overlap]
                                            [[1; 1]%Z] [0%Z]))))
                  / cast_float (length (hd [] (seg example_pred))) ^ 2
                  / cast_float (length [example_masks_overlap]))).
Proof.
  apply (segmentation_image_without_object (seg example_pred) [example_masks_overlap]
           [[1; 1]%Z] [0%Z] 0 [[[0; 0]; [0; 0]]; [[0; 0]; [0; 0]]] example_masks_overlap
           [1; 1]%Z); reflexivity.
Defined.

Lemma seg_batch_first_image pred_seg mask_gt classes num_obj :
  seg_batch_ok pred_seg mask_gt classes num_obj = true ->
  length (hd [] (hd [] pred_seg)) = length (hd [] pred_seg).
Proof.
  unfold seg_batch_ok. rewrite !andb_true_iff.
  intros ((((Hb & H1) & H2) & H3) & Hok).
  apply Nat.leb_le in Hb. apply Nat.eqb_eq in H1, H2, H3.
  destruct pred_seg as [|seg0 pred_seg]; [simpl in H1; lia|].
  destruct mask_gt as [|m0 mask_gt]; [simpl in Hb; lia|].
  destruct classes as [|c0 classes]; [simpl in H2; lia|].
  destruct num_obj as [|n0 num_obj]; [simpl in H3; discriminate|].
  cbn [seg_images combine forallb hd] in Hok. apply andb_true_iff in Hok.
  destruct Hok as [Hok _]. unfold seg_image_ok in Hok. rewrite !andb_true_iff in Hok.
  destruct Hok as (((((((((Hs2 & Hlen) & Hrows) & _) & _) & _) & _) & _) & _) & _).
  apply Nat.leb_le in Hs2. apply Nat.eqb_eq in Hlen. simpl hd.
  destruct seg0 as [|row seg0]; [simpl in Hlen; simpl in Hs2; lia|].
  simpl hd. eapply rows_of_length_In; [exact Hrows | now left].
Qed.

(** The update of the target is rejected when the map of the image is not
    [s] by [s], the shape of the resized masks, whatever the objects are. *)
Lemma seg_gt_image_other_shape s seg masks cls objects :
  length seg <> s \/ length (hd [] seg) <> s ->
  seg_gt_image s seg masks cls objects = None.
Proof.
  intros H. unfold seg_gt_image.
  destruct (resize_bilinear s s (expand_dims3 masks)) as [m4|]; [|reflexivity].
  cbn [bind]. destruct (squeeze_masks s _) as [sq|]; [|reflexivity]. cbn [bind].
  unfold tensor_scatter_nd_update. cbn [fst snd].
  replace (Nat.eqb (length seg) s && Nat.eqb (length (hd [] seg)) s) with false;
    [reflexivity|].
  symmetry. apply andb_false_iff. destruct H as [H|H]; [left|right]; now apply Nat.eqb_neq.
Qed.

(** A batch that is not empty and whose first map is not square is
    rejected at its first image. *)
Lemma seg_loss_not_square pred_seg mask_gt classes num_obj :
  (1 <= length mask_gt)%nat ->
  length (hd [] (hd [] pred_seg)) <> length (hd [] pred_seg) ->
  _loss_semantic_segmentation pred_seg mask_gt classes num_obj = None.
Proof.
  intros Hb Hsq. unfold _loss_semantic_segmentation.
  destruct (length mask_gt) as [|n] eqn:En; [lia|].
  cbn [seq fold_left bind].
  match goal with
  | |- bind (fold_left ?F ?l ?st) _ = None =>
      replace st with (@None R); [now rewrite (fold_left_stuck F l)|]
  end.
  destruct pred_seg as [|seg0 pred_seg']; [reflexivity|].
  cbn [hd] in *. change (nth_error (seg0 :: pred_seg') 0) with (Some seg0). cbn [bind].
  destruct (nth_error mask_gt 0); [|reflexivity]. cbn [bind].
  destruct (nth_error classes 0); [|reflexivity]. cbn [bind].
  destruct (nth_error num_obj 0); [|reflexivity]. cbn [bind].
  rewrite seg_gt_image_other_shape by now right. reflexivity.
Qed.

(** C6, as the code has it.  The code reads one size, [seg_shape], the
    number of rows of the first map, resizes the masks to [seg_shape] by
    [seg_shape] and divides by the square of [seg_shape].  A batch that is
    not empty and whose maps are not square is rejected.  On a well-shaped
    batch, whose maps are square ([Hs = Ws]), the segmentation loss is the sum
    over the images of the summed sigmoid cross-entropy between the logits
    and the target map of the image, divided by [Hs * Ws] and by the number
    of images. *)
Theorem segmentation_loss_square_maps pred_seg mask_gt classes num_obj :
  (1 <= length mask_gt)%nat ->
  (length (hd [] (hd [] pred_seg)) <> length (hd [] pred_seg) ->
   _loss_semantic_segmentation pred_seg mask_gt classes num_obj = None)
  /\ (seg_batch_ok pred_seg mask_gt classes num_obj = true ->
      length (hd [] (hd [] pred_seg)) = length (hd [] pred_seg)
      /\ Forall (fun im => seg_gt_image (length (hd [] pred_seg)) (fst im) (fst (snd im))
                                        (fst (snd (snd im))) (snd (snd (snd im)))
                           = Some (seg_image_target (length (hd [] pred_seg)) im))
                (seg_images pred_seg mask_gt classes num_obj)
      /\ _loss_semantic_segmentation pred_seg mask_gt classes num_obj
         = Some (Fin (reduce_sum
                        (map (fun im => bce_sum (seg_image_target
                                                   (length (hd [] pred_seg)) im)
                                                (fst im))
                             (seg_images pred_seg mask_gt classes num_obj))
                      / (cast_float (length (hd [] pred_seg))
                         * cast_float (length (hd [] (hd [] pred_seg))))
                      / cast_float (length mask_gt)))).
Proof.
  intros Hb. split; [now apply seg_loss_not_square|].
  intros Hbatch. pose proof (seg_batch_first_image _ _ _ _ Hbatch) as Hsq.
  split; [exact Hsq|]. split.
  - unfold seg_batch_ok in Hbatch. rewrite !andb_true_iff in Hbatch.
    destruct Hbatch as (_ & Hall). rewrite forallb_forall in Hall.
    apply Forall_forall. intros (seg, (masks, (cls, objects))) Him. simpl.
    now apply seg_gt_image_char, Hall.
  - rewrite loss_seg_char by assumption. rewrite Hsq.
    f_equal. f_equal. f_equal. f_equal. simpl. ring.
Qed.

Lemma segmentation_loss_square_maps_witness :
  _loss_semantic_segmentation example_seg_wide (mask_target example_true)
                              (classes example_true) (num_obj example_true) = None
  /\ length (hd [] (hd [] (seg example_pred))) = length (hd [] (seg example_pred))
  /\ Forall (fun im => seg_gt_image (length (hd [] (seg example_pred))) (fst im)
                                    (fst (snd im)) (fst (snd (snd im)))
                                    (snd (snd (snd im)))
                       = Some (seg_image_target (length (hd [] (seg example_pred))) im))
            (seg_images (seg example_pred) (mask_target example_true)
                        (classes example_true) (num_obj example_true))
  /\ _loss_semantic_segmentation (seg example_pred) (mask_target example_true)
                                 (classes example_true) (num_obj example_true)
     = Some (Fin (reduce_sum
                    (map (fun im => bce_sum (seg_image_target
                                               (length (hd [] (seg example_pred))) im)
                                            (fst im))
                         (seg_images (seg example_pred) (mask_target example_true)
                                     (classes example_true) (num_obj example_true)))
                  / (cast_float (length (hd [] (seg example_pred)))
                     * cast_float (length (hd [] (hd [] (seg example_pred)))))
                  / cast_float (length (mask_target example_true)))).
Proof.
  split.
  - apply (segmentation_loss_square_maps example_seg_wide (mask_target example_true)
             (classes example_true) (num_obj example_true)).
    + simpl. lia.
    + simpl. lia.
  - apply (segmentation_loss_square_maps (seg example_pred) (mask_target example_true)
             (classes example_true) (num_obj example_true)).
    + simpl. lia.
    + reflexivity.
Defined.

(** C6 as stated fails for a map that is not square: on a map of 2 by 3
    pixels the masks are resized to 2 by 2, the scatter rejects them, and no
    loss is returned. *)
Lemma segmentation_loss_wide_map_raises :
  _loss_semantic_segmentation example_seg_wide (mask_target example_true)
                              [[0; 0]%Z] [1%Z] = None.
Proof.
  lazy. reflexivity.
Qed.

(** ** Classification loss: hard-negative mining *)

Lemma flog_pos x : 0 < x -> flog x = Fin (ln x).
Proof. intros H. unfold flog. apply Rltb_true in H. now rewrite H. Qed.

Lemma fmul_Fin a b : fmul (Fin a) (Fin b) = Fin (a * b).
Proof. reflexivity. Qed.

Lemma fltb_Fin a b : fltb (Fin a) (Fin b) = Rltb a b.
Proof. reflexivity. Qed.

Lemma ranks_below_Fin a b : ranks_below (Fin a) (Fin b) = Rltb a b.
Proof. reflexivity. Qed.

(** Among numbers the order of the sort is the order of the numbers. *)
Lemma ranks_below_fltb x y : x <> NaN -> y <> NaN -> ranks_below x y = fltb x y.
Proof. destruct x, y; intros Hx Hy; try congruence; reflexivity. Qed.

Lemma neg_score_pos logits : 0 < nth 0 logits 0 -> neg_score logits = Fin (- ln (nth 0 logits 0)).
Proof.
  intros H. unfold neg_score. rewrite flog_pos by assumption. rewrite fmul_Fin.
  f_equal. ring.
Qed.

Lemma ln_2_pos : 0 < ln 2.
Proof. rewrite <- ln_1. apply ln_increasing; lra. Qed.

Lemma exp_1_gt_1 : 1 < exp 1.
Proof. pose proof (exp_ineq1 1 ltac:(lra)). lra. Qed.

(** The number of negative anchors kept by the mining: all of them, or the
    number of positive anchors times the ratio when this is smaller. *)
Lemma mined_negatives_length self pred_cls gt_cls positiveness :
  (0 <= _neg_pos_ratio self)%Z ->
  length (mined_negatives self pred_cls gt_cls positiveness)
  = Nat.min (Z.to_nat (Z.of_nat (length (class_anchors 1 pred_cls gt_cls positiveness))
                       * _neg_pos_ratio self))
            (length (class_anchors 0 pred_cls gt_cls positiveness)).
Proof.
  intros Hr. unfold mined_negatives, slice_to.
  replace (Z.leb 0 _) with true by (symmetry; apply Z.leb_le; lia).
  rewrite length_firstn.
  now rewrite <- (Permutation_length (sort_descending_perm _ _)).
Qed.

(** C3 fails on the code.  With one positive anchor, ratio 1 and the two
    negative anchors of logits [2, 2] and [1, 0], the code keeps the second
    negative anchor: it ranks by minus the logarithm of the class-0 logit
    itself, [- log 2 < - log 1].  The softmax probability of class 0 is 1/2
    for the first and e / (e + 1) for the second anchor, so the first one has
    the strictly larger score of the specification. *)
Theorem mining_ranks_by_raw_logit :
  neg_indices_for_loss [[2; 2]; [1; 0]] (1 * 1) = Some [1%nat]
  /\ mined_negatives example_ratio_one example_pred_cls example_cls_targets
                     example_positiveness = [(0%Z, [1; 0])]
  /\ _loss_class example_ratio_one example_pred_cls example_cls_targets
                 example_positiveness
     = Some (Fin ((xent_anchor 2 (1%Z, [0; 1]) + (xent_anchor 2 (0%Z, [1; 0]) + 0)) / 1))
  /\ fltb (background_score [1; 0]) (background_score [2; 2]) = true.
Proof.
  assert (Hlt : ranks_below (neg_score [2; 2]) (neg_score [1; 0]) = true).
  { rewrite !neg_score_pos by (simpl; lra). rewrite ranks_below_Fin. apply Rltb_true.
    simpl. rewrite ln_1. pose proof ln_2_pos. lra. }
  assert (Hmined : mined_negatives example_ratio_one example_pred_cls example_cls_targets
                                   example_positiveness = [(0%Z, [1; 0])]).
  { unfold mined_negatives, class_anchors, select, slice_to, sort_descending.
    cbn -[neg_score ranks_below]. rewrite Hlt. reflexivity. }
  split; [|split; [exact Hmined|split]].
  - rewrite neg_indices_for_loss_char by (repeat constructor; discriminate).
    unfold argsort_descending, sort_descending, slice_to.
    cbn -[neg_score ranks_below]. rewrite Hlt. reflexivity.
  - rewrite loss_class_char by (try reflexivity; simpl; lia).
    unfold class_loss_reference. rewrite Hmined.
    unfold class_anchors, select. cbn -[xent_anchor fdiv].
    rewrite fdiv_Fin by (unfold cast_float; simpl; lra).
    unfold cast_float. simpl IZR. reflexivity.
  - unfold background_score, softmax. cbn [map nth reduce_sum fold_right].
    assert (E1 : 0 < exp 1) by apply exp_pos.
    assert (E2 : 0 < exp 2) by apply exp_pos.
    assert (E0 : exp 0 = 1) by apply exp_0.
    rewrite E0.
    rewrite !flog_pos by (apply Rdiv_lt_0_compat; lra).
    rewrite !fmul_Fin, fltb_Fin. apply Rltb_true.
    apply Ropp_lt_cancel. ring_simplify.
    apply ln_increasing; [apply Rdiv_lt_0_compat; lra|].
    replace (exp 2 / (exp 2 + (exp 2 + 0))) with (1 / 2) by (field; lra).
    pose proof exp_1_gt_1.
    apply Rmult_lt_reg_r with (r := 2 * (exp 1 + (1 + 0))); [lra|].
    replace (exp 1 / (exp 1 + (1 + 0)) * (2 * (exp 1 + (1 + 0)))) with (2 * exp 1)
      by (field; lra).
    lra.
Qed.

(** ** Non-negative losses *)

Lemma reduce_sum_nonneg l : Forall (fun x => 0 <= x) l -> 0 <= reduce_sum l.
Proof.
  induction 1 as [|x l Hx H IH]; simpl; [lra|]. unfold reduce_sum in *. simpl. lra.
Qed.

Lemma huber_elem_nonneg y_true y_pred : 0 <= huber_elem 1 y_true y_pred.
Proof.
  unfold huber_elem. cbv zeta. destruct (Rleb (Rabs (y_pred - y_true)) 1) eqn:E.
  - pose proof (Rle_0_sqr (y_pred - y_true)) as Hs. unfold Rsqr in Hs. lra.
  - apply Rleb_false in E. lra.
Qed.

Lemma loc_loss_reference_nonneg pred_offset gt_offset positiveness :
  (1 <= count_anchors 1 positiveness)%nat ->
  0 <= loc_loss_reference pred_offset gt_offset positiveness.
Proof.
  intros H. unfold loc_loss_reference.
  pose proof (@cast_float_pos (count_anchors 1 positiveness) ltac:(lia)) as Hc.
  apply Rmult_le_pos; [|apply Rlt_le, Rinv_0_lt_compat; exact Hc].
  apply reduce_sum_nonneg, Forall_forall. intros x Hx.
  apply in_map_iff in Hx. destruct Hx as (p & <- & _).
  apply Rmult_le_pos; [|lra].
  unfold smooth_l1_sum. apply reduce_sum_nonneg, Forall_forall. intros y Hy.
  apply in_map_iff in Hy. destruct Hy as (q & <- & _). apply huber_elem_nonneg.
Qed.

Lemma exp_le_sum x l : In x l -> exp x <= reduce_sum (map exp l).
Proof.
  induction l as [|y l IH]; intros H; [contradiction|].
  assert (Hpos : 0 <= reduce_sum (map exp l)).
  { apply reduce_sum_nonneg, Forall_forall. intros z Hz. apply in_map_iff in Hz.
    destruct Hz as (u & <- & _). apply Rlt_le, exp_pos. }
  unfold reduce_sum in *. simpl. destruct H as [->|H].
  - lra.
  - specialize (IH H). pose proof (exp_pos y). lra.
Qed.

Lemma logit_le_logsumexp x l : In x l -> x <= ln (reduce_sum (map exp l)).
Proof.
  intros H. rewrite <- (ln_exp x) at 1.
  pose proof (exp_le_sum x l H) as Hle. pose proof (exp_pos x) as Hpos.
  destruct Hle as [Hlt|Heq].
  - apply Rlt_le, ln_increasing; assumption.
  - rewrite Heq. lra.
Qed.

Lemma one_hot_row_binary depth label o :
  In o (one_hot_row depth label) -> o = 0 \/ o = 1.
Proof.
  unfold one_hot_row. intros H. apply in_map_iff in H. destruct H as (c & <- & _).
  destruct (Z.eqb (Z.of_nat c) label); auto.
Qed.

Lemma xent_anchor_nonneg depth a : 0 <= xent_anchor depth a.
Proof.
  unfold xent_anchor, softmax_xent_row.
  set (lse := ln (reduce_sum (map exp (snd a)))).
  assert (H : reduce_sum (map (fun p => fst p * (snd p - lse))
                              (combine (one_hot_row depth (fst a)) (snd a))) <= 0).
  { assert (G : forall l, Forall (fun x => x <= 0) l -> reduce_sum l <= 0).
    { induction 1 as [|x l Hx H IH]; unfold reduce_sum in *; simpl; lra. }
    apply G, Forall_forall. intros t Ht. apply in_map_iff in Ht.
    destruct Ht as ((o, x) & <- & Hin). simpl.
    pose proof (one_hot_row_binary _ _ _ (in_combine_l _ _ _ _ Hin)) as Ho.
    pose proof (logit_le_logsumexp _ _ (in_combine_r _ _ _ _ Hin)) as Hx.
    fold lse in Hx. destruct Ho as [->| ->]; lra. }
  lra.
Qed.

Lemma class_loss_reference_nonneg self pred_cls gt_cls positiveness :
  (1 <= count_anchors 1 positiveness)%nat ->
  length (class_anchors 1 pred_cls gt_cls positiveness) = count_anchors 1 positiveness ->
  nonneg_loss (Some (class_loss_reference self pred_cls gt_cls positiveness)).
Proof.
  intros Hpos Hlen. unfold class_loss_reference. rewrite Hlen.
  pose proof (@cast_float_pos (count_anchors 1 positiveness) ltac:(lia)) as Hc.
  rewrite fdiv_Fin by lra. eexists. split; [reflexivity|].
  apply Rmult_le_pos; [|apply Rlt_le, Rinv_0_lt_compat; exact Hc].
  apply reduce_sum_nonneg, Forall_forall. intros x Hx.
  apply in_map_iff in Hx. destruct Hx as (a & <- & _). apply xent_anchor_nonneg.
Qed.

Lemma class_anchors_length v pred_cls gt_cls positiveness :
  map (@length Z) positiveness = map (@length (list R)) pred_cls ->
  map (@length Z) positiveness = map (@length Z) gt_cls ->
  length (class_anchors v pred_cls gt_cls positiveness) = count_anchors v positiveness.
Proof.
  intros Hp Hg. unfold class_anchors, count_anchors.
  rewrite select_length.
  - apply filter_equal1.
  - unfold equal1. rewrite length_map, length_combine.
    rewrite <- (length_concat_same _ _ Hp), <- (length_concat_same _ _ Hg). lia.
Qed.

Lemma sigmoid_xent_nonneg z x : unit_interval z -> 0 <= sigmoid_xent z x.
Proof.
  intros [Hz0 Hz1]. unfold sigmoid_xent.
  assert (Hln : 0 <= ln (1 + exp (- Rabs x))).
  { rewrite <- ln_1. pose proof (exp_pos (- Rabs x)) as He.
    apply Rlt_le, ln_increasing; lra. }
  assert (Hmax : 0 <= Rmax x 0 - x * z).
  { unfold Rmax. destruct (Rle_dec x 0) as [H|H]; nra. }
  lra.
Qed.

Lemma reduce_sum2_nonneg t :
  Forall (Forall (fun x => 0 <= x)) t -> 0 <= reduce_sum2 t.
Proof.
  intros H. unfold reduce_sum2. apply reduce_sum_nonneg, Forall_forall.
  intros x Hx. apply in_map_iff in Hx. destruct Hx as (r & <- & Hr).
  rewrite Forall_forall in H. now apply reduce_sum_nonneg, H.
Qed.

Lemma crop_one_nonneg inside_box s box :
  Forall (Forall (fun x => 0 <= x)) s ->
  Forall (Forall (fun x => 0 <= x)) (crop_one inside_box s box).
Proof.
  intros H. unfold crop_one. apply Forall_forall. intros r Hr.
  apply in_map_iff in Hr. destruct Hr as ((i, row) & <- & Hin). simpl.
  apply Forall_forall. intros x Hx. apply in_map_iff in Hx.
  destruct Hx as ((j, v) & <- & Hjv). simpl.
  destruct (inside_box box (length s) (length row) i j); [|lra].
  rewrite Forall_forall in H. specialize (H row (in_combine_r _ _ _ _ Hin)).
  rewrite Forall_forall in H. exact (H v (in_combine_r _ _ _ _ Hjv)).
Qed.

Lemma binary_unit x : x = 0 \/ x = 1 -> unit_interval x.
Proof. unfold unit_interval. intros [-> | ->]; lra. Qed.

Lemma anchor_mask_loss_nonneg center_form inside_box proto mask_gt bbox_norm a :
  Forall binary_mask mask_gt ->
  0 < box_area center_form bbox_norm (snd a) ->
  exists r, anchor_mask_loss center_form inside_box proto mask_gt bbox_norm a = Fin r
            /\ 0 <= r.
Proof.
  intros Hbin Harea. unfold anchor_mask_loss. cbv zeta.
  fold (box_area center_form bbox_norm (snd a)).
  rewrite fdiv_Fin by lra. eexists. split; [reflexivity|].
  apply Rmult_le_pos; [|apply Rlt_le, Rinv_0_lt_compat; exact Harea].
  apply reduce_sum2_nonneg, crop_one_nonneg.
  assert (Hm : binary_mask (nth (Z.to_nat (snd a)) mask_gt [])).
  { destruct (nth_in_or_default (Z.to_nat (snd a)) mask_gt []) as [H|H].
    - rewrite Forall_forall in Hbin. now apply Hbin.
    - rewrite H. constructor. }
  apply Forall_forall. intros r Hr. apply in_map_iff in Hr.
  destruct Hr as ((g, p) & <- & Hin). simpl.
  apply Forall_forall. intros x Hx. apply in_map_iff in Hx.
  destruct Hx as ((z, v) & <- & Hzv). simpl.
  apply sigmoid_xent_nonneg, binary_unit.
  unfold binary_mask in Hm. rewrite Forall_forall in Hm.
  specialize (Hm g (in_combine_l _ _ _ _ Hin)). rewrite Forall_forall in Hm.
  exact (Hm z (in_combine_l _ _ _ _ Hzv)).
Qed.

Lemma freduce_sum_nonneg l :
  Forall (fun x => exists r, x = Fin r /\ 0 <= r) l ->
  exists r, freduce_sum l = Fin r /\ 0 <= r.
Proof.
  induction 1 as [|x l (r & -> & Hr) H (r' & IH & Hr')].
  - exists 0. split; [reflexivity|lra].
  - exists (r + r'). split; [|lra].
    change (fadd (Fin r) (freduce_sum l) = Fin (r + r')). now rewrite IH.
Qed.

Lemma mask_images_positiveness protos coefs bboxes masks pos mids :
  length coefs = length protos -> length bboxes = length protos ->
  length masks = length protos -> length pos = length protos ->
  length mids = length protos ->
  pos = map (fun im : mask_image => fst (snd (snd (snd (snd im)))))
            (mask_images protos coefs bboxes masks pos mids).
Proof.
  intros H1 H2 H3 H4 H5. unfold mask_images.
  rewrite <- (map_map snd (fun x => fst (snd (snd (snd x))))).
  rewrite map_snd_combine_eq by (rewrite !length_combine; lia).
  rewrite <- (map_map snd (fun x => fst (snd (snd x)))).
  rewrite map_snd_combine_eq by (rewrite !length_combine; lia).
  rewrite <- (map_map snd (fun x => fst (snd x))).
  rewrite map_snd_combine_eq by (rewrite !length_combine; lia).
  rewrite <- (map_map snd fst).
  rewrite map_snd_combine_eq by (rewrite !length_combine; lia).
  now rewrite map_fst_combine_eq by lia.
Qed.

Lemma mask_losses_length center_form inside_box protos coefs bboxes masks pos mids :
  mask_batch_ok center_form protos coefs bboxes masks pos mids = true ->
  length (concat (map (image_mask_losses center_form inside_box)
                      (mask_images protos coefs bboxes masks pos mids)))
  = count_anchors 1 pos.
Proof.
  unfold mask_batch_ok. rewrite !andb_true_iff.
  intros (((((H1 & H2) & H3) & H4) & H5) & Hok).
  apply Nat.eqb_eq in H1, H2, H3, H4, H5.
  rewrite (mask_images_positiveness protos coefs bboxes masks pos mids) at 2
    by assumption.
  unfold count_anchors.
  induction (mask_images protos coefs bboxes masks pos mids) as [|im ims IH];
    [reflexivity|].
  cbn [forallb] in Hok. apply andb_true_iff in Hok. destruct Hok as [Him Hok].
  cbn [map concat]. rewrite filter_app, !length_app, IH by assumption. f_equal.
  destruct im as (proto, (mask_coef, (mask_gt, (bbox_norm, (ps, max_id))))).
  unfold mask_image_ok in Him. rewrite !andb_true_iff in Him.
  destruct Him as ((((((((((_ & _) & _) & _) & Hlc) & Hlm) & _) & _) & _) & _) & _).
  apply Nat.eqb_eq in Hlc, Hlm.
  unfold image_mask_losses, mask_anchors. cbn [fst snd]. rewrite length_map.
  rewrite select_length.
  - apply filter_equal1.
  - unfold equal1. rewrite length_map, length_combine. lia.
Qed.

Lemma mask_loss_reference_nonneg center_form inside_box protos coefs bboxes masks pos mids :
  mask_batch_ok center_form protos coefs bboxes masks pos mids = true ->
  Forall (Forall binary_mask) masks ->
  positive_areas center_form protos coefs bboxes masks pos mids ->
  (1 <= count_anchors 1 pos)%nat ->
  nonneg_loss (Some (mask_loss_reference center_form inside_box protos coefs bboxes masks
                                         pos mids)).
Proof.
  intros Hok Hbin Harea Hpos. unfold mask_loss_reference. cbv zeta.
  rewrite (mask_losses_length _ _ _ _ _ _ _ _ Hok).
  destruct (freduce_sum_nonneg
              (concat (map (image_mask_losses center_form inside_box)
                           (mask_images protos coefs bboxes masks pos mids))))
    as (r & Hr & Hr0).
  { apply Forall_concat, Forall_forall. intros l Hl. apply in_map_iff in Hl.
    destruct Hl as (im & <- & Him).
    unfold positive_areas in Harea. rewrite Forall_forall in Harea.
    specialize (Harea im Him).
    destruct im as (proto, (mask_coef, (mask_gt, (bbox_norm, (ps, max_id))))).
    unfold image_mask_losses. apply Forall_forall. intros x Hx.
    apply in_map_iff in Hx. destruct Hx as (a & <- & Ha).
    apply anchor_mask_loss_nonneg.
    - rewrite Forall_forall in Hbin. apply Hbin.
      unfold mask_images in Him. do 2 apply in_combine_r in Him.
      now apply in_combine_l in Him.
    - rewrite Forall_forall in Harea. now apply Harea. }
  rewrite Hr.
  pose proof (@cast_float_pos (count_anchors 1 pos) ltac:(lia)) as Hc.
  rewrite fdiv_Fin by lra. eexists. split; [reflexivity|].
  apply Rmult_le_pos; [exact Hr0 | apply Rlt_le, Rinv_0_lt_compat; exact Hc].
Qed.

Lemma cast_int64_unit y : 1 / 2 <= y <= 3 / 2 -> unit_interval (IZR (cast_int64 y)).
Proof.
  intros [H1 H2]. unfold cast_int64.
  replace (Rleb 0 y) with true by (symmetry; apply Rleb_true; lra).
  destruct (base_Int_part y) as [Hlo Hhi].
  assert (Z0 : (-1 < Int_part y)%Z) by (apply lt_IZR; lra).
  assert (Z1 : (Int_part y < 2)%Z) by (apply lt_IZR; lra).
  split; apply IZR_le; lia.
Qed.

Lemma nth_unit (m : list (list R)) y x :
  Forall (Forall unit_interval) m -> unit_interval (nth x (nth y m []) 0).
Proof.
  intros H.
  assert (Hrow : Forall unit_interval (nth y m [])).
  { destruct (nth_in_or_default y m []) as [Hin|Hd].
    - rewrite Forall_forall in H. now apply H.
    - rewrite Hd. constructor. }
  destruct (nth_in_or_default x (nth y m []) 0) as [Hin|Hd].
  - rewrite Forall_forall in Hrow. now apply Hrow.
  - rewrite Hd. unfold unit_interval. lra.
Qed.

Lemma lerp_unit a b t :
  unit_interval a -> unit_interval b -> 0 <= t < 1 -> unit_interval (a + (b - a) * t).
Proof. unfold unit_interval. intros Ha Hb Ht. split; nra. Qed.

Lemma bilinear_value_unit out_h out_w (m : list (list R)) y x :
  Forall (Forall unit_interval) m ->
  (1 <= length m)%nat -> (1 <= length (hd [] m))%nat ->
  (1 <= out_h)%nat -> (1 <= out_w)%nat -> (y < out_h)%nat -> (x < out_w)%nat ->
  unit_interval (bilinear_value out_h out_w m y x).
Proof.
  intros Hm Hh Hw Hoh How Hy Hx. unfold bilinear_value. cbv zeta.
  pose proof (resize_axis_bounds Hh Hoh Hy) as By.
  destruct (resize_axis (length m) out_h y) as ((yl, yu), yt).
  destruct By as (_ & _ & Byt).
  pose proof (resize_axis_bounds Hw How Hx) as Bx.
  destruct (resize_axis (length (hd [] m)) out_w x) as ((xl, xu), xt).
  destruct Bx as (_ & _ & Bxt).
  apply lerp_unit; [| |assumption]; apply lerp_unit; try assumption; now apply nth_unit.
Qed.

Lemma binary_mask_unit m : binary_mask m -> Forall (Forall unit_interval) m.
Proof.
  intros H. eapply Forall_impl; [|exact H]. intros row Hrow.
  eapply Forall_impl; [|exact Hrow]. intros x. apply binary_unit.
Qed.

Lemma resized_mask_entry_unit s (m : list (list R)) i j :
  binary_mask m ->
  (1 <= length m)%nat -> (1 <= length (hd [] m))%nat ->
  rows_of_length (length (hd [] m)) m = true -> (1 <= s)%nat ->
  (i < s)%nat -> (j < s)%nat ->
  unit_interval (nth j (nth i (resized_mask s m) []) 0).
Proof.
  intros Hbin Hh Hw Hrows Hs Hi Hj. rewrite resized_mask_char by assumption.
  rewrite (nth_map_seq _ s i) by assumption. rewrite (nth_map_seq _ s j) by assumption.
  apply cast_int64_unit.
  pose proof (bilinear_value_unit s s m i j (binary_mask_unit m Hbin) Hh Hw Hs Hs Hi Hj)
    as [H0 H1].
  lra.
Qed.

Lemma bce_sum_nonneg target logits :
  Forall (Forall (Forall unit_interval)) target -> 0 <= bce_sum target logits.
Proof.
  intros H. unfold bce_sum, reduce_sum3. apply reduce_sum_nonneg, Forall_forall.
  intros x Hx. apply in_map_iff in Hx. destruct Hx as (t & <- & Ht).
  apply in_map_iff in Ht. destruct Ht as ((ti, gi) & <- & Hin). simpl.
  apply reduce_sum2_nonneg, Forall_forall. intros r Hr.
  apply in_map_iff in Hr. destruct Hr as ((tr, gr) & <- & Hin2). simpl.
  apply Forall_forall. intros v Hv. apply in_map_iff in Hv.
  destruct Hv as ((z, l) & <- & Hin3). simpl. apply sigmoid_xent_nonneg.
  rewrite Forall_forall in H. specialize (H ti (in_combine_l _ _ _ _ Hin)).
  rewrite Forall_forall in H. specialize (H tr (in_combine_l _ _ _ _ Hin2)).
  rewrite Forall_forall in H. exact (H z (in_combine_l _ _ _ _ Hin3)).
Qed.

Lemma seg_image_target_unit s seg masks cls objects :
  seg_image_ok s (seg, (masks, (cls, objects))) = true ->
  Forall binary_mask masks ->
  Forall (Forall (Forall unit_interval))
         (seg_image_target s (seg, (masks, (cls, objects)))).
Proof.
  unfold seg_image_ok. rewrite !andb_true_iff.
  intros (((((((((Hs2 & _) & _) & _) & _) & _) & Hmasks) & Hcl) & Hobj) & _) Hbin.
  apply Nat.leb_le in Hs2. apply Nat.eqb_eq in Hcl. apply Z.leb_le in Hobj.
  unfold seg_image_target, seg_target_reference.
  apply Forall_forall. intros t Ht. apply in_map_iff in Ht.
  destruct Ht as (i & <- & Hi). apply in_seq in Hi.
  apply Forall_forall. intros r Hr. apply in_map_iff in Hr.
  destruct Hr as (j & <- & Hj). apply in_seq in Hj.
  apply Forall_forall. intros v Hv. apply in_map_iff in Hv.
  destruct Hv as (c & <- & _).
  destruct (last_index_from (Z.of_nat c) 0 (slice_to objects cls)) as [k|] eqn:E.
  - apply last_index_from_lt in E.
    assert (Hk : (k < length masks)%nat).
    { unfold slice_to in E.
      replace (Z.leb 0 objects) with true in E by (symmetry; now apply Z.leb_le).
      rewrite length_firstn in E. lia. }
    assert (Hin : In (nth k masks []) masks) by now apply nth_In.
    rewrite forallb_forall in Hmasks. specialize (Hmasks _ Hin).
    rewrite !andb_true_iff in Hmasks. destruct Hmasks as ((H1 & H2) & H3).
    apply Nat.leb_le in H1, H2.
    apply resized_mask_entry_unit; try assumption; try lia.
    rewrite Forall_forall in Hbin. now apply Hbin.
  - unfold unit_interval. lra.
Qed.

Lemma seg_loss_nonneg pred_seg mask_gt classes num_obj :
  seg_batch_ok pred_seg mask_gt classes num_obj = true ->
  Forall (Forall binary_mask) mask_gt ->
  nonneg_loss (_loss_semantic_segmentation pred_seg mask_gt classes num_obj).
Proof.
  intros Hok Hbin. rewrite loss_seg_char by assumption.
  eexists. split; [reflexivity|].
  unfold seg_batch_ok in Hok. rewrite !andb_true_iff in Hok.
  destruct Hok as ((((Hb & _) & _) & _) & Hall). apply Nat.leb_le in Hb.
  set (s := length (hd [] pred_seg)) in *.
  assert (Hsum : 0 <= reduce_sum (map (seg_image_loss s)
                                      (seg_images pred_seg mask_gt classes num_obj))).
  { apply reduce_sum_nonneg, Forall_forall. intros x Hx. apply in_map_iff in Hx.
    destruct Hx as (im & <- & Him). unfold seg_image_loss.
    apply bce_sum_nonneg.
    rewrite forallb_forall in Hall. specialize (Hall im Him).
    destruct im as (seg, (masks, (cls, objects))).
    apply seg_image_target_unit; [assumption|].
    rewrite Forall_forall in Hbin. apply Hbin.
    unfold seg_images in Him. apply in_combine_r in Him. now apply in_combine_l in Him. }
  assert (Hs : 0 <= cast_float s ^ 2) by (simpl; nra).
  pose proof (@cast_float_pos (length mask_gt) ltac:(lia)) as HB.
  apply Rmult_le_pos; [|apply Rlt_le, Rinv_0_lt_compat; exact HB].
  unfold Rdiv. apply Rmult_le_pos; [exact Hsum|].
  destruct (Req_dec (cast_float s ^ 2) 0) as [E|E].
  - rewrite E, Rinv_0. lra.
  - apply Rlt_le, Rinv_0_lt_compat. lra.
Qed.

Lemma example_batch_ok :
  batch_ok example_center_form (__init__default 2) example_true example_pred.
Proof.
  repeat split; try reflexivity. simpl. lia.
Qed.

Lemma example_positive_areas :
  positive_areas example_center_form (proto_out example_pred)
                 (pred_mask_coef example_pred) (bbox_for_norm example_true)
                 (mask_target example_true) (positiveness example_true)
                 (max_id_for_anchors example_true).
Proof.
  unfold positive_areas. repeat constructor. unfold box_area. simpl. lra.
Qed.

Ltac list_forall :=
  unfold binary_mask; repeat (apply Forall_cons || apply Forall_nil); auto.

Lemma example_binary_masks : Forall (Forall binary_mask) (mask_target example_true).
Proof.
  simpl. list_forall.
Qed.

(** C9, as the code has it.  For a well-shaped batch with binary masks, with
    at least one positive anchor and with boxes of positive area for the
    objects matched to the positive anchors, each of the four losses is
    returned and is a non-negative number. *)
Theorem losses_nonnegative_with_positive_anchor center_form inside_box
    (self : YOLACTLoss) (y_true : labels) (y_pred : predictions) :
  batch_ok center_form self y_true y_pred ->
  Forall (Forall binary_mask) (mask_target y_true) ->
  positive_areas center_form (proto_out y_pred) (pred_mask_coef y_pred)
                 (bbox_for_norm y_true) (mask_target y_true) (positiveness y_true)
                 (max_id_for_anchors y_true) ->
  (1 <= count_anchors 1 (positiveness y_true))%nat ->
  nonneg_loss (_loss_location (pred_offset y_pred) (box_targets y_true)
                              (positiveness y_true))
  /\ nonneg_loss (_loss_class self (pred_cls y_pred) (cls_targets y_true)
                              (positiveness y_true))
  /\ nonneg_loss (_loss_mask center_form inside_box (proto_out y_pred)
                             (pred_mask_coef y_pred) (bbox_for_norm y_true)
                             (mask_target y_true) (positiveness y_true)
                             (max_id_for_anchors y_true) (_max_masks_for_train self))
  /\ nonneg_loss (_loss_semantic_segmentation (seg y_pred) (mask_target y_true)
                                              (classes y_true) (num_obj y_true)).
Proof.
  intros ((L1 & L2 & L3 & L4) & (C0 & C1 & C2 & C3) & M & S) Hbin Harea Hpos.
  repeat split.
  - rewrite loss_location_char by assumption.
    pose proof (@cast_float_pos (count_anchors 1 (positiveness y_true)) ltac:(lia)).
    rewrite fdiv_Fin by lra. eexists. split; [reflexivity|].
    now apply loc_loss_reference_nonneg.
  - rewrite loss_class_char by assumption.
    apply class_loss_reference_nonneg; [assumption|].
    now apply class_anchors_length.
  - rewrite loss_mask_char by assumption.
    now apply mask_loss_reference_nonneg.
  - now apply seg_loss_nonneg.
Qed.

Lemma losses_nonnegative_with_positive_anchor_witness :
  nonneg_loss (_loss_location (pred_offset example_pred) (box_targets example_true)
                              (positiveness example_true))
  /\ nonneg_loss (_loss_class (__init__default 2) (pred_cls example_pred)
                              (cls_targets example_true) (positiveness example_true))
  /\ nonneg_loss (_loss_mask example_center_form example_inside_box
                             (proto_out example_pred) (pred_mask_coef example_pred)
                             (bbox_for_norm example_true) (mask_target example_true)
                             (positiveness example_true)
                             (max_id_for_anchors example_true)
                             (_max_masks_for_train (__init__default 2)))
  /\ nonneg_loss (_loss_semantic_segmentation (seg example_pred)
                                              (mask_target example_true)
                                              (classes example_true)
                                              (num_obj example_true)).
Proof.
  apply (losses_nonnegative_with_positive_anchor example_center_form example_inside_box
           (__init__default 2) example_true example_pred).
  - repeat split; try reflexivity. simpl. lia.
  - simpl. list_forall.
  - unfold positive_areas. repeat constructor. unfold box_area. simpl. lra.
  - vm_compute. lia.
Defined.

(** C9 as stated fails: the example batch without positive anchor is valid,
    and its localization loss is not-a-number, not a non-negative number. *)
Lemma localization_loss_not_a_number :
  batch_ok example_center_form (__init__default 2) example_true_negative example_pred
  /\ Forall (Forall binary_mask) (mask_target example_true_negative)
  /\ ~ nonneg_loss (_loss_location (pred_offset example_pred)
                                   (box_targets example_true_negative)
                                   (positiveness example_true_negative)).
Proof.
  split; [|split].
  - repeat split; try reflexivity. simpl. lia.
  - simpl. list_forall.
  - pose proof (zero_positive_losses example_center_form example_inside_box
                  (__init__default 2) example_true_negative example_pred) as H.
    destruct H as (H1 & _); try reflexivity; [simpl; lia|].
    rewrite H1. intros (r & Hr & _). discriminate.
Qed.

(** ** Anchors as records *)

Lemma zip2_fst {X Y} (a : list (list X)) (b : list (list Y)) :
  map (@length X) a = map (@length Y) b -> map (map fst) (zip2 a b) = a.
Proof.
  unfold zip2. revert b. induction a as [|x a IH]; intros [|y b] H; try discriminate;
    [reflexivity|].
  simpl in *. inversion H. rewrite IH by assumption.
  now rewrite map_fst_combine_eq by assumption.
Qed.

Lemma zip2_snd {X Y} (a : list (list X)) (b : list (list Y)) :
  map (@length X) a = map (@length Y) b -> map (map snd) (zip2 a b) = b.
Proof.
  unfold zip2. revert b. induction a as [|x a IH]; intros [|y b] H; try discriminate;
    [reflexivity|].
  simpl in *. inversion H. rewrite IH by assumption.
  now rewrite map_snd_combine_eq by assumption.
Qed.

Lemma zip2_lengths {X Y} (a : list (list X)) (b : list (list Y)) :
  map (@length X) a = map (@length Y) b ->
  map (@length (X * Y)) (zip2 a b) = map (@length X) a.
Proof.
  intros H. rewrite <- (zip2_fst a b H) at 2. rewrite map_map.
  apply map_ext. intros l. now rewrite length_map.
Qed.

Lemma map_map2 {X Y W} (f : X -> Y) (g : Y -> W) (t : list (list X)) :
  map (map g) (map (map f) t) = map (map (fun x => g (f x))) t.
Proof. rewrite map_map. apply map_ext. intros l. apply map_map. Qed.

(** The seven per-anchor tensors are the projections of the anchors. *)
Lemma tensors_of_anchors (y_true : labels) (y_pred : predictions) :
  same_anchor_counts y_true y_pred ->
  pred_cls y_pred = map (map anchor_class_logits) (anchors_of y_true y_pred)
  /\ pred_offset y_pred = map (map anchor_box_offsets) (anchors_of y_true y_pred)
  /\ pred_mask_coef y_pred = map (map anchor_mask_coef) (anchors_of y_true y_pred)
  /\ cls_targets y_true = map (map anchor_class_target) (anchors_of y_true y_pred)
  /\ box_targets y_true = map (map anchor_box_target) (anchors_of y_true y_pred)
  /\ positiveness y_true = map (map anchor_positiveness) (anchors_of y_true y_pred)
  /\ max_id_for_anchors y_true = map (map anchor_max_id) (anchors_of y_true y_pred).
Proof.
  intros (H1 & H2 & H3 & H4 & H5 & H6). unfold anchors_of.
  set (Z6 := zip2 (positiveness y_true) (max_id_for_anchors y_true)).
  set (Z5 := zip2 (box_targets y_true) Z6).
  set (Z4 := zip2 (cls_targets y_true) Z5).
  set (Z3 := zip2 (pred_mask_coef y_pred) Z4).
  set (Z2 := zip2 (pred_offset y_pred) Z3).
  assert (L6 : map (@length _) (positiveness y_true) = map (@length _) (max_id_for_anchors y_true))
    by congruence.
  assert (E6 : map (@length _) Z6 = map (@length _) (positiveness y_true))
    by (apply zip2_lengths; exact L6).
  assert (L5 : map (@length _) (box_targets y_true) = map (@length _) Z6) by congruence.
  assert (E5 : map (@length _) Z5 = map (@length _) (positiveness y_true))
    by (unfold Z5; rewrite zip2_lengths; assumption).
  assert (L4 : map (@length _) (cls_targets y_true) = map (@length _) Z5) by congruence.
  assert (E4 : map (@length _) Z4 = map (@length _) (positiveness y_true))
    by (unfold Z4; rewrite zip2_lengths; assumption).
  assert (L3 : map (@length _) (pred_mask_coef y_pred) = map (@length _) Z4) by congruence.
  assert (E3 : map (@length _) Z3 = map (@length _) (positiveness y_true))
    by (unfold Z3; rewrite zip2_lengths; assumption).
  assert (L2 : map (@length _) (pred_offset y_pred) = map (@length _) Z3) by congruence.
  assert (E2 : map (@length _) Z2 = map (@length _) (positiveness y_true))
    by (unfold Z2; rewrite zip2_lengths; assumption).
  assert (L1 : map (@length _) (pred_cls y_pred) = map (@length _) Z2) by congruence.
  unfold anchor_class_logits, anchor_box_offsets, anchor_mask_coef, anchor_class_target,
    anchor_box_target, anchor_positiveness, anchor_max_id.
  assert (S1 : map (map snd) (zip2 (pred_cls y_pred) Z2) = Z2) by now apply zip2_snd.
  assert (S2 : map (map snd) Z2 = Z3) by now apply zip2_snd.
  assert (S3 : map (map snd) Z3 = Z4) by now apply zip2_snd.
  assert (S4 : map (map snd) Z4 = Z5) by now apply zip2_snd.
  assert (S5 : map (map snd) Z5 = Z6) by now apply zip2_snd.
  repeat split.
  - symmetry. now apply zip2_fst.
  - rewrite <- (map_map2 snd fst), S1. symmetry. now apply zip2_fst.
  - rewrite <- (map_map2 (fun a => snd (snd a)) fst), <- (map_map2 snd snd), S1, S2.
    symmetry. now apply zip2_fst.
  - rewrite <- (map_map2 (fun a => snd (snd (snd a))) fst).
    rewrite <- (map_map2 (fun a => snd (snd a)) snd), <- (map_map2 snd snd), S1, S2, S3.
    symmetry. now apply zip2_fst.
  - rewrite <- (map_map2 (fun a => snd (snd (snd (snd a)))) fst).
    rewrite <- (map_map2 (fun a => snd (snd (snd a))) snd).
    rewrite <- (map_map2 (fun a => snd (snd a)) snd), <- (map_map2 snd snd).
    rewrite S1, S2, S3, S4. symmetry. now apply zip2_fst.
  - rewrite <- (map_map2 (fun a => snd (snd (snd (snd (snd a))))) fst).
    rewrite <- (map_map2 (fun a => snd (snd (snd (snd a)))) snd).
    rewrite <- (map_map2 (fun a => snd (snd (snd a))) snd).
    rewrite <- (map_map2 (fun a => snd (snd a)) snd), <- (map_map2 snd snd).
    rewrite S1, S2, S3, S4, S5. symmetry. now apply zip2_fst.
  - rewrite <- (map_map2 (fun a => snd (snd (snd (snd (snd a))))) snd).
    rewrite <- (map_map2 (fun a => snd (snd (snd (snd a)))) snd).
    rewrite <- (map_map2 (fun a => snd (snd (snd a))) snd).
    rewrite <- (map_map2 (fun a => snd (snd a)) snd), <- (map_map2 snd snd).
    rewrite S1, S2, S3, S4, S5. symmetry. now apply zip2_snd.
Qed.

Lemma select_records {A X} (f : A -> Z) (g : A -> X) v (l : list A) :
  select (equal1 (map f l) v) (map g l) = map g (filter (fun a => Z.eqb (f a) v) l).
Proof.
  induction l as [|a l IH]; [reflexivity|].
  unfold equal1 in *. cbn [map]. rewrite select_cons, IH. cbn [filter].
  destruct (Z.eqb (f a) v); reflexivity.
Qed.

Lemma anchors_with_records {X} (g : anchor -> X) v (anchors : list (list anchor)) :
  anchors_with v (map (map anchor_positiveness) anchors) (map (map g) anchors)
  = map g (anchors_where v anchors).
Proof.
  unfold anchors_with, anchors_where.
  induction anchors as [|l anchors IH]; [reflexivity|].
  cbn [map combine concat fst snd]. rewrite map_app, <- IH. f_equal.
  apply select_records.
Qed.

Lemma Permutation_filter {X} (p : X -> bool) l l' :
  Permutation l l' -> Permutation (filter p l) (filter p l').
Proof.
  induction 1 as [|x l l' _ IH|x y l|l1 l2 l3 _ IH1 _ IH2]; simpl.
  - constructor.
  - destruct (p x); [now constructor | assumption].
  - destruct (p x), (p y); try reflexivity. apply perm_swap.
  - now transitivity (filter p l2).
Qed.

Lemma Permutation_concat_Forall2 {X} (t t' : list (list X)) :
  Forall2 (@Permutation X) t t' -> Permutation (concat t) (concat t').
Proof.
  induction 1 as [|l l' t t' Hl _ IH]; simpl; [constructor|].
  now apply Permutation_app.
Qed.

Lemma anchors_where_perm v (anchors anchors' : list (list anchor)) :
  Forall2 (@Permutation anchor) anchors anchors' ->
  Permutation (anchors_where v anchors) (anchors_where v anchors').
Proof.
  intros H. unfold anchors_where. apply Permutation_concat_Forall2.
  induction H as [|l l' t t' Hl _ IH]; simpl; constructor; [|assumption].
  now apply Permutation_filter.
Qed.

Lemma count_anchors_records v (anchors : list (list anchor)) :
  count_anchors v (map (map anchor_positiveness) anchors)
  = length (anchors_where v anchors).
Proof.
  unfold count_anchors, anchors_where.
  induction anchors as [|l anchors IH]; [reflexivity|].
  cbn [map concat]. rewrite filter_app, !length_app, IH. f_equal.
  induction l as [|a l IHl]; [reflexivity|].
  cbn [map filter]. destruct (Z.eqb (anchor_positiveness a) v); simpl; now rewrite IHl.
Qed.

(** ** Reordering the anchors: localization loss *)

Lemma loc_loss_records (y_true : labels) (y_pred : predictions) :
  loc_batch_ok y_true y_pred -> same_anchor_counts y_true y_pred ->
  _loss_location (pred_offset y_pred) (box_targets y_true) (positiveness y_true)
  = Some (fdiv (Fin (reduce_sum
                       (map (fun a => smooth_l1_sum (anchor_box_target a)
                                                    (anchor_box_offsets a) / 4)
                            (anchors_where 1 (anchors_of y_true y_pred)))))
               (Fin (cast_float (length (anchors_where 1 (anchors_of y_true y_pred)))))).
Proof.
  intros (L1 & L2 & L3 & L4) Hsame.
  rewrite loss_location_char by assumption.
  destruct (tensors_of_anchors y_true y_pred Hsame) as (_ & T2 & _ & _ & T5 & T6 & _).
  rewrite T6, T2, T5. rewrite !anchors_with_records, count_anchors_records.
  now rewrite combine_map_both, map_map.
Qed.

Lemma loc_loss_permuted (y_true : labels) (y_pred : predictions)
    (y_true' : labels) (y_pred' : predictions) :
  loc_batch_ok y_true y_pred -> loc_batch_ok y_true' y_pred' ->
  same_anchor_counts y_true y_pred -> same_anchor_counts y_true' y_pred' ->
  Forall2 (@Permutation anchor) (anchors_of y_true y_pred) (anchors_of y_true' y_pred') ->
  _loss_location (pred_offset y_pred') (box_targets y_true') (positiveness y_true')
  = _loss_location (pred_offset y_pred) (box_targets y_true) (positiveness y_true).
Proof.
  intros Hok Hok' Hs Hs' Hperm. rewrite !loc_loss_records by assumption.
  pose proof (anchors_where_perm 1 _ _ Hperm) as HP.
  rewrite (Permutation_length HP).
  rewrite (reduce_sum_perm (Permutation_map _ HP)). reflexivity.
Qed.

(** ** Sorting values that are pairwise different *)

Lemma fltb_asym x y : fltb x y = true -> fltb y x = false.
Proof.
  unfold fltb. destruct x, y; try reflexivity; try discriminate.
  intros H. apply Rltb_true in H. apply Rltb_false. lra.
Qed.

Lemma fltb_trans x y z : fltb x y = true -> fltb y z = true -> fltb x z = true.
Proof.
  unfold fltb. destruct x, y, z; try reflexivity; try discriminate.
  intros H1 H2. apply Rltb_true in H1, H2. apply Rltb_true. lra.
Qed.

Lemma fltb_total x y :
  x <> NaN -> y <> NaN -> x <> y -> fltb x y = true \/ fltb y x = true.
Proof.
  unfold fltb. destruct x, y; intros Hx Hy Hne; try congruence; auto.
  destruct (Rtotal_order r r0) as [H|[H|H]].
  - left. now apply Rltb_true.
  - congruence.
  - right. now apply Rltb_true.
Qed.

Section SortUnique.

Variable X : Type.
Variable key : X -> tfloat.

Lemma insert_descending_In x y l :
  In y (insert_descending key x l) -> y = x \/ In y l.
Proof.
  intros H. apply (Permutation_in _ (Permutation_sym (insert_descending_perm key x l))) in H.
  destruct H as [H|H]; auto.
Qed.

Lemma insert_descending_sorted x l :
  key x <> NaN ->
  Forall (fun y => key y <> NaN /\ key y <> key x) l ->
  StronglySorted (before key) l -> StronglySorted (before key) (insert_descending key x l).
Proof.
  intros Hx Hl Hs. induction Hs as [|y l Hs IH Hy]; simpl.
  - repeat constructor.
  - inversion Hl as [|? ? [Hyn Hyx] Hl']; subst.
    rewrite (ranks_below_fltb _ _ Hx Hyn).
    destruct (fltb (key x) (key y)) eqn:E.
    + constructor; [now apply IH|].
      apply Forall_forall. intros z Hz. apply insert_descending_In in Hz.
      destruct Hz as [->|Hz]; [exact E|].
      rewrite Forall_forall in Hy. now apply Hy.
    + assert (Hxy : before key x y).
      { unfold before. destruct (fltb_total (key x) (key y)) as [H|H]; congruence. }
      constructor; [now constructor|].
      constructor; [exact Hxy|].
      apply Forall_forall. intros z Hz. rewrite Forall_forall in Hy.
      unfold before in *. eapply fltb_trans; [apply Hy; exact Hz | exact Hxy].
Qed.

Lemma sort_descending_sorted l :
  NoDup (map key l) -> Forall (fun a => key a <> NaN) l ->
  StronglySorted (before key) (sort_descending key l).
Proof.
  induction l as [|x l IH]; intros Hnd Hn; simpl; [constructor|].
  inversion Hnd as [|? ? Hnotin Hnd']; subst. inversion Hn as [|? ? Hx Hn']; subst.
  apply insert_descending_sorted; [assumption| |now apply IH].
  apply Forall_forall. intros y Hy.
  apply (Permutation_in _ (Permutation_sym (sort_descending_perm key l))) in Hy.
  rewrite Forall_forall in Hn'. split; [now apply Hn'|].
  intros E. apply Hnotin. rewrite <- E. now apply in_map.
Qed.

Lemma sorted_perm_unique l l' :
  StronglySorted (before key) l -> StronglySorted (before key) l' -> Permutation l l' -> l = l'.
Proof.
  intros Hs. revert l'. induction Hs as [|a l Hs IH Ha]; intros l' Hs' Hp.
  - apply Permutation_nil in Hp. now subst.
  - destruct l' as [|a' l']; [apply Permutation_sym, Permutation_nil in Hp; discriminate|].
    inversion Hs' as [|? ? Hs'' Ha']; subst.
    assert (E : a = a').
    { assert (H1 : In a (a' :: l')) by (apply (Permutation_in _ Hp); now left).
      assert (H2 : In a' (a :: l))
        by (apply (Permutation_in _ (Permutation_sym Hp)); now left).
      destruct H1 as [H1|H1]; [now subst|]. destruct H2 as [H2|H2]; [now subst|].
      rewrite Forall_forall in Ha, Ha'.
      specialize (Ha a' H2). specialize (Ha' a H1). unfold before in *.
      apply fltb_asym in Ha. congruence. }
    subst a'. f_equal. apply IH; [assumption|]. now apply Permutation_cons_inv in Hp.
Qed.

(** Two orders of the same entries, whose keys are pairwise different and
    none not-a-number, sort to the same list. *)
Lemma sort_descending_perm_eq l l' :
  Permutation l l' -> NoDup (map key l) -> Forall (fun a => key a <> NaN) l ->
  sort_descending key l' = sort_descending key l.
Proof.
  intros Hp Hnd Hn. apply sorted_perm_unique.
  - apply sort_descending_sorted.
    + eapply Permutation_NoDup; [apply Permutation_map; exact Hp | exact Hnd].
    + eapply Permutation_Forall; [exact Hp | exact Hn].
  - now apply sort_descending_sorted.
  - rewrite <- (sort_descending_perm key l'), <- (sort_descending_perm key l).
    now apply Permutation_sym.
Qed.

End SortUnique.

(** ** Reordering the anchors: classification loss *)

Lemma class_anchors_records v (y_true : labels) (y_pred : predictions) :
  same_anchor_counts y_true y_pred ->
  class_anchors v (pred_cls y_pred) (cls_targets y_true) (positiveness y_true)
  = map (fun a => (anchor_class_target a, anchor_class_logits a))
        (filter (fun a => Z.eqb (anchor_positiveness a) v)
                (concat (anchors_of y_true y_pred))).
Proof.
  intros Hsame.
  destruct (tensors_of_anchors y_true y_pred Hsame) as (T1 & _ & _ & T4 & _ & T6 & _).
  unfold class_anchors. rewrite T1, T4, T6 at 1. rewrite <- !concat_map.
  rewrite combine_map_both. apply select_records.
Qed.

Lemma class_loss_permuted (self : YOLACTLoss) (y_true : labels) (y_pred : predictions)
    (y_true' : labels) (y_pred' : predictions) :
  class_batch_ok self y_true y_pred -> class_batch_ok self y_true' y_pred' ->
  same_anchor_counts y_true y_pred -> same_anchor_counts y_true' y_pred' ->
  Forall2 (@Permutation anchor) (anchors_of y_true y_pred) (anchors_of y_true' y_pred') ->
  distinct_negative_scores y_true y_pred ->
  _loss_class self (pred_cls y_pred') (cls_targets y_true') (positiveness y_true')
  = _loss_class self (pred_cls y_pred) (cls_targets y_true) (positiveness y_true).
Proof.
  intros (C0 & C1 & C2 & C3) (_ & C1' & C2' & C3') Hs Hs' Hperm (Hnd & Hnan).
  rewrite !loss_class_char by assumption.
  unfold class_loss_reference, mined_negatives.
  assert (HP : forall v,
             Permutation
               (class_anchors v (pred_cls y_pred) (cls_targets y_true) (positiveness y_true))
               (class_anchors v (pred_cls y_pred') (cls_targets y_true')
                              (positiveness y_true'))).
  { intros v. rewrite !class_anchors_records by assumption.
    apply Permutation_map, Permutation_filter. now apply Permutation_concat_Forall2. }
  rewrite <- (Permutation_length (HP 1%Z)).
  rewrite (sort_descending_perm_eq _ (fun a => neg_score (snd a)) _ _ (HP 0%Z) Hnd Hnan).
  f_equal. f_equal. f_equal.
  apply reduce_sum_perm, Permutation_map, Permutation_app_tail, Permutation_sym, HP.
Qed.

(** ** Reordering the anchors: mask loss *)

Lemma mask_images_records (protos : list (list (list (list R))))
    (bboxes : list (list (list R))) (masks : list (list (list (list R))))
    (anchors : list (list anchor)) :
  mask_images protos (map (map anchor_mask_coef) anchors) bboxes masks
              (map (map anchor_positiveness) anchors) (map (map anchor_max_id) anchors)
  = map (fun x : list (list (list R))
                 * (list (list (list R)) * (list (list R) * list anchor)) =>
           (fst x, (map anchor_mask_coef (snd (snd (snd x))),
                    (fst (snd x), (fst (snd (snd x)),
                                   (map anchor_positiveness (snd (snd (snd x))),
                                    map anchor_max_id (snd (snd (snd x)))))))))
        (combine protos (combine masks (combine bboxes anchors))).
Proof.
  unfold mask_images. revert masks bboxes anchors.
  induction protos as [|p protos IH]; intros masks bboxes anchors; [reflexivity|].
  destruct masks as [|m masks], bboxes as [|b bboxes], anchors as [|z anchors];
    simpl; try reflexivity.
  f_equal. apply IH.
Qed.

Lemma image_mask_losses_records center_form inside_box proto mask_gt bbox_norm
    (z : list anchor) :
  image_mask_losses center_form inside_box
    (proto, (map anchor_mask_coef z,
             (mask_gt, (bbox_norm, (map anchor_positiveness z, map anchor_max_id z)))))
  = map (fun a => anchor_mask_loss center_form inside_box proto mask_gt bbox_norm
                                   (anchor_mask_coef a, anchor_max_id a))
        (filter (fun a => Z.eqb (anchor_positiveness a) 1) z).
Proof.
  unfold image_mask_losses, mask_anchors.
  rewrite combine_map_both, select_records. now rewrite map_map.
Qed.

Lemma mask_losses_permuted center_form inside_box protos bboxes masks
    (anchors anchors' : list (list anchor)) :
  Forall2 (@Permutation anchor) anchors anchors' ->
  Permutation
    (concat (map (image_mask_losses center_form inside_box)
                 (mask_images protos (map (map anchor_mask_coef) anchors) bboxes masks
                              (map (map anchor_positiveness) anchors)
                              (map (map anchor_max_id) anchors))))
    (concat (map (image_mask_losses center_form inside_box)
                 (mask_images protos (map (map anchor_mask_coef) anchors') bboxes masks
                              (map (map anchor_positiveness) anchors')
                              (map (map anchor_max_id) anchors')))).
Proof.
  intros H. rewrite !mask_images_records, !map_map. cbn [fst snd].
  revert protos masks bboxes.
  induction H as [|z z' anchors anchors' Hz _ IH]; intros protos masks bboxes.
  - destruct protos, masks, bboxes; constructor.
  - destruct protos as [|p protos]; [constructor|].
    destruct masks as [|m masks]; [constructor|].
    destruct bboxes as [|b bboxes]; [constructor|].
    cbn [combine map concat fst snd]. apply Permutation_app; [|apply IH].
    rewrite !image_mask_losses_records.
    now apply Permutation_map, Permutation_filter.
Qed.

Lemma mask_loss_permuted center_form inside_box (self : YOLACTLoss)
    (y_true : labels) (y_pred : predictions) (y_true' : labels) (y_pred' : predictions) :
  batch_ok center_form self y_true y_pred -> batch_ok center_form self y_true' y_pred' ->
  same_anchor_counts y_true y_pred -> same_anchor_counts y_true' y_pred' ->
  anchors_permuted y_true y_pred y_true' y_pred' ->
  _loss_mask center_form inside_box (proto_out y_pred') (pred_mask_coef y_pred')
             (bbox_for_norm y_true') (mask_target y_true') (positiveness y_true')
             (max_id_for_anchors y_true') (_max_masks_for_train self)
  = _loss_mask center_form inside_box (proto_out y_pred) (pred_mask_coef y_pred)
               (bbox_for_norm y_true) (mask_target y_true) (positiveness y_true)
               (max_id_for_anchors y_true) (_max_masks_for_train self).
Proof.
  intros (_ & _ & M & _) (_ & _ & M' & _) Hs Hs' (E1 & _ & E3 & E4 & _ & _ & Hperm).
  rewrite !loss_mask_char by assumption. unfold mask_loss_reference. cbv zeta.
  destruct (tensors_of_anchors y_true y_pred Hs) as (_ & _ & T3 & _ & _ & T6 & T7).
  destruct (tensors_of_anchors y_true' y_pred' Hs') as (_ & _ & T3' & _ & _ & T6' & T7').
  rewrite E1, E3, E4, T3, T6, T7, T3', T6', T7'.
  pose proof (mask_losses_permuted center_form inside_box (proto_out y_pred)
                (bbox_for_norm y_true) (mask_target y_true) _ _ Hperm) as HP.
  rewrite <- (Permutation_length HP). now rewrite <- (freduce_sum_perm HP).
Qed.

(** ** Reordering the anchors *)

Lemma mask_images_coefs protos coefs bboxes masks pos mids :
  length coefs = length protos -> length bboxes = length protos ->
  length masks = length protos -> length pos = length protos ->
  length mids = length protos ->
  coefs = map (fun im : mask_image => fst (snd im))
              (mask_images protos coefs bboxes masks pos mids).
Proof.
  intros H1 H2 H3 H4 H5. unfold mask_images.
  rewrite <- (map_map snd fst).
  rewrite map_snd_combine_eq by (rewrite !length_combine; lia).
  now rewrite map_fst_combine_eq by (rewrite !length_combine; lia).
Qed.

Lemma mask_images_max_ids protos coefs bboxes masks pos mids :
  length coefs = length protos -> length bboxes = length protos ->
  length masks = length protos -> length pos = length protos ->
  length mids = length protos ->
  mids = map (fun im : mask_image => snd (snd (snd (snd (snd im)))))
             (mask_images protos coefs bboxes masks pos mids).
Proof.
  intros H1 H2 H3 H4 H5. unfold mask_images.
  rewrite <- (map_map snd (fun x => snd (snd (snd (snd x))))).
  rewrite map_snd_combine_eq by (rewrite !length_combine; lia).
  rewrite <- (map_map snd (fun x => snd (snd (snd x)))).
  rewrite map_snd_combine_eq by (rewrite !length_combine; lia).
  rewrite <- (map_map snd (fun x => snd (snd x))).
  rewrite map_snd_combine_eq by (rewrite !length_combine; lia).
  rewrite <- (map_map snd snd).
  rewrite map_snd_combine_eq by (rewrite !length_combine; lia).
  now rewrite map_snd_combine_eq by lia.
Qed.

(** In a well-shaped batch the seven per-anchor tensors list the same
    anchors. *)
Lemma batch_ok_same_anchor_counts center_form (self : YOLACTLoss)
    (y_true : labels) (y_pred : predictions) :
  batch_ok center_form self y_true y_pred -> same_anchor_counts y_true y_pred.
Proof.
  intros ((L1 & L2 & _ & _) & (_ & C1 & C2 & _) & M & _).
  unfold mask_batch_ok in M. rewrite !andb_true_iff in M.
  destruct M as (((((H1 & H2) & H3) & H4) & H5) & Hok).
  apply Nat.eqb_eq in H1, H2, H3, H4, H5.
  pose proof (mask_images_positiveness _ _ _ _ _ _ H1 H2 H3 H4 H5) as EP.
  pose proof (mask_images_coefs _ _ _ _ _ _ H1 H2 H3 H4 H5) as EC.
  pose proof (mask_images_max_ids _ _ _ _ _ _ H1 H2 H3 H4 H5) as EM.
  set (ims := mask_images (proto_out y_pred) (pred_mask_coef y_pred)
                          (bbox_for_norm y_true) (mask_target y_true)
                          (positiveness y_true) (max_id_for_anchors y_true)) in *.
  assert (G : forall im, In im ims ->
                         length (fst (snd im)) = length (fst (snd (snd (snd (snd im)))))
                         /\ length (snd (snd (snd (snd (snd im)))))
                            = length (fst (snd (snd (snd (snd im)))))).
  { intros im Him. rewrite forallb_forall in Hok. specialize (Hok im Him).
    destruct im as (proto, (mask_coef, (mask_gt, (bbox_norm, (ps, max_id))))).
    unfold mask_image_ok in Hok. rewrite !andb_true_iff in Hok.
    destruct Hok as ((((((((((_ & _) & _) & _) & Hlc) & Hlm) & _) & _) & _) & _) & _).
    apply Nat.eqb_eq in Hlc, Hlm. simpl. auto. }
  repeat split; try congruence.
  - rewrite EC, EP. rewrite !map_map. apply map_ext_in. intros im Him.
    now apply G.
  - rewrite EM, EP. rewrite !map_map. apply map_ext_in. intros im Him.
    now apply G.
Qed.

(** What the code keeps of the invariance under a reordering of the anchors.
    For two well-shaped batches that differ by a reordering of the anchors
    within each image, the same in all per-anchor predictions and targets,
    the localization, the mask and the segmentation loss are the same; the
    classification loss is the same when the scores by which the code ranks
    the negative anchors are pairwise different and none is not-a-number. *)
Lemma losses_invariant_under_anchor_order center_form inside_box (self : YOLACTLoss)
    (y_true : labels) (y_pred : predictions) (y_true' : labels) (y_pred' : predictions) :
  batch_ok center_form self y_true y_pred ->
  batch_ok center_form self y_true' y_pred' ->
  anchors_permuted y_true y_pred y_true' y_pred' ->
  distinct_negative_scores y_true y_pred ->
  _loss_location (pred_offset y_pred') (box_targets y_true') (positiveness y_true')
  = _loss_location (pred_offset y_pred) (box_targets y_true) (positiveness y_true)
  /\ _loss_class self (pred_cls y_pred') (cls_targets y_true') (positiveness y_true')
     = _loss_class self (pred_cls y_pred) (cls_targets y_true) (positiveness y_true)
  /\ _loss_mask center_form inside_box (proto_out y_pred') (pred_mask_coef y_pred')
                (bbox_for_norm y_true') (mask_target y_true') (positiveness y_true')
                (max_id_for_anchors y_true') (_max_masks_for_train self)
     = _loss_mask center_form inside_box (proto_out y_pred) (pred_mask_coef y_pred)
                  (bbox_for_norm y_true) (mask_target y_true) (positiveness y_true)
                  (max_id_for_anchors y_true) (_max_masks_for_train self)
  /\ _loss_semantic_segmentation (seg y_pred') (mask_target y_true') (classes y_true')
                                 (num_obj y_true')
     = _loss_semantic_segmentation (seg y_pred) (mask_target y_true) (classes y_true)
                                   (num_obj y_true).
Proof.
  intros Hok Hok' Hperm Hdist.
  pose proof (batch_ok_same_anchor_counts _ _ _ _ Hok) as Hs.
  pose proof (batch_ok_same_anchor_counts _ _ _ _ Hok') as Hs'.
  split; [|split; [|split]].
  - destruct Hok as (L & _), Hok' as (L' & _), Hperm as (_ & _ & _ & _ & _ & _ & HP).
    now apply loc_loss_permuted.
  - destruct Hok as (_ & C & _), Hok' as (_ & C' & _),
      Hperm as (_ & _ & _ & _ & _ & _ & HP).
    now apply class_loss_permuted.
  - now apply mask_loss_permuted.
  - destruct Hperm as (_ & E2 & _ & E4 & E5 & E6 & _). now rewrite E2, E4, E5, E6.
Qed.

Lemma example_distinct_scores : distinct_negative_scores example_true example_pred.
Proof.
  unfold distinct_negative_scores, class_anchors, select. cbn -[neg_score].
  rewrite !neg_score_pos by (simpl; lra). cbn [nth].
  pose proof ln_2_pos as H2. pose proof ln_1 as H1.
  split.
  - constructor; [|constructor; [intros []|constructor]].
    intros [E|[]]. inversion E. lra.
  - repeat (apply Forall_cons || apply Forall_nil); cbn [snd];
      rewrite neg_score_pos by (simpl; lra); discriminate.
Qed.

(** The example batch and the same batch with its two negative anchors
    exchanged have the same four losses. *)
Lemma losses_invariant_example :
  _loss_location (pred_offset example_pred_swapped) (box_targets example_true)
                 (positiveness example_true)
  = _loss_location (pred_offset example_pred) (box_targets example_true)
                   (positiveness example_true)
  /\ _loss_class (__init__default 2) (pred_cls example_pred_swapped)
                 (cls_targets example_true) (positiveness example_true)
     = _loss_class (__init__default 2) (pred_cls example_pred) (cls_targets example_true)
                   (positiveness example_true)
  /\ _loss_mask example_center_form example_inside_box (proto_out example_pred_swapped)
                (pred_mask_coef example_pred_swapped) (bbox_for_norm example_true)
                (mask_target example_true) (positiveness example_true)
                (max_id_for_anchors example_true) (_max_masks_for_train (__init__default 2))
     = _loss_mask example_center_form example_inside_box (proto_out example_pred)
                  (pred_mask_coef example_pred) (bbox_for_norm example_true)
                  (mask_target example_true) (positiveness example_true)
                  (max_id_for_anchors example_true)
                  (_max_masks_for_train (__init__default 2))
  /\ _loss_semantic_segmentation (seg example_pred_swapped) (mask_target example_true)
                                 (classes example_true) (num_obj example_true)
     = _loss_semantic_segmentation (seg example_pred) (mask_target example_true)
                                   (classes example_true) (num_obj example_true).
Proof.
  apply (losses_invariant_under_anchor_order example_center_form example_inside_box
           (__init__default 2) example_true example_pred example_true example_pred_swapped).
  - repeat split; try reflexivity. simpl. lia.
  - repeat split; try reflexivity. simpl. lia.
  - repeat split; try reflexivity. cbn.
    constructor; [|constructor]. apply perm_skip, perm_swap.
  - apply example_distinct_scores.
Qed.

Lemma xent_tie_differs :
  xent_anchor 2 (0%Z, [1; 0]) <> xent_anchor 2 (0%Z, [1; 1]).
Proof.
  unfold xent_anchor, softmax_xent_row, one_hot_row, reduce_sum. cbn.
  intros E.
  assert (El : ln (exp 1 + (exp 0 + 0)) = ln (exp 1 + (exp 1 + 0))) by lra.
  pose proof (exp_pos 1) as P1. pose proof exp_1_gt_1 as G1. rewrite exp_0 in El.
  apply ln_inv in El; lra.
Qed.

(** C8 fails on the code.  The example batch with the two negative anchors
    of logits [1, 0] and [1, 1] and the same batch with these two anchors
    exchanged are well-shaped and differ by a reordering of the anchors only,
    yet their classification losses differ: with ratio 1 one negative anchor
    is kept, the two have the same class-0 logit, by which the code ranks
    them, and the one that comes first is kept.  In the score of the
    specification, minus the logarithm of the softmax probability of class
    0, the two anchors do not tie: the anchor [1, 1] has the strictly larger
    score in either order. *)
Theorem classification_loss_depends_on_order_of_ties :
  batch_ok example_center_form example_ratio_one example_true example_pred_tie
  /\ batch_ok example_center_form example_ratio_one example_true example_pred_tie_swapped
  /\ anchors_permuted example_true example_pred_tie example_true example_pred_tie_swapped
  /\ _loss_class example_ratio_one (pred_cls example_pred_tie_swapped)
                 (cls_targets example_true) (positiveness example_true)
     <> _loss_class example_ratio_one (pred_cls example_pred_tie)
                    (cls_targets example_true) (positiveness example_true)
  /\ fltb (background_score [1; 0]) (background_score [1; 1]) = true.
Proof.
  assert (Htie : forall l l', nth 0 l 0 = 1 -> nth 0 l' 0 = 1 ->
                              ranks_below (neg_score l) (neg_score l') = false).
  { intros l l' E E'. rewrite !neg_score_pos by lra. rewrite E, E', ranks_below_Fin.
    apply Rltb_false. lra. }
  split; [|split; [|split; [|split]]].
  - repeat split; try reflexivity. simpl. lia.
  - repeat split; try reflexivity. simpl. lia.
  - repeat split; try reflexivity. cbn.
    constructor; [|constructor]. apply perm_skip, perm_swap.
  - rewrite !loss_class_char by (try reflexivity; simpl; lia).
    unfold class_loss_reference, mined_negatives, class_anchors, select, slice_to,
      sort_descending.
    cbn -[neg_score ranks_below xent_anchor fdiv].
    rewrite !Htie by reflexivity.
    rewrite !fdiv_Fin by (unfold cast_float; simpl; lra).
    cbn -[xent_anchor]. intros E. inversion E as [E'].
    apply xent_tie_differs. unfold cast_float in E'. simpl IZR in E'. lra.
  - unfold background_score, softmax. cbn [map nth reduce_sum fold_right].
    assert (E1 : 0 < exp 1) by apply exp_pos.
    assert (E0 : exp 0 = 1) by apply exp_0.
    rewrite E0.
    rewrite !flog_pos by (apply Rdiv_lt_0_compat; lra).
    rewrite !fmul_Fin, fltb_Fin. apply Rltb_true.
    apply Ropp_lt_cancel. ring_simplify.
    apply ln_increasing; [apply Rdiv_lt_0_compat; lra|].
    replace (exp 1 / (exp 1 + (exp 1 + 0))) with (1 / 2) by (field; lra).
    pose proof exp_1_gt_1.
    apply Rmult_lt_reg_r with (r := 2 * (exp 1 + (1 + 0))); [lra|].
    replace (exp 1 / (exp 1 + (1 + 0)) * (2 * (exp 1 + (1 + 0)))) with (2 * exp 1)
      by (field; lra).
    lra.
Qed.

(** ** The anchors a loss reads *)

Lemma select_ext {X} (bs : list bool) (xs xs' : list X) :
  length xs = length xs' ->
  (forall a, nth_error bs a = Some true -> nth_error xs a = nth_error xs' a) ->
  select bs xs = select bs xs'.
Proof.
  revert xs xs'. induction bs as [|b bs IH]; intros xs xs' Hlen H; [reflexivity|].
  destruct xs as [|x xs], xs' as [|x' xs']; try discriminate; [reflexivity|].
  rewrite !select_cons. f_equal.
  - destruct b; [|reflexivity]. specialize (H 0%nat eq_refl). simpl in H. congruence.
  - apply IH; [simpl in Hlen; lia|]. intros a Ha. exact (H (S a) Ha).
Qed.

Lemma anchors_with_ext {X} (p : Z -> bool) v pos (t t' : list (list X)) :
  p v = true -> map (@length X) t = map (@length X) t' ->
  agree_at p pos t t' -> anchors_with v pos t = anchors_with v pos t'.
Proof.
  intros Hp. unfold anchors_with. revert t t'.
  induction pos as [|ps pos IH]; intros t t' Hlen H; [reflexivity|].
  destruct t as [|r t], t' as [|r' t']; try discriminate; [reflexivity|].
  simpl in Hlen. injection Hlen as Hr Hlen. simpl. f_equal.
  - apply select_ext; [assumption|]. intros a Ha.
    unfold equal1 in Ha. rewrite nth_error_map in Ha.
    destruct (nth_error ps a) as [x|] eqn:E; [|discriminate].
    simpl in Ha. injection Ha as Ha. apply Z.eqb_eq in Ha. subst x.
    exact (H 0%nat a v E Hp).
  - apply IH; [assumption|]. intros b a x Hx Hpx. exact (H (S b) a x Hx Hpx).
Qed.

Lemma select_app {X} (bs bs' : list bool) (xs xs' : list X) :
  length bs = length xs ->
  select (bs ++ bs') (xs ++ xs') = select bs xs ++ select bs' xs'.
Proof.
  revert xs. induction bs as [|b bs IH]; intros [|x xs] H; try discriminate; [reflexivity|].
  simpl app. rewrite !select_cons, IH by (simpl in H; lia). now rewrite app_assoc.
Qed.

Lemma combine_app_eq {X Y} (a a' : list X) (b b' : list Y) :
  length a = length b -> combine (a ++ a') (b ++ b') = combine a b ++ combine a' b'.
Proof.
  revert b. induction a as [|x a IH]; intros [|y b] H; try discriminate; [reflexivity|].
  simpl. f_equal. apply IH. simpl in H. lia.
Qed.

Lemma class_anchors_by_image v (pred_cls : list (list (list R)))
    (gt_cls positiveness : list (list Z)) :
  map (@length Z) positiveness = map (@length (list R)) pred_cls ->
  map (@length Z) positiveness = map (@length Z) gt_cls ->
  class_anchors v pred_cls gt_cls positiveness
  = anchors_with v positiveness (zip2 gt_cls pred_cls).
Proof.
  unfold class_anchors, anchors_with, zip2. revert pred_cls gt_cls.
  induction positiveness as [|ps pos IH]; intros [|r pred] [|g gt] H1 H2;
    try discriminate; try reflexivity.
  simpl in H1, H2. injection H1 as Hr H1. injection H2 as Hg H2.
  simpl. unfold equal1. rewrite map_app. fold (equal1 ps v). fold (equal1 (concat pos) v).
  rewrite combine_app_eq by congruence.
  rewrite select_app by (unfold equal1; rewrite length_map, length_combine; lia).
  f_equal. now apply IH.
Qed.

Lemma zip2_agree {X Y} (p : Z -> bool) pos (a a' : list (list X)) (b b' : list (list Y)) :
  map (@length X) a = map (@length Y) b -> map (@length X) a' = map (@length Y) b' ->
  agree_at p pos a a' -> agree_at p pos b b' ->
  agree_at p pos (zip2 a b) (zip2 a' b').
Proof.
  intros Hab Hab' Ha Hb i n v Hv Hp.
  assert (Hz : forall (u : list (list X)) (w : list (list Y)),
             map (@length X) u = map (@length Y) w ->
             nth i (zip2 u w) [] = combine (nth i u []) (nth i w [])).
  { intros u w Huw. unfold zip2.
    change (@nil (X * Y)) with ((fun q : list X * list Y => combine (fst q) (snd q)) ([], [])).
    rewrite map_nth, combine_nth; [reflexivity|].
    apply (f_equal (@length nat)) in Huw. now rewrite !length_map in Huw. }
  rewrite !Hz by assumption. rewrite !nth_error_combine.
  now rewrite (Ha i n v Hv Hp), (Hb i n v Hv Hp).
Qed.

(** X1.  The localization loss reads the offsets of the positive anchors
    only: two batches with the same positiveness whose predicted and target
    offsets agree at every positive anchor have the same loss, whatever they
    hold at the other anchors. *)
Theorem localization_loss_reads_positive_anchors_only
    (pred_offset gt_offset pred_offset' gt_offset' : list (list (list R)))
    (positiveness : list (list Z)) :
  map (@length Z) positiveness = map (@length (list R)) pred_offset ->
  map (@length Z) positiveness = map (@length (list R)) gt_offset ->
  forallb (rows_of_length 4) pred_offset = true ->
  forallb (rows_of_length 4) gt_offset = true ->
  map (@length Z) positiveness = map (@length (list R)) pred_offset' ->
  map (@length Z) positiveness = map (@length (list R)) gt_offset' ->
  forallb (rows_of_length 4) pred_offset' = true ->
  forallb (rows_of_length 4) gt_offset' = true ->
  agree_at (Z.eqb 1) positiveness pred_offset pred_offset' ->
  agree_at (Z.eqb 1) positiveness gt_offset gt_offset' ->
  _loss_location pred_offset' gt_offset' positiveness
  = _loss_location pred_offset gt_offset positiveness.
Proof.
  intros H1 H2 H3 H4 H1' H2' H3' H4' Hp Hg.
  rewrite !loss_location_char by assumption.
  rewrite (anchors_with_ext (Z.eqb 1) 1 positiveness gt_offset gt_offset'),
          (anchors_with_ext (Z.eqb 1) 1 positiveness pred_offset pred_offset');
    (reflexivity || congruence || assumption).
Qed.

Lemma localization_loss_reads_positive_anchors_only_witness :
  _loss_location [[[1 / 2; 1 / 2; 1 / 2; 1 / 2]; [7; 7; 7; 7]; [0; 0; 3; 0]]]
                 [[[0; 0; 0; 0]; [0; 0; 0; 0]; [5; 0; 0; 0]]] (positiveness example_true)
  = _loss_location (pred_offset example_pred) (box_targets example_true)
                   (positiveness example_true).
Proof.
  apply localization_loss_reads_positive_anchors_only; try reflexivity.
  - intros [|[|b]] [|[|[|a]]] v Hv Hp; try discriminate; try reflexivity;
      simpl in Hv; try (destruct a; discriminate);
      injection Hv as <-; discriminate.
  - intros [|[|b]] [|[|[|a]]] v Hv Hp; try discriminate; try reflexivity;
      simpl in Hv; try (destruct a; discriminate);
      injection Hv as <-; discriminate.
Defined.

(** ** Localization loss: exact predictions and joined batches *)

Lemma huber_elem_same y : huber_elem 1 y y = 0.
Proof.
  unfold huber_elem. replace (y - y) with 0 by lra. rewrite Rabs_R0.
  replace (Rleb 0 1) with true by (symmetry; apply Rleb_true; lra). lra.
Qed.

Lemma smooth_l1_sum_same row : smooth_l1_sum row row = 0.
Proof.
  unfold smooth_l1_sum, reduce_sum. induction row as [|x row IH]; [reflexivity|].
  cbn [combine map fold_right fst snd]. rewrite IH, huber_elem_same. lra.
Qed.

(** X2.  On a well-shaped batch with a positive anchor, when the predicted
    offsets of the positive anchors are their target offsets the
    localization loss is zero, whatever is predicted for the other
    anchors. *)
Theorem localization_loss_zero_when_exact
    (pred_offset gt_offset : list (list (list R))) (positiveness : list (list Z)) :
  map (@length Z) positiveness = map (@length (list R)) pred_offset ->
  map (@length Z) positiveness = map (@length (list R)) gt_offset ->
  forallb (rows_of_length 4) pred_offset = true ->
  forallb (rows_of_length 4) gt_offset = true ->
  (1 <= count_anchors 1 positiveness)%nat ->
  anchors_with 1 positiveness pred_offset = anchors_with 1 positiveness gt_offset ->
  _loss_location pred_offset gt_offset positiveness = Some (Fin 0).
Proof.
  intros H1 H2 H3 H4 Hpos Heq. rewrite loss_location_char by assumption.
  pose proof (@cast_float_pos (count_anchors 1 positiveness) ltac:(lia)) as Hn.
  rewrite fdiv_Fin by lra. rewrite Heq. do 2 f_equal.
  replace (reduce_sum _) with 0; [lra|]. symmetry.
  generalize (anchors_with 1 positiveness gt_offset) as gts.
  unfold reduce_sum. induction gts as [|g gts IH]; [reflexivity|].
  cbn [combine map fold_right fst snd]. rewrite IH, smooth_l1_sum_same. lra.
Qed.

Lemma localization_loss_zero_when_exact_witness :
  _loss_location [[[0; 0; 0; 0]; [1; 2; 3; 4]; [0; 0; 0; 0]]] (box_targets example_true)
                 (positiveness example_true) = Some (Fin 0).
Proof.
  apply localization_loss_zero_when_exact; reflexivity.
Defined.

Lemma loc_loss_exact_example :
  _loss_location (box_targets example_true) (box_targets example_true)
                 (positiveness example_true) = Some (Fin 0).
Proof.
  rewrite loss_location_char by reflexivity.
  rewrite fdiv_Fin by (simpl; unfold cast_float; simpl; lra).
  do 2 f_equal.
  unfold anchors_with, count_anchors, select, cast_float. simpl.
  rewrite smooth_l1_sum_same. lra.
Qed.

Lemma anchors_with_app {X} v pos pos' (t t' : list (list X)) :
  length pos = length t ->
  anchors_with v (pos ++ pos') (t ++ t') = anchors_with v pos t ++ anchors_with v pos' t'.
Proof.
  intros H. unfold anchors_with. now rewrite combine_app_eq, map_app, concat_app.
Qed.

Lemma count_anchors_app v pos pos' :
  count_anchors v (pos ++ pos') = (count_anchors v pos + count_anchors v pos')%nat.
Proof. unfold count_anchors. now rewrite concat_app, filter_app, length_app. Qed.

Lemma same_lengths_length {X Y} (a : list (list X)) (b : list (list Y)) :
  map (@length X) a = map (@length Y) b -> length a = length b.
Proof. intros H. apply (f_equal (@length nat)) in H. now rewrite !length_map in H. Qed.

(** X3.  The localization loss is normalised by the positive anchors of the
    whole batch, not image by image: the loss of two batches put together is
    the mean of their losses weighted by their numbers of positive
    anchors. *)
Theorem localization_loss_of_joined_batches
    (pred1 gt1 pred2 gt2 : list (list (list R))) (pos1 pos2 : list (list Z)) (l1 l2 : R) :
  map (@length Z) pos1 = map (@length (list R)) pred1 ->
  map (@length Z) pos1 = map (@length (list R)) gt1 ->
  forallb (rows_of_length 4) pred1 = true ->
  forallb (rows_of_length 4) gt1 = true ->
  map (@length Z) pos2 = map (@length (list R)) pred2 ->
  map (@length Z) pos2 = map (@length (list R)) gt2 ->
  forallb (rows_of_length 4) pred2 = true ->
  forallb (rows_of_length 4) gt2 = true ->
  (1 <= count_anchors 1 pos1)%nat -> (1 <= count_anchors 1 pos2)%nat ->
  _loss_location pred1 gt1 pos1 = Some (Fin l1) ->
  _loss_location pred2 gt2 pos2 = Some (Fin l2) ->
  _loss_location (pred1 ++ pred2) (gt1 ++ gt2) (pos1 ++ pos2)
  = Some (Fin ((cast_float (count_anchors 1 pos1) * l1
                + cast_float (count_anchors 1 pos2) * l2)
               / cast_float (count_anchors 1 pos1 + count_anchors 1 pos2))).
Proof.
  intros A1 A2 A3 A4 B1 B2 B3 B4 Hn1 Hn2 E1 E2.
  pose proof (@cast_float_pos (count_anchors 1 pos1) ltac:(lia)) as P1.
  pose proof (@cast_float_pos (count_anchors 1 pos2) ltac:(lia)) as P2.
  pose proof (@cast_float_pos (count_anchors 1 pos1 + count_anchors 1 pos2) ltac:(lia)) as P12.
  rewrite loss_location_char in E1, E2 by assumption.
  rewrite fdiv_Fin in E1, E2 by lra. injection E1 as E1. injection E2 as E2.
  rewrite loss_location_char;
    try (rewrite !map_app; congruence); try (rewrite forallb_app; now rewrite ?A3, ?A4, ?B3, ?B4).
  rewrite !anchors_with_app by (symmetry; now apply same_lengths_length).
  rewrite count_anchors_app, fdiv_Fin by lra.
  rewrite combine_app_eq by (rewrite !anchors_with_length; auto).
  rewrite map_app, reduce_sum_app. do 2 f_equal.
  rewrite <- E1, <- E2. field. split; lra.
Qed.

Lemma localization_loss_of_joined_batches_witness :
  _loss_location (pred_offset example_pred ++ box_targets example_true)
                 (box_targets example_true ++ box_targets example_true)
                 (positiveness example_true ++ positiveness example_true)
  = Some (Fin ((cast_float (count_anchors 1 (positiveness example_true)) * (1 / 8)
                + cast_float (count_anchors 1 (positiveness example_true)) * 0)
               / cast_float (count_anchors 1 (positiveness example_true)
                             + count_anchors 1 (positiveness example_true)))).
Proof.
  apply localization_loss_of_joined_batches; try reflexivity.
  - apply loc_loss_example.
  - apply loc_loss_exact_example.
Defined.

(** ** Hard-negative mining: the selected positions *)

Lemma NoDup_firstn {X} n (l : list X) : NoDup l -> NoDup (firstn n l).
Proof.
  intros H. rewrite <- (firstn_skipn n l) in H. now apply NoDup_app_remove_r in H.
Qed.


Lemma argsort_descending_perm values :
  Permutation (argsort_descending values) (seq 0 (length values)).
Proof.
  unfold argsort_descending.
  rewrite <- (sort_descending_perm snd (combine (seq 0 (length values)) values)).
  rewrite map_fst_combine_eq; [reflexivity | now rewrite length_seq].
Qed.



Section SortWeak.

Variable X : Type.
Variable key : X -> tfloat.



End SortWeak.



(** X4.  The hard-negative mining of [_loss_class] (lines 91 to 101) returns
    positions among the negative anchors that are pairwise different and in
    range, as many as were asked for, or all of them when there are fewer
    negative anchors than that: the gathers that follow never fail. *)
Theorem mining_keeps_distinct_positions (neg_pred_cls : list (list R)) (num_neg_needed : Z) :
  Forall (fun r => r <> []) neg_pred_cls -> (0 <= num_neg_needed)%Z ->
  exists idx,
    neg_indices_for_loss neg_pred_cls num_neg_needed = Some idx
    /\ length idx = Nat.min (Z.to_nat num_neg_needed) (length neg_pred_cls)
    /\ NoDup idx
    /\ Forall (fun i => (i < length neg_pred_cls)%nat) idx.
Proof.
  intros Hrows Hk. rewrite neg_indices_for_loss_char by assumption.
  eexists. split; [reflexivity|].
  pose proof (argsort_descending_perm (map neg_score neg_pred_cls)) as Hp.
  rewrite length_map in Hp.
  unfold slice_to. replace (0 <=? num_neg_needed)%Z with true by (symmetry; apply Z.leb_le; lia).
  split; [|split].
  - rewrite length_firstn, (Permutation_length Hp), length_seq. reflexivity.
  - apply NoDup_firstn. eapply Permutation_NoDup; [apply Permutation_sym, Hp|apply seq_NoDup].
  - apply Forall_forall. intros i Hi. apply In_firstn in Hi.
    apply (Permutation_in _ Hp), in_seq in Hi. lia.
Qed.

Lemma mining_keeps_distinct_positions_witness :
  exists idx,
    neg_indices_for_loss [[2; 2]; [1; 0]; [3; 1]] 2 = Some idx
    /\ length idx = Nat.min (Z.to_nat 2) (length [[2; 2]; [1; 0]; [3; 1]])
    /\ NoDup idx
    /\ Forall (fun i => (i < length [[2; 2]; [1; 0]; [3; 1]])%nat) idx.
Proof.
  apply (mining_keeps_distinct_positions [[2; 2]; [1; 0]; [3; 1]] 2).
  - repeat constructor; discriminate.
  - lia.
Defined.



(** ** Classification loss: the anchors that count *)



(** X7.  When the negative anchors are no more than [neg_pos_ratio] times
    the positive ones, the mining keeps them all: the classification loss is
    the cross-entropy summed over every positive and every negative anchor,
    divided by the number of positive anchors, and the ranking has no
    effect. *)
Theorem classification_loss_with_few_negatives (self : YOLACTLoss)
    (pred_cls : list (list (list R))) (gt_cls positiveness : list (list Z)) :
  (0 < _num_classes self)%nat ->
  map (@length Z) positiveness = map (@length (list R)) pred_cls ->
  map (@length Z) positiveness = map (@length Z) gt_cls ->
  forallb (rows_of_length (_num_classes self)) pred_cls = true ->
  (1 <= count_anchors 1 positiveness)%nat ->
  (Z.of_nat (count_anchors 0 positiveness)
   <= Z.of_nat (count_anchors 1 positiveness) * _neg_pos_ratio self)%Z ->
  _loss_class self pred_cls gt_cls positiveness
  = Some (Fin ((reduce_sum (map (xent_anchor (_num_classes self))
                                (class_anchors 1 pred_cls gt_cls positiveness))
                + reduce_sum (map (xent_anchor (_num_classes self))
                                  (class_anchors 0 pred_cls gt_cls positiveness)))
               / cast_float (count_anchors 1 positiveness))).
Proof.
  intros H0 H1 H2 H3 Hpos Hfew. rewrite loss_class_char by assumption.
  unfold class_loss_reference. rewrite class_anchors_length by assumption.
  rewrite fdiv_Fin
    by (pose proof (@cast_float_pos (count_anchors 1 positiveness) ltac:(lia)); lra).
  do 3 f_equal. rewrite map_app, reduce_sum_app. f_equal.
  apply reduce_sum_perm, Permutation_map.
  unfold mined_negatives, slice_to. rewrite class_anchors_length by assumption.
  replace (0 <=? _)%Z with true by (symmetry; apply Z.leb_le; lia).
  rewrite firstn_all2.
  - apply Permutation_sym, sort_descending_perm.
  - rewrite <- (Permutation_length (sort_descending_perm _ _)).
    rewrite class_anchors_length by assumption. lia.
Qed.

Lemma classification_loss_with_few_negatives_witness :
  _loss_class (__init__default 2) (pred_cls example_pred) (cls_targets example_true)
              (positiveness example_true)
  = Some (Fin ((reduce_sum (map (xent_anchor (_num_classes (__init__default 2)))
                                (class_anchors 1 (pred_cls example_pred)
                                   (cls_targets example_true) (positiveness example_true)))
                + reduce_sum (map (xent_anchor (_num_classes (__init__default 2)))
                                  (class_anchors 0 (pred_cls example_pred)
                                     (cls_targets example_true)
                                     (positiveness example_true))))
               / cast_float (count_anchors 1 (positiveness example_true)))).
Proof.
  apply classification_loss_with_few_negatives; try reflexivity.
  - simpl. lia.
  - vm_compute. discriminate.
Defined.

(** X8.  The classification loss reads the anchors of positiveness 1 and 0
    only: two batches with the same positiveness whose logits and class
    targets agree at every positive and every negative anchor have the same
    loss, whatever they hold at the anchors of another positiveness (the
    neutral anchors). *)
Theorem classification_loss_ignores_neutral_anchors (self : YOLACTLoss)
    (pred_cls pred_cls' : list (list (list R)))
    (gt_cls gt_cls' positiveness : list (list Z)) :
  (0 < _num_classes self)%nat ->
  map (@length Z) positiveness = map (@length (list R)) pred_cls ->
  map (@length Z) positiveness = map (@length Z) gt_cls ->
  forallb (rows_of_length (_num_classes self)) pred_cls = true ->
  map (@length Z) positiveness = map (@length (list R)) pred_cls' ->
  map (@length Z) positiveness = map (@length Z) gt_cls' ->
  forallb (rows_of_length (_num_classes self)) pred_cls' = true ->
  agree_at (fun v => Z.eqb v 0 || Z.eqb v 1) positiveness pred_cls pred_cls' ->
  agree_at (fun v => Z.eqb v 0 || Z.eqb v 1) positiveness gt_cls gt_cls' ->
  _loss_class self pred_cls' gt_cls' positiveness
  = _loss_class self pred_cls gt_cls positiveness.
Proof.
  intros H0 H1 H2 H3 H1' H2' H3' Hp Hg.
  rewrite !loss_class_char by assumption.
  assert (E : forall v, (v = 0 \/ v = 1)%Z ->
            class_anchors v pred_cls' gt_cls' positiveness
            = class_anchors v pred_cls gt_cls positiveness).
  { intros v Hv. rewrite !class_anchors_by_image by assumption.
    symmetry. apply anchors_with_ext with (p := fun v => Z.eqb v 0 || Z.eqb v 1).
    - destruct Hv as [-> | ->]; reflexivity.
    - rewrite !zip2_lengths; congruence.
    - apply zip2_agree; [rewrite <- H2; exact H1 | rewrite <- H2'; exact H1' | exact Hg | exact Hp]. }
  unfold class_loss_reference, mined_negatives.
  now rewrite !(E 0%Z), !(E 1%Z) by auto.
Qed.

Lemma classification_loss_ignores_neutral_anchors_witness :
  _loss_class (__init__default 2) [[[0; 1]; [1; 0]; [5; 9]]] [[1; 0; 1]%Z] [[1; 0; -1]%Z]
  = _loss_class (__init__default 2) [[[0; 1]; [1; 0]; [2; 0]]] [[1; 0; 0]%Z] [[1; 0; -1]%Z].
Proof.
  apply classification_loss_ignores_neutral_anchors; try reflexivity.
  - simpl. lia.
  - intros [|[|b]] [|[|[|a]]] v Hv Hp; try discriminate; try reflexivity;
      simpl in Hv; try (destruct a; discriminate);
      injection Hv as <-; discriminate.
  - intros [|[|b]] [|[|[|a]]] v Hv Hp; try discriminate; try reflexivity;
      simpl in Hv; try (destruct a; discriminate);
      injection Hv as <-; discriminate.
Defined.

(** ** Classification loss: the reshape of the logits *)

Lemma chunk_length {X} fuel n (flat : list X) rows :
  chunk fuel n flat = Some rows -> length flat = (length rows * n)%nat.
Proof.
  revert flat rows. induction fuel as [|fuel IH]; intros flat rows H.
  - destruct flat; [injection H as <-; reflexivity | discriminate].
  - destruct flat as [|x flat]; [injection H as <-; reflexivity|].
    cbn [chunk] in H.
    destruct (Nat.ltb (length (x :: flat)) n) eqn:E; [discriminate|].
    apply Nat.ltb_ge in E.
    destruct (chunk fuel n (skipn n (x :: flat))) as [rest|] eqn:Er; [|discriminate].
    simpl in H. injection H as <-. apply IH in Er. rewrite length_skipn in Er.
    simpl length in *. lia.
Qed.

(** X9.  [_loss_class] reshapes the logits to rows of [num_classes] entries
    before anything else: when the number of logits of the batch is not a
    multiple of [num_classes] (in particular when [num_classes] is 0 and
    there are logits) it raises. *)
Theorem classification_loss_raises_on_ragged_logits (self : YOLACTLoss)
    (pred_cls : list (list (list R))) (gt_cls positiveness : list (list Z)) :
  (length (concat (concat pred_cls)) mod _num_classes self <> 0)%nat ->
  _loss_class self pred_cls gt_cls positiveness = None.
Proof.
  intros H. unfold _loss_class.
  destruct (reshape_rows (_num_classes self) (concat (concat pred_cls))) as [rows|] eqn:E;
    [|reflexivity].
  exfalso. apply H. unfold reshape_rows in E.
  destruct (Nat.eqb (_num_classes self) 0); [discriminate|].
  apply chunk_length in E. rewrite E. apply Nat.Div0.mod_mul.
Qed.

Lemma classification_loss_raises_on_ragged_logits_witness :
  _loss_class (__init__default 2) [[[0; 1; 2]; [1; 0; 2]; [2; 0; 2]]]
              (cls_targets example_true) (positiveness example_true) = None.
Proof.
  apply classification_loss_raises_on_ragged_logits. vm_compute. discriminate.
Defined.

(** ** Classification loss: class targets outside the range *)






(** ** Mask loss: the anchors that count *)

Section MaskAnchors.

Variable center_form : list R -> list R.
Variable inside_box : list R -> nat -> nat -> nat -> nat -> bool.

Lemma mask_images_nth protos coefs bboxes masks pos mids n :
  nth_error (mask_images protos coefs bboxes masks pos mids) n
  = (proto <- nth_error protos n ;; coef <- nth_error coefs n ;;
     mask <- nth_error masks n ;; bbox <- nth_error bboxes n ;;
     ps <- nth_error pos n ;; mid <- nth_error mids n ;;
     Some (proto, (coef, (mask, (bbox, (ps, mid)))))).
Proof.
  unfold mask_images. rewrite !nth_error_combine.
  destruct (nth_error protos n), (nth_error coefs n), (nth_error masks n),
    (nth_error bboxes n), (nth_error pos n), (nth_error mids n); reflexivity.
Qed.

Lemma mask_image_ok_lengths proto coef mask bbox ps mid :
  mask_image_ok center_form (proto, (coef, (mask, (bbox, (ps, mid))))) = true ->
  length coef = length ps /\ length mid = length ps.
Proof.
  unfold mask_image_ok. rewrite !andb_true_iff.
  intros ((((((((((_ & _) & _) & _) & Hlc) & Hlm) & _) & _) & _) & _) & _).
  apply Nat.eqb_eq in Hlc, Hlm. now split.
Qed.

Lemma mask_batch_ok_inv protos coefs bboxes masks pos mids :
  mask_batch_ok center_form protos coefs bboxes masks pos mids = true ->
  (length coefs = length protos /\ length bboxes = length protos
   /\ length masks = length protos /\ length pos = length protos
   /\ length mids = length protos)
  /\ forallb (mask_image_ok center_form)
       (mask_images protos coefs bboxes masks pos mids) = true.
Proof.
  unfold mask_batch_ok. rewrite !andb_true_iff.
  intros (((((H1 & H2) & H3) & H4) & H5) & Hok).
  apply Nat.eqb_eq in H1, H2, H3, H4, H5. auto 10.
Qed.

Lemma image_mask_losses_agree protos coefs coefs' bboxes masks pos mids mids' :
  mask_batch_ok center_form protos coefs bboxes masks pos mids = true ->
  mask_batch_ok center_form protos coefs' bboxes masks pos mids' = true ->
  agree_at (Z.eqb 1) pos coefs coefs' -> agree_at (Z.eqb 1) pos mids mids' ->
  map (image_mask_losses center_form inside_box)
      (mask_images protos coefs bboxes masks pos mids)
  = map (image_mask_losses center_form inside_box)
        (mask_images protos coefs' bboxes masks pos mids').
Proof.
  intros Hok Hok' Hc Hm.
  apply mask_batch_ok_inv in Hok, Hok'.
  destruct Hok as ((L1 & L2 & L3 & L4 & L5) & Hok).
  destruct Hok' as ((L1' & _ & _ & _ & L5') & Hok').
  rewrite forallb_forall in Hok, Hok'.
  apply nth_error_ext. intros n. rewrite !nth_error_map.
  pose proof (fun im => @nth_error_In _ (mask_images protos coefs bboxes masks pos mids) n im)
    as Hin.
  pose proof (fun im => @nth_error_In _ (mask_images protos coefs' bboxes masks pos mids') n im)
    as Hin'.
  rewrite !mask_images_nth in *.
  destruct (nth_error protos n) as [proto|] eqn:E1; [|reflexivity]. cbn [bind] in *.
  destruct (nth_error coefs n) as [coef|] eqn:E2.
  2:{ apply nth_error_None in E2.
      assert (E2' : nth_error coefs' n = None) by (apply nth_error_None; lia).
      now rewrite E2'. }
  destruct (nth_error coefs' n) as [coef'|] eqn:E2'.
  2:{ apply nth_error_None in E2'.
      assert (n < length coefs)%nat by (apply nth_error_Some; congruence). lia. }
  cbn [bind] in *.
  destruct (nth_error masks n) as [mask|] eqn:E3; [|reflexivity]. cbn [bind] in *.
  destruct (nth_error bboxes n) as [bbox|] eqn:E4; [|reflexivity]. cbn [bind] in *.
  destruct (nth_error pos n) as [ps|] eqn:E5; [|reflexivity]. cbn [bind] in *.
  destruct (nth_error mids n) as [mid|] eqn:E6.
  2:{ apply nth_error_None in E6.
      assert (E6' : nth_error mids' n = None) by (apply nth_error_None; lia).
      now rewrite E6'. }
  destruct (nth_error mids' n) as [mid'|] eqn:E6'.
  2:{ apply nth_error_None in E6'.
      assert (n < length mids)%nat by (apply nth_error_Some; congruence). lia. }
  cbn [bind option_map] in *. f_equal.
  specialize (Hok _ (Hin _ eq_refl)). specialize (Hok' _ (Hin' _ eq_refl)).
  apply mask_image_ok_lengths in Hok, Hok'.
  unfold image_mask_losses, mask_anchors. f_equal.
  apply select_ext; [rewrite !length_combine; lia|].
  intros a Ha. unfold equal1 in Ha. rewrite nth_error_map in Ha.
  destruct (nth_error ps a) as [v|] eqn:Ev; [|discriminate].
  simpl in Ha. injection Ha as Ha. apply Z.eqb_eq in Ha. subst v.
  rewrite !nth_error_combine.
  assert (Hps : nth_error (nth n pos []) a = Some 1%Z)
    by now rewrite (nth_error_nth pos n [] E5).
  pose proof (Hc n a 1%Z Hps eq_refl) as Hca.
  pose proof (Hm n a 1%Z Hps eq_refl) as Hma.
  rewrite (nth_error_nth coefs n [] E2), (nth_error_nth coefs' n [] E2') in Hca.
  rewrite (nth_error_nth mids n [] E6), (nth_error_nth mids' n [] E6') in Hma.
  now rewrite Hca, Hma.
Qed.

Lemma mask_images_app protos coefs bboxes masks pos mids
    protos' coefs' bboxes' masks' pos' mids' :
  length coefs = length protos -> length bboxes = length protos ->
  length masks = length protos -> length pos = length protos ->
  length mids = length protos ->
  mask_images (protos ++ protos') (coefs ++ coefs') (bboxes ++ bboxes') (masks ++ masks')
              (pos ++ pos') (mids ++ mids')
  = mask_images protos coefs bboxes masks pos mids
    ++ mask_images protos' coefs' bboxes' masks' pos' mids'.
Proof.
  intros H1 H2 H3 H4 H5. unfold mask_images.
  rewrite (combine_app_eq pos pos' mids mids') by lia.
  rewrite (combine_app_eq bboxes bboxes') by (rewrite length_combine; lia).
  rewrite (combine_app_eq masks masks') by (rewrite !length_combine; lia).
  rewrite (combine_app_eq coefs coefs') by (rewrite !length_combine; lia).
  rewrite (combine_app_eq protos protos') by (rewrite !length_combine; lia).
  reflexivity.
Qed.

Lemma mask_batch_ok_app protos coefs bboxes masks pos mids
    protos' coefs' bboxes' masks' pos' mids' :
  mask_batch_ok center_form protos coefs bboxes masks pos mids = true ->
  mask_batch_ok center_form protos' coefs' bboxes' masks' pos' mids' = true ->
  mask_batch_ok center_form (protos ++ protos') (coefs ++ coefs') (bboxes ++ bboxes')
                (masks ++ masks') (pos ++ pos') (mids ++ mids') = true.
Proof.
  intros H H'. apply mask_batch_ok_inv in H, H'.
  destruct H as ((L1 & L2 & L3 & L4 & L5) & Hok).
  destruct H' as ((L1' & L2' & L3' & L4' & L5') & Hok').
  unfold mask_batch_ok. rewrite mask_images_app by assumption.
  rewrite forallb_app, Hok, Hok', !length_app.
  rewrite !andb_true_iff, !Nat.eqb_eq. repeat split; lia.
Qed.

End MaskAnchors.

(** X11.  On a well-shaped batch the mask loss is the sum, over the positive
    anchors of all images, of the loss of the anchor (the cross-entropy
    between the mask of its object and the prototypes combined by its
    coefficients, cropped to the box of the object, summed and divided by the
    area of the box), divided by the number of positive anchors of the
    batch. *)
Theorem mask_loss_is_mean_over_positive_anchors center_form inside_box
    (protonet_output : list (list (list (list R))))
    (pred_mask_coef gt_bbox_norm : list (list (list R)))
    (gt_masks : list (list (list (list R)))) (positiveness max_id_for_anchors : list (list Z))
    (max_masks_for_train : Z) :
  mask_batch_ok center_form protonet_output pred_mask_coef gt_bbox_norm gt_masks
                positiveness max_id_for_anchors = true ->
  _loss_mask center_form inside_box protonet_output pred_mask_coef gt_bbox_norm gt_masks
             positiveness max_id_for_anchors max_masks_for_train
  = Some (fdiv (freduce_sum
                  (concat (map (image_mask_losses center_form inside_box)
                               (mask_images protonet_output pred_mask_coef gt_bbox_norm
                                            gt_masks positiveness max_id_for_anchors))))
               (Fin (cast_float (count_anchors 1 positiveness)))).
Proof.
  intros Hok. rewrite loss_mask_char by assumption.
  unfold mask_loss_reference. cbv zeta.
  now rewrite (mask_losses_length _ _ _ _ _ _ _ _ Hok).
Qed.

Lemma mask_loss_is_mean_over_positive_anchors_witness :
  _loss_mask example_center_form example_inside_box (proto_out example_pred)
             (pred_mask_coef example_pred) (bbox_for_norm example_true)
             (mask_target example_true) (positiveness example_true)
             (max_id_for_anchors example_true) 100
  = Some (fdiv (freduce_sum
                  (concat (map (image_mask_losses example_center_form example_inside_box)
                               (mask_images (proto_out example_pred)
                                  (pred_mask_coef example_pred) (bbox_for_norm example_true)
                                  (mask_target example_true) (positiveness example_true)
                                  (max_id_for_anchors example_true)))))
               (Fin (cast_float (count_anchors 1 (positiveness example_true))))).
Proof.
  apply mask_loss_is_mean_over_positive_anchors. reflexivity.
Defined.

(** X12.  The mask loss reads the mask coefficients and the matched object
    index of the positive anchors only: two batches that differ at other
    anchors only have the same mask loss. *)
Theorem mask_loss_reads_positive_anchors_only center_form inside_box
    (protonet_output : list (list (list (list R))))
    (pred_mask_coef pred_mask_coef' gt_bbox_norm : list (list (list R)))
    (gt_masks : list (list (list (list R))))
    (positiveness max_id_for_anchors max_id_for_anchors' : list (list Z))
    (max_masks_for_train : Z) :
  mask_batch_ok center_form protonet_output pred_mask_coef gt_bbox_norm gt_masks
                positiveness max_id_for_anchors = true ->
  mask_batch_ok center_form protonet_output pred_mask_coef' gt_bbox_norm gt_masks
                positiveness max_id_for_anchors' = true ->
  agree_at (Z.eqb 1) positiveness pred_mask_coef pred_mask_coef' ->
  agree_at (Z.eqb 1) positiveness max_id_for_anchors max_id_for_anchors' ->
  _loss_mask center_form inside_box protonet_output pred_mask_coef' gt_bbox_norm gt_masks
             positiveness max_id_for_anchors' max_masks_for_train
  = _loss_mask center_form inside_box protonet_output pred_mask_coef gt_bbox_norm gt_masks
               positiveness max_id_for_anchors max_masks_for_train.
Proof.
  intros Hok Hok' Hc Hm. rewrite !loss_mask_char by assumption.
  unfold mask_loss_reference. cbv zeta.
  now rewrite (image_mask_losses_agree center_form inside_box _ _ _ _ _ _ _ _ Hok Hok' Hc Hm).
Qed.

Lemma mask_loss_reads_positive_anchors_only_witness :
  _loss_mask example_center_form example_inside_box (proto_out example_pred)
             [[[1]; [5]; [7]]] (bbox_for_norm example_true)
             (mask_target example_true) (positiveness example_true) [[0; 1; 9]%Z] 100
  = _loss_mask example_center_form example_inside_box (proto_out example_pred)
               (pred_mask_coef example_pred) (bbox_for_norm example_true)
               (mask_target example_true) (positiveness example_true)
               (max_id_for_anchors example_true) 100.
Proof.
  apply mask_loss_reads_positive_anchors_only; try reflexivity.
  - intros [|[|b]] [|[|[|a]]] v Hv Hp; try discriminate; try reflexivity;
      simpl in Hv; try (destruct a; discriminate);
      injection Hv as <-; discriminate.
  - intros [|[|b]] [|[|[|a]]] v Hv Hp; try discriminate; try reflexivity;
      simpl in Hv; try (destruct a; discriminate);
      injection Hv as <-; discriminate.
Defined.

(** X13.  An image without positive anchor adds nothing to the localization
    loss and to the mask loss: both sum over the positive anchors and divide
    by their number in the whole batch, so a batch followed by images
    without positive anchor has the losses of the batch alone. *)
Theorem images_without_positive_anchor_add_nothing center_form inside_box
    (pred_offset gt_offset pred_offset' gt_offset' : list (list (list R)))
    (protonet_output protonet_output' : list (list (list (list R))))
    (pred_mask_coef gt_bbox_norm pred_mask_coef' gt_bbox_norm' : list (list (list R)))
    (gt_masks gt_masks' : list (list (list (list R))))
    (positiveness max_id_for_anchors positiveness' max_id_for_anchors' : list (list Z))
    (max_masks_for_train : Z) :
  map (@length Z) positiveness = map (@length (list R)) pred_offset ->
  map (@length Z) positiveness = map (@length (list R)) gt_offset ->
  forallb (rows_of_length 4) pred_offset = true ->
  forallb (rows_of_length 4) gt_offset = true ->
  map (@length Z) positiveness' = map (@length (list R)) pred_offset' ->
  map (@length Z) positiveness' = map (@length (list R)) gt_offset' ->
  forallb (rows_of_length 4) pred_offset' = true ->
  forallb (rows_of_length 4) gt_offset' = true ->
  mask_batch_ok center_form protonet_output pred_mask_coef gt_bbox_norm gt_masks
                positiveness max_id_for_anchors = true ->
  mask_batch_ok center_form protonet_output' pred_mask_coef' gt_bbox_norm' gt_masks'
                positiveness' max_id_for_anchors' = true ->
  count_anchors 1 positiveness' = 0%nat ->
  _loss_location (pred_offset ++ pred_offset') (gt_offset ++ gt_offset')
                 (positiveness ++ positiveness')
  = _loss_location pred_offset gt_offset positiveness
  /\ _loss_mask center_form inside_box (protonet_output ++ protonet_output')
                (pred_mask_coef ++ pred_mask_coef') (gt_bbox_norm ++ gt_bbox_norm')
                (gt_masks ++ gt_masks') (positiveness ++ positiveness')
                (max_id_for_anchors ++ max_id_for_anchors') max_masks_for_train
     = _loss_mask center_form inside_box protonet_output pred_mask_coef gt_bbox_norm
                  gt_masks positiveness max_id_for_anchors max_masks_for_train.
Proof.
  intros A1 A2 A3 A4 B1 B2 B3 B4 Hok Hok' Hzero. split.
  - rewrite (loss_location_char pred_offset) by assumption.
    rewrite loss_location_char;
      try (rewrite !map_app; congruence);
      try (rewrite forallb_app; now rewrite ?A3, ?A4, ?B3, ?B4).
    rewrite !anchors_with_app by (symmetry; now apply same_lengths_length).
    rewrite !(anchors_with_none _ _ _ Hzero), !app_nil_r.
    now rewrite count_anchors_app, Hzero, Nat.add_0_r.
  - rewrite (loss_mask_char _ _ _ _ _ _ _ _ _ Hok).
    rewrite (loss_mask_char _ _ _ _ _ _ _ _ _
               (mask_batch_ok_app _ _ _ _ _ _ _ _ _ _ _ _ _ Hok Hok')).
    unfold mask_loss_reference. cbv zeta.
    destruct (mask_batch_ok_inv _ _ _ _ _ _ _ Hok) as ((L1 & L2 & L3 & L4 & L5) & _).
    rewrite mask_images_app by assumption.
    now rewrite map_app, concat_app, (mask_losses_none _ _ _ _ _ _ _ _ Hzero), app_nil_r.
Qed.

Lemma images_without_positive_anchor_add_nothing_witness :
  _loss_location (pred_offset example_pred ++ pred_offset example_pred)
                 (box_targets example_true ++ box_targets example_true_negative)
                 (positiveness example_true ++ positiveness example_true_negative)
  = _loss_location (pred_offset example_pred) (box_targets example_true)
                   (positiveness example_true)
  /\ _loss_mask example_center_form example_inside_box
                (proto_out example_pred ++ proto_out example_pred)
                (pred_mask_coef example_pred ++ pred_mask_coef example_pred)
                (bbox_for_norm example_true ++ bbox_for_norm example_true_negative)
                (mask_target example_true ++ mask_target example_true_negative)
                (positiveness example_true ++ positiveness example_true_negative)
                (max_id_for_anchors example_true
                 ++ max_id_for_anchors example_true_negative) 100
     = _loss_mask example_center_form example_inside_box (proto_out example_pred)
                  (pred_mask_coef example_pred) (bbox_for_norm example_true)
                  (mask_target example_true) (positiveness example_true)
                  (max_id_for_anchors example_true) 100.
Proof.
  apply images_without_positive_anchor_add_nothing; reflexivity.
Defined.

(** ** Mask loss: masks of another resolution than the prototypes *)

Lemma gather_squeezed_length {X} (t : list X) (idxs : list nat) g r :
  gather_squeezed t (squeezed_of idxs) = Some g ->
  expand_if_single (size_squeezed (squeezed_of idxs)) g = Some r ->
  length r = length idxs.
Proof.
  intros Hg He. rewrite size_squeezed_of in He.
  destruct idxs as [|i [|i' idxs]]; cbn [squeezed_of gather_squeezed] in Hg.
  - unfold gather in Hg. cbn in Hg. injection Hg as <-. cbn in He. now injection He as <-.
  - destruct (nth_error t i); [|discriminate]. cbn in Hg. injection Hg as <-.
    cbn in He. now injection He as <-.
  - destruct (gather t (i :: i' :: idxs)) as [l|] eqn:E; [|discriminate].
    cbn in Hg. injection Hg as <-. cbn [expand_if_single length Nat.eqb] in He.
    injection He as <-. now apply mapM_length in E.
Qed.

Lemma where1_positive ps : In 1%Z ps -> concat (tf_where1 (equal1 ps 1)) <> [].
Proof.
  unfold tf_where1. generalize 0%nat.
  induction ps as [|p ps IH]; intros n H; [contradiction|].
  cbn [equal1 map where_from]. destruct H as [-> | H].
  - cbn. discriminate.
  - intros E. rewrite concat_app in E. apply app_eq_nil in E. destruct E as [_ E].
    exact (IH (S n) H E).
Qed.

Lemma transpose_201_rows {X} (t : list (list (list X))) slice :
  In slice (transpose_201 t) -> length slice = length t.
Proof.
  unfold transpose_201. intros H. apply in_map_iff in H. destruct H as (k & <- & _).
  apply length_map.
Qed.

Lemma gather_Z_In {X} (t : list X) idx r x :
  gather_Z t idx = Some r -> In x r -> In x t.
Proof.
  unfold gather_Z. revert r. induction idx as [|i idx IH]; intros r H Hx.
  - cbn in H. injection H as <-. contradiction.
  - cbn [mapM] in H. destruct (index_Z t i) as [y|] eqn:Ei; [|discriminate].
    cbn [bind] in H. destruct (mapM (index_Z t) idx) as [ys|] eqn:E; [|discriminate].
    cbn in H. injection H as <-. destruct Hx as [<- | Hx].
    + unfold index_Z in Ei. destruct (i <? 0)%Z; [discriminate|].
      now apply nth_error_In in Ei.
    + now apply (IH ys).
Qed.

Section MaskResolution.

Variable center_form : list R -> list R.
Variable inside_box : list R -> nat -> nat -> nat -> nat -> bool.

Lemma loss_mask_image_resolution proto mask_coef mask_gt bbox_norm pos max_id :
  In 1%Z pos -> Forall (fun mask => length mask <> length proto) mask_gt ->
  loss_mask_image center_form inside_box proto mask_coef mask_gt bbox_norm pos max_id = None.
Proof.
  intros Hpos Hres. unfold loss_mask_image.
  rewrite squeeze_column_where1. cbn [bind].
  set (idxs := concat (tf_where1 (equal1 pos 1))).
  assert (Hidx : idxs <> []) by now apply where1_positive.
  destruct (gather_squeezed mask_coef (squeezed_of idxs)) as [g1|] eqn:G1; [|reflexivity].
  cbn [bind].
  destruct (gather_squeezed max_id (squeezed_of idxs)) as [g2|] eqn:G2; [|reflexivity].
  cbn [bind].
  destruct (expand_if_single _ g1) as [coefs|] eqn:X1; [|reflexivity]. cbn [bind].
  destruct (expand_if_single _ g2) as [ids|] eqn:X2; [|reflexivity]. cbn [bind].
  pose proof (gather_squeezed_length _ _ _ _ G2 X2) as Lids.
  destruct (matmul_transpose_b proto coefs) as [pm|] eqn:M; [|reflexivity]. cbn [bind].
  assert (Lpm : length pm = length proto) by (unfold matmul_transpose_b in M; now apply mapM_length in M).
  destruct (gather_Z mask_gt ids) as [gt|] eqn:Ggt; [|reflexivity]. cbn [bind].
  assert (Lgt : length gt = length ids) by (unfold gather_Z in Ggt; now apply mapM_length in Ggt).
  destruct (gather_Z bbox_norm ids) as [bbox|]; [|reflexivity]. cbn [bind].
  destruct (last_two_product _) as [area|]; [|reflexivity]. cbn [bind].
  replace (sigmoid_cross_entropy_with_logits3 gt (transpose_201 pm)) with (@None (list (list (list R))));
    [reflexivity|].
  symmetry. unfold sigmoid_cross_entropy_with_logits3, zip_exact.
  destruct (Nat.eqb (length gt) (length (transpose_201 pm))) eqn:E; [|reflexivity].
  destruct gt as [|g0 gt']; [simpl in Lgt; destruct idxs, ids; simpl in *; congruence|].
  destruct (transpose_201 pm) as [|p0 pred'] eqn:Et; [discriminate|].
  cbn [combine mapM fst snd].
  replace (sigmoid_cross_entropy_with_logits2 g0 p0) with (@None (list (list R)));
    [reflexivity|].
  symmetry. unfold sigmoid_cross_entropy_with_logits2, zip_exact.
  assert (Hg0 : length g0 <> length proto).
  { rewrite Forall_forall in Hres. apply Hres.
    apply (gather_Z_In _ _ _ _ Ggt). now left. }
  assert (Hp0 : length p0 = length proto).
  { rewrite <- Lpm. apply transpose_201_rows. rewrite Et. now left. }
  replace (Nat.eqb (length g0) (length p0)) with false; [reflexivity|].
  symmetry. apply Nat.eqb_neq. congruence.
Qed.

End MaskResolution.

(** X14.  The masks must have the resolution of the prototypes: when an
    image has a positive anchor and none of its masks has as many rows as
    its prototypes, the cross-entropy of [_loss_mask] has no common shape to
    work on and the function raises. *)
Theorem mask_loss_raises_on_other_mask_resolution center_form inside_box
    (protonet_output : list (list (list (list R))))
    (pred_mask_coef gt_bbox_norm : list (list (list R)))
    (gt_masks : list (list (list (list R)))) (positiveness max_id_for_anchors : list (list Z))
    (max_masks_for_train : Z) (idx : nat) (proto mask_gt : list (list (list R)))
    (pos : list Z) :
  nth_error protonet_output idx = Some proto ->
  nth_error gt_masks idx = Some mask_gt ->
  nth_error positiveness idx = Some pos ->
  In 1%Z pos ->
  Forall (fun mask => length mask <> length proto) mask_gt ->
  _loss_mask center_form inside_box protonet_output pred_mask_coef gt_bbox_norm gt_masks
             positiveness max_id_for_anchors max_masks_for_train = None.
Proof.
  intros Eproto Emask Epos Hpos Hres. unfold _loss_mask.
  assert (Hidx : (idx < length protonet_output)%nat)
    by (apply nth_error_Some; congruence).
  replace (length protonet_output)
    with (idx + S (length protonet_output - S idx))%nat by lia.
  rewrite seq_app, fold_left_app. cbn [seq fold_left].
  match goal with
  | |- context [fold_left ?F (seq 0 idx) ?init] => set (st := fold_left F (seq 0 idx) init)
  end.
  rewrite Nat.add_0_l.
  match goal with
  | |- context [fold_left ?F ?l (bind st ?k)] =>
      replace (bind st k) with (@None (tfloat * nat)); [rewrite (fold_left_stuck F l)|]
  end.
  - reflexivity.
  - reflexivity.
  - destruct st as [[lm tp]|]; [|reflexivity]. cbn [bind].
    rewrite Eproto, Emask, Epos. cbn [bind].
    destruct (nth_error pred_mask_coef idx); [|reflexivity]. cbn [bind].
    destruct (nth_error gt_bbox_norm idx); [|reflexivity]. cbn [bind].
    destruct (nth_error max_id_for_anchors idx); [|reflexivity]. cbn [bind].
    now rewrite loss_mask_image_resolution.
Qed.

Lemma mask_loss_raises_on_other_mask_resolution_witness :
  _loss_mask example_center_form example_inside_box (proto_out example_pred)
             (pred_mask_coef example_pred) (bbox_for_norm example_true)
             [[[[1; 0; 0]; [0; 0; 0]; [0; 0; 0]]; [[0; 0; 0]; [0; 0; 0]; [0; 0; 0]]]]
             (positiveness example_true) (max_id_for_anchors example_true) 100 = None.
Proof.
  apply (mask_loss_raises_on_other_mask_resolution example_center_form example_inside_box
           _ _ _ _ _ _ _ 0%nat [[[0]; [0]]; [[0]; [0]]]
           [[[1; 0; 0]; [0; 0; 0]; [0; 0; 0]]; [[0; 0; 0]; [0; 0; 0]; [0; 0; 0]]]
           [1; 0; 0]%Z); try reflexivity.
  - now left.
  - repeat constructor; simpl; lia.
Defined.

(** ** Segmentation loss: the entries of the target map *)

Lemma cast_int64_floor y z : 0 <= y -> IZR z <= y < IZR z + 1 -> cast_int64 y = z.
Proof.
  intros Hy H. unfold cast_int64.
  replace (Rleb 0 y) with true by (symmetry; apply Rleb_true; lra).
  symmetry. apply Int_part_spec. lra.
Qed.

Lemma cast_int64_binary y : 1 / 2 <= y <= 3 / 2 -> IZR (cast_int64 y) = 0 \/ IZR (cast_int64 y) = 1.
Proof.
  intros [H1 H2]. destruct (Rlt_dec y 1) as [Hlt|Hge].
  - left. rewrite (cast_int64_floor y 0); [reflexivity | lra | lra].
  - right. rewrite (cast_int64_floor y 1); [reflexivity | lra | lra].
Qed.

Lemma seg_image_ok_mask s seg masks cls objects k :
  seg_image_ok s (seg, (masks, (cls, objects))) = true -> (k < length masks)%nat ->
  (1 <= length (nth k masks []))%nat /\ (1 <= length (hd [] (nth k masks [])))%nat
  /\ rows_of_length (length (hd [] (nth k masks []))) (nth k masks []) = true.
Proof.
  unfold seg_image_ok. rewrite !andb_true_iff.
  intros (((((((((_ & _) & _) & _) & _) & _) & Hmasks) & _) & _) & _) Hk.
  rewrite forallb_forall in Hmasks. specialize (Hmasks _ (nth_In masks [] Hk)).
  rewrite !andb_true_iff in Hmasks. destruct Hmasks as ((H1 & H2) & H3).
  apply Nat.leb_le in H1, H2. auto.
Qed.

Lemma seg_image_ok_sizes s seg masks cls objects :
  seg_image_ok s (seg, (masks, (cls, objects))) = true ->
  (2 <= s)%nat /\ length cls = length masks /\ (0 <= objects)%Z.
Proof.
  unfold seg_image_ok. rewrite !andb_true_iff.
  intros (((((((((Hs2 & _) & _) & _) & _) & _) & _) & Hcl) & Hobj) & _).
  apply Nat.leb_le in Hs2. apply Nat.eqb_eq in Hcl. apply Z.leb_le in Hobj. auto.
Qed.

(** The entries that the last object of a class writes to the channel of
    its class. *)
Lemma seg_target_of_last_object s depth masks cls objects i j c k :
  (0 <= objects)%Z -> (i < s)%nat -> (j < s)%nat -> (c < depth)%nat ->
  (k < Z.to_nat objects)%nat -> nth_error cls k = Some (Z.of_nat c) ->
  (forall k', (k < k' < Z.to_nat objects)%nat -> nth_error cls k' <> Some (Z.of_nat c)) ->
  nth c (nth j (nth i (seg_target_reference s depth masks cls objects) []) []) 0
  = nth j (nth i (resized_mask s (nth k masks [])) []) 0.
Proof.
  intros Hobj Hi Hj Hc Hk Hcls Hlast. rewrite seg_target_entry by assumption.
  unfold slice_to. replace (Z.leb 0 objects) with true by (symmetry; now apply Z.leb_le).
  set (n := Z.to_nat objects) in *.
  assert (Hnth : forall k, (k < n)%nat -> nth_error (firstn n cls) k = nth_error cls k).
  { intros k0 Hk0. now rewrite nth_error_firstn, (proj2 (Nat.ltb_lt k0 n) Hk0). }
  assert (Hout : forall k, (n <= k)%nat -> nth_error (firstn n cls) k = None).
  { intros k0 Hk0. rewrite nth_error_firstn.
    now replace (Nat.ltb k0 n) with false by (symmetry; apply Nat.ltb_ge; lia). }
  destruct (last_index_from (Z.of_nat c) 0 (firstn n cls)) as [k0|] eqn:E.
  - apply last_index_from_Some in E. destruct E as (_ & E1 & E2).
    rewrite Nat.sub_0_r in E1.
    assert (Hk0 : (k0 < n)%nat).
    { destruct (Nat.lt_ge_cases k0 n) as [H|H]; [exact H|].
      rewrite (Hout k0 H) in E1. discriminate. }
    rewrite Hnth in E1 by assumption.
    destruct (Nat.lt_trichotomy k0 k) as [H|[H|H]].
    + exfalso. apply (E2 k H). rewrite Nat.sub_0_r. now rewrite Hnth.
    + now subst.
    + exfalso. now apply (Hlast k0 (conj H Hk0)).
  - exfalso. apply (last_index_from_None _ _ _ E k). now rewrite Hnth.
Qed.

Lemma has_shape2_hd {X} s (m : list (list X)) :
  (1 <= s)%nat -> has_shape2 s s m -> length (hd [] m) = s.
Proof.
  intros Hs [Hlen Hrows]. destruct m as [|r m]; [simpl in Hlen; lia|].
  simpl. apply (@rows_of_length_In _ s (r :: m) r Hrows). now left.
Qed.

Lemma binary_mask_nth m i j :
  binary_mask m -> nth j (nth i m []) 0 = 0 \/ nth j (nth i m []) 0 = 1.
Proof.
  intros H.
  assert (Hrow : Forall (fun x => x = 0 \/ x = 1) (nth i m [])).
  { destruct (nth_in_or_default i m []) as [Hin|Hd].
    - unfold binary_mask in H. rewrite Forall_forall in H. now apply H.
    - rewrite Hd. constructor. }
  destruct (nth_in_or_default j (nth i m []) 0) as [Hin|Hd].
  - rewrite Forall_forall in Hrow. now apply Hrow.
  - rewrite Hd. now left.
Qed.

(** Resizing an axis to its own size reads every entry where it is. *)
Lemma resize_axis_same s i : (i < s)%nat -> resize_axis s s i = (i, i, 0).
Proof.
  intros Hi. unfold resize_axis.
  replace ((2 * Z.of_nat i + 1) * Z.of_nat s - Z.of_nat s)%Z
    with (Z.of_nat i * (2 * Z.of_nat s))%Z by lia.
  rewrite Z.div_mul, Z.mod_mul by lia. simpl Z.eqb. cbv iota.
  rewrite Z.max_l, Z.min_l, Nat2Z.id by lia.
  unfold Rdiv. now rewrite Rmult_0_l.
Qed.

(** Resizing an axis to half its size reads half way between two
    neighbours. *)
Lemma resize_axis_half s i :
  (i < s)%nat -> resize_axis (2 * s) s i = ((2 * i)%nat, (2 * i + 1)%nat, 1 / 2).
Proof.
  intros Hi. unfold resize_axis.
  set (num := ((2 * Z.of_nat i + 1) * Z.of_nat (2 * s) - Z.of_nat s)%Z).
  set (den := (2 * Z.of_nat s)%Z).
  assert (Hq : (num / den = 2 * Z.of_nat i)%Z)
    by (symmetry; apply Z.div_unique with (r := Z.of_nat s); unfold num, den; lia).
  assert (Hr : (num mod den = Z.of_nat s)%Z)
    by (symmetry; apply Z.mod_unique with (q := (2 * Z.of_nat i)%Z); unfold num, den; lia).
  rewrite Hq, Hr.
  replace (Z.of_nat s =? 0)%Z with false by (symmetry; apply Z.eqb_neq; lia).
  rewrite Z.max_l, Z.min_l by lia.
  replace (Z.to_nat (2 * Z.of_nat i)) with (2 * i)%nat by lia.
  replace (Z.to_nat (2 * Z.of_nat i + 1)) with (2 * i + 1)%nat by lia.
  f_equal. unfold den. rewrite mult_IZR. field.
  apply not_0_IZR. lia.
Qed.

Lemma resized_mask_same s (m : list (list R)) i j :
  (1 <= s)%nat -> has_shape2 s s m -> binary_mask m -> (i < s)%nat -> (j < s)%nat ->
  nth j (nth i (resized_mask s m) []) 0 = nth j (nth i m []) 0.
Proof.
  intros Hs Hm Hbin Hi Hj.
  pose proof (has_shape2_hd s m Hs Hm) as Hhd. destruct Hm as [Hlen Hrows].
  rewrite resized_mask_char by (rewrite ?Hhd, ?Hlen; assumption).
  rewrite (nth_map_seq _ s i) by assumption. rewrite (nth_map_seq _ s j) by assumption.
  unfold bilinear_value. rewrite Hlen, Hhd, !resize_axis_same by assumption.
  destruct (binary_mask_nth m i j Hbin) as [-> | ->].
  - rewrite (cast_int64_floor _ 0); [reflexivity | lra | lra].
  - rewrite (cast_int64_floor _ 1); [reflexivity | lra | lra].
Qed.

Lemma resized_mask_half s (m : list (list R)) i j :
  (1 <= s)%nat -> has_shape2 (2 * s) (2 * s) m -> binary_mask m ->
  (i < s)%nat -> (j < s)%nat ->
  nth j (nth i (resized_mask s m) []) 0
  = if Rleb 2 (nth (2 * j) (nth (2 * i) m []) 0 + nth (2 * j + 1) (nth (2 * i) m []) 0
               + nth (2 * j) (nth (2 * i + 1) m []) 0
               + nth (2 * j + 1) (nth (2 * i + 1) m []) 0)
    then 1 else 0.
Proof.
  intros Hs Hm Hbin Hi Hj.
  pose proof (has_shape2_hd (2 * s) m ltac:(lia) Hm) as Hhd. destruct Hm as [Hlen Hrows].
  rewrite resized_mask_char by (rewrite ?Hhd, ?Hlen; (assumption || lia)).
  rewrite (nth_map_seq _ s i) by assumption. rewrite (nth_map_seq _ s j) by assumption.
  unfold bilinear_value. rewrite Hlen, Hhd, !resize_axis_half by assumption.
  destruct (binary_mask_nth m (2 * i) (2 * j) Hbin) as [-> | ->],
           (binary_mask_nth m (2 * i) (2 * j + 1) Hbin) as [-> | ->],
           (binary_mask_nth m (2 * i + 1) (2 * j) Hbin) as [-> | ->],
           (binary_mask_nth m (2 * i + 1) (2 * j + 1) Hbin) as [-> | ->];
    match goal with
    | |- context [Rleb 2 ?x] =>
        first [ replace (Rleb 2 x) with true by (symmetry; apply Rleb_true; lra);
                rewrite (cast_int64_floor _ 1); [reflexivity | lra | lra]
              | replace (Rleb 2 x) with false by (symmetry; apply Rleb_false; lra);
                rewrite (cast_int64_floor _ 0); [reflexivity | lra | lra] ]
    end.
Qed.

Lemma resized_mask_entry_binary s (m : list (list R)) i j :
  Forall (Forall unit_interval) m ->
  (1 <= length m)%nat -> (1 <= length (hd [] m))%nat ->
  rows_of_length (length (hd [] m)) m = true -> (1 <= s)%nat ->
  (i < s)%nat -> (j < s)%nat ->
  nth j (nth i (resized_mask s m) []) 0 = 0 \/ nth j (nth i (resized_mask s m) []) 0 = 1.
Proof.
  intros Hu Hh Hw Hrows Hs Hi Hj. rewrite resized_mask_char by assumption.
  rewrite (nth_map_seq _ s i) by assumption. rewrite (nth_map_seq _ s j) by assumption.
  apply cast_int64_binary.
  pose proof (bilinear_value_unit s s m i j Hu Hh Hw Hs Hs Hi Hj) as [H0 H1].
  lra.
Qed.

(** X15.  The target map of a well-shaped image whose masks have entries
    between 0 and 1 is binary: the rounding [cast(masks + 0.5, int64)] of the
    resized masks leaves only the values 0 and 1. *)
Theorem segmentation_target_is_binary (s : nat) (seg masks : list (list (list R)))
    (cls : list Z) (objects : Z) :
  seg_image_ok s (seg, (masks, (cls, objects))) = true ->
  Forall (Forall (Forall unit_interval)) masks ->
  exists target,
    seg_gt_image s seg masks cls objects = Some target
    /\ Forall (Forall (Forall (fun x => x = 0 \/ x = 1))) target.
Proof.
  intros Hok Hu. eexists. split; [now apply seg_gt_image_char|].
  destruct (seg_image_ok_sizes _ _ _ _ _ Hok) as (Hs2 & Hcl & Hobj).
  unfold seg_target_reference.
  apply Forall_forall. intros t Ht. apply in_map_iff in Ht.
  destruct Ht as (i & <- & Hi). apply in_seq in Hi.
  apply Forall_forall. intros r Hr. apply in_map_iff in Hr.
  destruct Hr as (j & <- & Hj). apply in_seq in Hj.
  apply Forall_forall. intros v Hv. apply in_map_iff in Hv.
  destruct Hv as (c & <- & _).
  destruct (last_index_from (Z.of_nat c) 0 (slice_to objects cls)) as [k|] eqn:E;
    [|now left].
  apply last_index_from_lt in E.
  assert (Hk : (k < length masks)%nat).
  { unfold slice_to in E.
    replace (Z.leb 0 objects) with true in E by (symmetry; now apply Z.leb_le).
    rewrite length_firstn in E. lia. }
  destruct (seg_image_ok_mask _ _ _ _ _ k Hok Hk) as (H1 & H2 & H3).
  apply resized_mask_entry_binary; try assumption; try lia.
  rewrite Forall_forall in Hu. apply Hu. now apply nth_In.
Qed.

Lemma segmentation_target_is_binary_witness :
  exists target,
    seg_gt_image 2 [[[0; 0]; [0; 0]]; [[0; 0]; [0; 0]]]
                 [[[1; 1 / 4]; [3 / 4; 0]]; [[0; 0]; [0; 0]]] [1; 0]%Z 1 = Some target
    /\ Forall (Forall (Forall (fun x => x = 0 \/ x = 1))) target.
Proof.
  apply segmentation_target_is_binary; [reflexivity|].
  unfold unit_interval. repeat (apply Forall_cons || apply Forall_nil); lra.
Defined.

(** X16.  Masks that already have the resolution of the segmentation map go
    to the target as they are: for binary masks of [s] by [s] pixels the
    channel of a class holds the mask of the last of the first [objects]
    objects of that class, entry by entry. *)
Theorem segmentation_target_at_mask_resolution (s : nat) (seg masks : list (list (list R)))
    (cls : list Z) (objects : Z) (k c : nat) :
  seg_image_ok s (seg, (masks, (cls, objects))) = true ->
  (k < Z.to_nat objects)%nat -> (c < length (hd [] (hd [] seg)))%nat ->
  nth_error cls k = Some (Z.of_nat c) ->
  (forall k', (k < k' < Z.to_nat objects)%nat -> nth_error cls k' <> Some (Z.of_nat c)) ->
  has_shape2 s s (nth k masks []) -> binary_mask (nth k masks []) ->
  exists target,
    seg_gt_image s seg masks cls objects = Some target
    /\ forall i j, (i < s)%nat -> (j < s)%nat ->
         nth c (nth j (nth i target []) []) 0 = nth j (nth i (nth k masks []) []) 0.
Proof.
  intros Hok Hk Hc Hcls Hlast Hshape Hbin.
  eexists. split; [now apply seg_gt_image_char|].
  destruct (seg_image_ok_sizes _ _ _ _ _ Hok) as (Hs2 & Hcl & Hobj).
  intros i j Hi Hj.
  rewrite (seg_target_of_last_object s _ masks cls objects i j c k) by assumption.
  apply resized_mask_same; (assumption || lia).
Qed.

Lemma segmentation_target_at_mask_resolution_witness :
  exists target,
    seg_gt_image 2 [[[0; 0]; [0; 0]]; [[0; 0]; [0; 0]]] example_masks_overlap
                 [1; 1]%Z 2 = Some target
    /\ forall i j, (i < 2)%nat -> (j < 2)%nat ->
         nth 1 (nth j (nth i target []) []) 0
         = nth j (nth i (nth 1 example_masks_overlap []) []) 0.
Proof.
  apply (segmentation_target_at_mask_resolution 2 [[[0; 0]; [0; 0]]; [[0; 0]; [0; 0]]]
           example_masks_overlap [1; 1]%Z 2 1 1).
  - reflexivity.
  - simpl. lia.
  - simpl. lia.
  - reflexivity.
  - intros k' Hk'. simpl in Hk'. lia.
  - split; reflexivity.
  - simpl. list_forall.
Defined.

(** X17.  Masks of twice the resolution of the segmentation map (the 138 to
    69 of the comment in the code) are halved by majority: for binary masks
    of [2 s] by [2 s] pixels an entry of the channel of a class is 1 when at
    least two of the four pixels of its 2 by 2 block are 1 in the mask of the
    last object of that class, and 0 otherwise. *)
Theorem segmentation_target_halves_by_majority (s : nat) (seg masks : list (list (list R)))
    (cls : list Z) (objects : Z) (k c : nat) :
  seg_image_ok s (seg, (masks, (cls, objects))) = true ->
  (k < Z.to_nat objects)%nat -> (c < length (hd [] (hd [] seg)))%nat ->
  nth_error cls k = Some (Z.of_nat c) ->
  (forall k', (k < k' < Z.to_nat objects)%nat -> nth_error cls k' <> Some (Z.of_nat c)) ->
  has_shape2 (2 * s) (2 * s) (nth k masks []) -> binary_mask (nth k masks []) ->
  exists target,
    seg_gt_image s seg masks cls objects = Some target
    /\ forall i j, (i < s)%nat -> (j < s)%nat ->
         nth c (nth j (nth i target []) []) 0
         = if Rleb 2 (nth (2 * j) (nth (2 * i) (nth k masks []) []) 0
                      + nth (2 * j + 1) (nth (2 * i) (nth k masks []) []) 0
                      + nth (2 * j) (nth (2 * i + 1) (nth k masks []) []) 0
                      + nth (2 * j + 1) (nth (2 * i + 1) (nth k masks []) []) 0)
           then 1 else 0.
Proof.
  intros Hok Hk Hc Hcls Hlast Hshape Hbin.
  eexists. split; [now apply seg_gt_image_char|].
  destruct (seg_image_ok_sizes _ _ _ _ _ Hok) as (Hs2 & Hcl & Hobj).
  intros i j Hi Hj.
  rewrite (seg_target_of_last_object s _ masks cls objects i j c k) by assumption.
  apply resized_mask_half; (assumption || lia).
Qed.

Lemma segmentation_target_halves_by_majority_witness :
  exists target,
    seg_gt_image 2 [[[0; 0]; [0; 0]]; [[0; 0]; [0; 0]]] example_masks_fine
                 [1; 0]%Z 1 = Some target
    /\ forall i j, (i < 2)%nat -> (j < 2)%nat ->
         nth 1 (nth j (nth i target []) []) 0
         = if Rleb 2 (nth (2 * j) (nth (2 * i) (nth 0 example_masks_fine []) []) 0
                      + nth (2 * j + 1) (nth (2 * i) (nth 0 example_masks_fine []) []) 0
                      + nth (2 * j) (nth (2 * i + 1) (nth 0 example_masks_fine []) []) 0
                      + nth (2 * j + 1) (nth (2 * i + 1) (nth 0 example_masks_fine []) []) 0)
           then 1 else 0.
Proof.
  apply (segmentation_target_halves_by_majority 2 [[[0; 0]; [0; 0]]; [[0; 0]; [0; 0]]]
           example_masks_fine [1; 0]%Z 1 0 1).
  - reflexivity.
  - simpl. lia.
  - simpl. lia.
  - reflexivity.
  - intros k' Hk'. simpl in Hk'. lia.
  - split; reflexivity.
  - simpl. list_forall.
Defined.

(** ** Segmentation loss: images and padding *)

Lemma seg_image_ok_single s seg masks cls objects :
  seg_image_ok s (seg, (masks, (cls, objects))) = true ->
  seg_batch_ok [seg] [masks] [cls] [objects] = true /\ length seg = s.
Proof.
  intros Hok.
  assert (Hlen : length seg = s).
  { unfold seg_image_ok in Hok. rewrite !andb_true_iff in Hok.
    destruct Hok as (((((((((_ & Hlen) & _) & _) & _) & _) & _) & _) & _) & _).
    now apply Nat.eqb_eq in Hlen. }
  split; [|exact Hlen].
  unfold seg_batch_ok. cbn [length hd seg_images combine forallb].
  rewrite Hlen, Hok. reflexivity.
Qed.

Lemma reduce_sum_scaled {X} (f : X -> R) a (l : list X) :
  a <> 0 -> reduce_sum (map (fun x => f x / a / cast_float 1) l) = reduce_sum (map f l) / a.
Proof.
  intros Ha. unfold reduce_sum, cast_float.
  induction l as [|x l IH]; cbn [map fold_right]; [field; exact Ha|].
  rewrite IH. simpl. field. exact Ha.
Qed.

(** X18.  The segmentation loss of a well-shaped batch is the mean of the
    losses of its images, each taken as a batch of its own: every image
    counts the same, whatever its number of objects. *)
Theorem segmentation_loss_is_batch_mean (pred_seg mask_gt : list (list (list (list R))))
    (classes : list (list Z)) (num_obj : list Z) :
  seg_batch_ok pred_seg mask_gt classes num_obj = true ->
  exists per_image,
    Forall2 (fun (im : seg_image) l =>
               _loss_semantic_segmentation [fst im] [fst (snd im)] [fst (snd (snd im))]
                                           [snd (snd (snd im))] = Some (Fin l))
            (seg_images pred_seg mask_gt classes num_obj) per_image
    /\ _loss_semantic_segmentation pred_seg mask_gt classes num_obj
       = Some (Fin (reduce_sum per_image / cast_float (length mask_gt))).
Proof.
  intros Hok. rewrite loss_seg_char by assumption.
  unfold seg_batch_ok in Hok. rewrite !andb_true_iff in Hok.
  destruct Hok as ((((Hb & H1) & H2) & H3) & Hall). apply Nat.leb_le in Hb.
  apply Nat.eqb_eq in H1, H2, H3.
  set (s := length (hd [] pred_seg)) in *.
  set (ims := seg_images pred_seg mask_gt classes num_obj) in *.
  assert (Hlen : length ims = length mask_gt).
  { unfold ims, seg_images. rewrite !length_combine. lia. }
  assert (Hs : (1 <= s)%nat).
  { destruct ims as [|(seg, (masks, (cls, objects))) ims']; [simpl in Hlen; lia|].
    cbn [forallb] in Hall. apply andb_true_iff in Hall. destruct Hall as [Hall _].
    unfold seg_image_ok in Hall. rewrite !andb_true_iff in Hall.
    destruct Hall as (((((((((Hs2 & _) & _) & _) & _) & _) & _) & _) & _) & _).
    apply Nat.leb_le in Hs2. lia. }
  exists (map (fun im => seg_image_loss s im / cast_float s ^ 2 / cast_float 1) ims).
  split.
  - clear Hs Hlen. induction ims as [|(seg, (masks, (cls, objects))) ims' IH]; [constructor|].
    cbn [forallb] in Hall. apply andb_true_iff in Hall. destruct Hall as [Him Hall].
    cbn [map]. constructor; [|now apply IH].
    cbn [fst snd]. destruct (seg_image_ok_single _ _ _ _ _ Him) as [Hsingle Hlen].
    rewrite loss_seg_char by assumption. cbn [hd length seg_images combine map].
    rewrite Hlen. do 3 f_equal. unfold reduce_sum. simpl. lra.
  - rewrite reduce_sum_scaled; [reflexivity|].
    pose proof (cast_float_sq_pos s Hs). lra.
Qed.

Lemma segmentation_loss_is_batch_mean_witness :
  exists per_image,
    Forall2 (fun (im : seg_image) l =>
               _loss_semantic_segmentation [fst im] [fst (snd im)] [fst (snd (snd im))]
                                           [snd (snd (snd im))] = Some (Fin l))
            (seg_images (seg example_pred ++ seg example_pred)
                        (mask_target example_true ++ [example_masks_overlap])
                        (classes example_true ++ [[1; 1]%Z]) [1; 2]%Z) per_image
    /\ _loss_semantic_segmentation (seg example_pred ++ seg example_pred)
                                   (mask_target example_true ++ [example_masks_overlap])
                                   (classes example_true ++ [[1; 1]%Z]) [1; 2]%Z
       = Some (Fin (reduce_sum per_image
                    / cast_float (length (mask_target example_true
                                          ++ [example_masks_overlap])))).
Proof.
  apply segmentation_loss_is_batch_mean. reflexivity.
Defined.

Lemma seg_target_reference_padding s depth masks masks' cls cls' objects :
  (0 <= objects)%Z ->
  firstn (Z.to_nat objects) masks = firstn (Z.to_nat objects) masks' ->
  firstn (Z.to_nat objects) cls = firstn (Z.to_nat objects) cls' ->
  seg_target_reference s depth masks' cls' objects
  = seg_target_reference s depth masks cls objects.
Proof.
  intros Hobj Hm Hc. unfold seg_target_reference, slice_to.
  replace (Z.leb 0 objects) with true by (symmetry; now apply Z.leb_le).
  rewrite <- Hc.
  apply map_ext. intros i. apply map_ext. intros j. apply map_ext. intros c.
  destruct (last_index_from (Z.of_nat c) 0 (firstn (Z.to_nat objects) cls)) as [k|] eqn:E;
    [|reflexivity].
  apply last_index_from_lt in E. rewrite length_firstn in E.
  assert (Hk : (k < Z.to_nat objects)%nat) by lia.
  assert (Hnth : nth k masks' [] = nth k masks []).
  { pose proof (nth_firstn (Z.to_nat objects) masks k []) as H1.
    pose proof (nth_firstn (Z.to_nat objects) masks' k []) as H2.
    rewrite (proj2 (Nat.ltb_lt _ _) Hk) in H1, H2. congruence. }
  now rewrite Hnth.
Qed.

(** X19.  The segmentation loss reads the first [num_obj] masks and classes
    of every image only: two well-shaped batches that differ in the
    remaining (padding) object slots only have the same loss. *)
Theorem segmentation_loss_ignores_padding_objects
    (pred_seg mask_gt mask_gt' : list (list (list (list R))))
    (classes classes' : list (list Z)) (num_obj : list Z) :
  seg_batch_ok pred_seg mask_gt classes num_obj = true ->
  seg_batch_ok pred_seg mask_gt' classes' num_obj = true ->
  (forall b, firstn (Z.to_nat (nth b num_obj 0%Z)) (nth b mask_gt [])
             = firstn (Z.to_nat (nth b num_obj 0%Z)) (nth b mask_gt' [])) ->
  (forall b, firstn (Z.to_nat (nth b num_obj 0%Z)) (nth b classes [])
             = firstn (Z.to_nat (nth b num_obj 0%Z)) (nth b classes' [])) ->
  _loss_semantic_segmentation pred_seg mask_gt' classes' num_obj
  = _loss_semantic_segmentation pred_seg mask_gt classes num_obj.
Proof.
  intros Hok Hok' Hm Hc. rewrite !loss_seg_char by assumption.
  unfold seg_batch_ok in Hok, Hok'. rewrite !andb_true_iff in Hok, Hok'.
  destruct Hok as ((((_ & H1) & H2) & H3) & Hall).
  destruct Hok' as ((((_ & H1') & H2') & H3') & Hall').
  apply Nat.eqb_eq in H1, H2, H3, H1', H2', H3'.
  set (s := length (hd [] pred_seg)) in *.
  replace (length mask_gt') with (length mask_gt) by congruence.
  do 5 f_equal.
  apply nth_error_ext. intros n. rewrite !nth_error_map.
  rewrite forallb_forall in Hall, Hall'.
  pose proof (fun im => @nth_error_In _ (seg_images pred_seg mask_gt classes num_obj) n im)
    as Hin.
  unfold seg_images in *. rewrite !nth_error_combine in *.
  destruct (nth_error pred_seg n) as [seg|] eqn:E1; [|reflexivity]. cbn [bind] in *.
  destruct (nth_error mask_gt n) as [masks|] eqn:E2.
  2:{ apply nth_error_None in E2.
      assert (E2' : nth_error mask_gt' n = None) by (apply nth_error_None; lia).
      now rewrite E2'. }
  destruct (nth_error mask_gt' n) as [masks'|] eqn:E2'.
  2:{ apply nth_error_None in E2'.
      assert (n < length mask_gt)%nat by (apply nth_error_Some; congruence). lia. }
  cbn [bind] in *.
  destruct (nth_error classes n) as [cls|] eqn:E3.
  2:{ apply nth_error_None in E3.
      assert (E3' : nth_error classes' n = None) by (apply nth_error_None; lia).
      now rewrite E3'. }
  destruct (nth_error classes' n) as [cls'|] eqn:E3'.
  2:{ apply nth_error_None in E3'.
      assert (n < length classes)%nat by (apply nth_error_Some; congruence). lia. }
  cbn [bind] in *.
  destruct (nth_error num_obj n) as [objects|] eqn:E4; [|reflexivity].
  cbn [bind option_map] in *. f_equal.
  specialize (Hall _ (Hin _ eq_refl)).
  destruct (seg_image_ok_sizes _ _ _ _ _ Hall) as (_ & _ & Hobj).
  unfold seg_image_loss, seg_image_target. cbn [fst snd]. f_equal.
  specialize (Hm n). specialize (Hc n).
  rewrite (nth_error_nth _ _ _ E4), (nth_error_nth _ _ _ E2), (nth_error_nth _ _ _ E2') in Hm.
  rewrite (nth_error_nth _ _ _ E4), (nth_error_nth _ _ _ E3), (nth_error_nth _ _ _ E3') in Hc.
  now apply seg_target_reference_padding.
Qed.

Lemma segmentation_loss_ignores_padding_objects_witness :
  _loss_semantic_segmentation (seg example_pred) [[[[1; 0]; [0; 0]]; [[1; 1]; [1; 1]]]]
                              [[1; 1]%Z] (num_obj example_true)
  = _loss_semantic_segmentation (seg example_pred) (mask_target example_true)
                                (classes example_true) (num_obj example_true).
Proof.
  apply segmentation_loss_ignores_padding_objects; try reflexivity.
  - intros [|b]; [reflexivity|]. simpl. destruct b; reflexivity.
  - intros [|b]; [reflexivity|]. simpl. destruct b; reflexivity.
Defined.

(** ** Segmentation loss: maps that are not square *)

Lemma seg_gt_image_not_square s w seg masks cls objects :
  (1 <= objects)%Z -> masks <> [] -> cls <> [] ->
  forallb (fun m => Nat.leb 1 (length m) && Nat.leb 1 (length (hd [] m))
                    && rows_of_length (length (hd [] m)) m) masks = true ->
  rows_of_length w seg = true ->
  forallb (rows_of_length (length (hd [] (hd [] seg)))) seg = true ->
  w <> s ->
  seg_gt_image s seg masks cls objects = None.
Proof.
  intros _ _ _ _ Hrows _ Hw.
  destruct seg as [|row seg'].
  { destruct s as [|s']; [reflexivity|].
    apply seg_gt_image_other_shape. left. simpl. lia. }
  apply seg_gt_image_other_shape. right. simpl hd.
  rewrite (@rows_of_length_In _ w (row :: seg') row Hrows) by now left.
  exact Hw.
Qed.

(** X20.  The segmentation maps must be square: the masks are resized to
    [seg_shape] by [seg_shape], [seg_shape] being the number of rows of the
    first map, and written to the channels of a target of the shape of the
    map.  When the map of an image with at least one object has another
    number of columns, the update does not fit and the function raises. *)
Theorem segmentation_loss_raises_on_maps_not_square
    (pred_seg mask_gt : list (list (list (list R)))) (classes : list (list Z))
    (num_obj : list Z) (idx : nat) (seg masks : list (list (list R))) (cls : list Z)
    (objects : Z) (w : nat) :
  nth_error pred_seg idx = Some seg -> nth_error mask_gt idx = Some masks ->
  nth_error classes idx = Some cls -> nth_error num_obj idx = Some objects ->
  (1 <= objects)%Z -> masks <> [] -> cls <> [] ->
  forallb (fun m => Nat.leb 1 (length m) && Nat.leb 1 (length (hd [] m))
                    && rows_of_length (length (hd [] m)) m) masks = true ->
  rows_of_length w seg = true ->
  forallb (rows_of_length (length (hd [] (hd [] seg)))) seg = true ->
  w <> length (hd [] pred_seg) ->
  _loss_semantic_segmentation pred_seg mask_gt classes num_obj = None.
Proof.
  intros Eseg Emasks Ecls Eobj Hobj Hmasks Hcls Hwf Hrows Hcells Hw.
  unfold _loss_semantic_segmentation.
  assert (Hidx : (idx < length mask_gt)%nat) by (apply nth_error_Some; congruence).
  replace (length mask_gt) with (idx + S (length mask_gt - S idx))%nat at 1 by lia.
  rewrite seq_app, fold_left_app. cbn [seq fold_left].
  match goal with
  | |- context [fold_left ?F (seq 0 idx) ?init] => set (st := fold_left F (seq 0 idx) init)
  end.
  rewrite Nat.add_0_l.
  match goal with
  | |- context [fold_left ?F ?l (bind st ?k)] =>
      replace (bind st k) with (@None R); [rewrite (fold_left_stuck F l)|]
  end.
  - reflexivity.
  - reflexivity.
  - destruct st as [acc|]; [|reflexivity]. cbn [bind].
    rewrite Eseg, Emasks, Ecls, Eobj. cbn [bind].
    now rewrite (seg_gt_image_not_square _ w).
Qed.

Lemma segmentation_loss_raises_on_maps_not_square_witness :
  _loss_semantic_segmentation example_seg_wide (mask_target example_true)
                              [[0; 0]%Z] [1%Z] = None.
Proof.
  apply (segmentation_loss_raises_on_maps_not_square example_seg_wide
           (mask_target example_true) [[0; 0]%Z] [1%Z] 0%nat
           [[[0]; [0]; [0]]; [[0]; [0]; [0]]]
           [[[1; 0]; [0; 0]]; [[0; 0]; [0; 0]]] [0; 0]%Z 1 3);
    reflexivity || discriminate.
Defined.

(** ** The aggregator on a batch without positive anchors *)

(** X21.  On a well-shaped batch without positive anchor [__call__] returns
    not-a-number for the localization, the classification and the mask loss,
    a finite segmentation loss, and not-a-number for the total, whatever the
    weights are: a weight of zero does not remove a loss from the total. *)
Theorem call_without_positive_anchor_is_not_a_number center_form inside_box
    (self : YOLACTLoss) (y_true : labels) (y_pred : predictions) :
  batch_ok center_form self y_true y_pred ->
  count_anchors 1 (positiveness y_true) = 0%nat ->
  exists seg_loss,
    __call__ center_form inside_box self y_true y_pred
    = Some (NaN, NaN, NaN, Fin seg_loss, NaN).
Proof.
  intros ((L1 & L2 & L3 & L4) & (C0 & C1 & C2 & C3) & M & S) Hzero.
  destruct (zero_positive_losses center_form inside_box self y_true y_pred
              L1 L2 L3 L4 C0 C1 C2 C3 M Hzero) as (E1 & E2 & E3).
  unfold __call__. rewrite E1, E2, E3, (loss_seg_char _ _ _ _ S). cbn [bind].
  eexists. reflexivity.
Qed.

Lemma call_without_positive_anchor_is_not_a_number_witness :
  exists seg_loss,
    __call__ example_center_form example_inside_box (__init__ 2 0 0 0 1 3 100)
             example_true_negative example_pred
    = Some (NaN, NaN, NaN, Fin seg_loss, NaN).
Proof.
  apply call_without_positive_anchor_is_not_a_number.
  - repeat split; try reflexivity. simpl. lia.
  - reflexivity.
Defined.

(** ** Classification loss: mining over the whole batch *)

Lemma rows_of_length_flat {X} n (t : list (list (list X))) :
  forallb (rows_of_length n) t = true -> forallb (rows_of_length n) [concat t] = true.
Proof.
  intros H. cbn [forallb]. rewrite andb_true_r. unfold rows_of_length.
  apply forallb_forall. intros r Hr. apply Nat.eqb_eq.
  pose proof (rows_of_length_concat n t H) as Hall. rewrite Forall_forall in Hall.
  now apply Hall.
Qed.

(** X22.  The negative anchors are mined over the whole batch, not image by
    image: [_loss_class] flattens the batch first, so a well-shaped batch and
    the batch of one image that lists all its anchors in the same order have
    the same classification loss. *)
Theorem classification_loss_mines_over_the_batch (self : YOLACTLoss)
    (pred_cls : list (list (list R))) (gt_cls positiveness : list (list Z)) :
  (0 < _num_classes self)%nat ->
  map (@length Z) positiveness = map (@length (list R)) pred_cls ->
  map (@length Z) positiveness = map (@length Z) gt_cls ->
  forallb (rows_of_length (_num_classes self)) pred_cls = true ->
  _loss_class self [concat pred_cls] [concat gt_cls] [concat positiveness]
  = _loss_class self pred_cls gt_cls positiveness.
Proof.
  intros H0 H1 H2 H3.
  rewrite (loss_class_char self pred_cls) by assumption.
  rewrite loss_class_char.
  - unfold class_loss_reference, mined_negatives, class_anchors.
    cbn [concat]. now rewrite !app_nil_r.
  - assumption.
  - cbn [map]. f_equal. now apply length_concat_same.
  - cbn [map]. f_equal. now apply length_concat_same.
  - now apply rows_of_length_flat.
Qed.

Lemma classification_loss_mines_over_the_batch_witness :
  _loss_class example_ratio_one [concat [[[0; 1]; [2; 2]]; [[1; 0]; [3; 1]]]]
              [concat [[1; 0]; [0; 0]]%Z] [concat [[1; 0]; [0; 0]]%Z]
  = _loss_class example_ratio_one [[[0; 1]; [2; 2]]; [[1; 0]; [3; 1]]]
                [[1; 0]; [0; 0]]%Z [[1; 0]; [0; 0]]%Z.
Proof.
  apply classification_loss_mines_over_the_batch; try reflexivity.
  simpl. lia.
Defined.

(** ** Segmentation target: replaced channels, single object slot *)

(** C7 as stated fails.  Two objects of class 1: the mask of the first
    covers the pixel in row 0 and column 1, the mask of the second does not,
    so the two objects do not overlap there; the target of class 1 is 0 at
    this pixel, since the second object replaces the whole channel and not
    only the pixels where the two overlap.  And not every image gets a
    target: for an image with a single object slot no target is built, the
    function raises. *)
Lemma segmentation_target_replaces_whole_channel :
  (exists target,
     seg_gt_image 2 [[[0; 0]; [0; 0]]; [[0; 0]; [0; 0]]] example_masks_overlap
                  [1; 1]%Z 2 = Some target
     /\ nth 1 (nth 1 (nth 0 target []) []) 0 = 0
     /\ nth 1 (nth 0 (nth 0 example_masks_overlap []) []) 0 = 1
     /\ nth 1 (nth 0 (nth 1 example_masks_overlap []) []) 0 = 0)
  /\ seg_gt_image 2 [[[0; 0]; [0; 0]]; [[0; 0]; [0; 0]]] [[[1; 0]; [0; 0]]] [1%Z] 1 = None.
Proof.
  split.
  - eexists. split; [apply seg_gt_image_char; reflexivity|].
    split; [|split; reflexivity].
    rewrite (seg_target_of_last_object 2 _ example_masks_overlap [1; 1]%Z 2 0 1 1 1);
      try (simpl; lia); try reflexivity.
    rewrite resized_mask_same; try (simpl; lia); try reflexivity.
    + split; reflexivity.
    + simpl. list_forall.
  - unfold seg_gt_image.
    destruct (resize_bilinear 2 2 (expand_dims3 [[[1; 0]; [0; 0]]])) as [m4|] eqn:E;
      [|reflexivity].
    cbn [bind]. unfold resize_bilinear in E. cbn in E. injection E as <-. reflexivity.
Qed.

(** C10 as stated fails: an image without object is not always included.
    With a single object slot, or with a map that is not square, the function
    raises although the number of objects is 0. *)
Lemma segmentation_image_without_object_raises :
  _loss_semantic_segmentation (seg example_pred) [[[[1; 0]; [0; 0]]]] [[1%Z]] [0%Z] = None
  /\ _loss_semantic_segmentation example_seg_wide (mask_target example_true)
                                 (classes example_true) [0%Z] = None.
Proof.
  split.
  - unfold _loss_semantic_segmentation. cbn [length seq fold_left hd seg example_pred].
    cbn [nth_error bind].
    replace (seg_gt_image _ _ _ _ _) with (@None (list (list (list R)))); [reflexivity|].
    symmetry. unfold seg_gt_image.
    destruct (resize_bilinear _ _ _) as [m4|] eqn:E; [|reflexivity].
    cbn [bind]. unfold resize_bilinear in E. cbn in E. injection E as <-. reflexivity.
  - apply seg_loss_not_square; simpl; lia.
Qed.
